(** * Syntax-tree toolkit of javascript-obfuscator: NodeFactory and NodeUtils

    A shallow embedding of [src/node/NodeFactory.ts] and
    [src/node/NodeUtils.ts].  JavaScript objects live in a store and are
    designated by references, so that identity, aliasing and the cyclic
    [parentNode] back-reference are part of the model. *)

From Stdlib Require Import Floats Ascii.
From stdpp Require Import base option list strings pretty relations.

Open Scope string_scope.
Open Scope list_scope.

(** ** Values and the object store *)

(** A reference is the number of a cell of the store. *)
Abbreviation loc := nat.

(** A JavaScript value: the primitives, or a reference to an object. *)
Inductive val :=
  | VUndef
  | VNull
  | VBool (b : bool)
  | VNum (n : float)
  | VStr (s : string)
  | VRef (l : loc).

(** A stored object: a plain object with its own enumerable properties in
    insertion order, an array, or a regular-expression object. *)
Inductive obj :=
  | OObj (props : list (string * val))
  | OArr (elems : list val)
  | ORegExp (source : string).

(** The store: cell [l] holds the object that [VRef l] designates; a new
    object takes the first unused cell. *)
Abbreviation heap := (list obj).

Inductive error :=
  | TypeError
  | SyntaxError (msg : string)
  | EngineError (msg : string).

(** Result of running a piece of code from a store: a value and the new
    store, a thrown exception, or exhausted recursion fuel. *)
Inductive outcome (A : Type) :=
  | Ok (a : A) (h : heap)
  | Throw (e : error)
  | OutOfFuel.
Arguments Ok {A} a h.
Arguments Throw {A} e.
Arguments OutOfFuel {A}.

Definition M (A : Type) := heap -> outcome A.

Definition ret {A} (a : A) : M A := fun h => Ok a h.
Definition throw {A} (e : error) : M A := fun _ => Throw e.
Definition bind {A B} (m : M A) (f : A -> M B) : M B :=
  fun h => match m h with
           | Ok a h' => f a h'
           | Throw e => Throw e
           | OutOfFuel => OutOfFuel
           end.

Notation "'let*' x := m 'in' k" := (bind m (fun x => k))
  (at level 10, x name, m at level 100, k at level 200).
Notation "m ;;; k" := (bind m (fun _ => k))
  (at level 100, k at level 200, right associativity).

(** [xs.forEach(f)] *)
Fixpoint forEach {A} (f : A -> M unit) (xs : list A) : M unit :=
  match xs with
  | [] => ret tt
  | x :: xs' => f x ;;; forEach f xs'
  end.

(** [xs.map(f)], results in order *)
Fixpoint map_each {A B} (f : A -> M B) (xs : list A) : M (list B) :=
  match xs with
  | [] => ret []
  | x :: xs' => let* y := f x in let* ys := map_each f xs' in ret (y :: ys)
  end.

(** ** Property access *)

Fixpoint assoc {A} (k : string) (ps : list (string * A)) : option A :=
  match ps with
  | [] => None
  | (k', v) :: ps' => if decide (k' = k) then Some v else assoc k ps'
  end.

(** [o[k] = v] on a property list: overwrite in place, or append. *)
Fixpoint set_assoc {A} (k : string) (v : A) (ps : list (string * A))
  : list (string * A) :=
  match ps with
  | [] => [(k, v)]
  | (k', v') :: ps' =>
      if decide (k' = k) then (k, v) :: ps' else (k', v') :: set_assoc k v ps'
  end.

Definition index_key (i : nat) : string := pretty i.

Definition chars (s : string) : list val :=
  (fun c => VStr (String c EmptyString)) <$> String.list_ascii_of_string s.

(** The own enumerable properties of a value, as [Object.keys] and the
    bracket read see them.  [undefined] and [null] have none to ask for
    (the access throws); numbers and booleans have none; a string has its
    characters under their indices, an array its elements.  A reference
    outside the store does not arise in a run. *)
Definition own_props (h : heap) (v : val) : option (list (string * val)) :=
  match v with
  | VUndef | VNull => None
  | VBool _ | VNum _ => Some []
  | VStr s => Some (imap (fun i c => (index_key i, c)) (chars s))
  | VRef l =>
      match h !! l with
      | Some (OObj ps) => Some ps
      | Some (OArr es) => Some (imap (fun i e => (index_key i, e)) es)
      | Some (ORegExp _) => Some []
      | None => None
      end
  end.

(** [Object.keys(v)] *)
Definition object_keys (v : val) : M (list string) :=
  fun h => match own_props h v with
           | Some ps => Ok (ps.*1) h
           | None => Throw TypeError
           end.

(** [v[k]] *)
Definition get (v : val) (k : string) : M val :=
  fun h => match own_props h v with
           | Some ps => Ok (default VUndef (assoc k ps)) h
           | None => Throw TypeError
           end.

(** [v[k] = x], for [v] a plain object; this code writes named properties
    to nothing else. *)
Definition set (v : val) (k : string) (x : val) : M unit :=
  fun h => match v with
           | VRef l =>
               match h !! l with
               | Some (OObj ps) => Ok tt (<[l := OObj (set_assoc k x ps)]> h)
               | _ => Throw TypeError
               end
           | _ => Throw TypeError
           end.

(** A fresh object, as an object or array literal creates it. *)
Definition alloc (o : obj) : M val :=
  fun h => Ok (VRef (length h)) (h ++ [o]).

(** Overwrite the object in a cell. *)
Definition store (l : loc) (o : obj) : M unit :=
  fun h => Ok tt (<[l := o]> h).

(** [!v] is [negb (truthy v)] *)
Definition truthy (v : val) : bool :=
  match v with
  | VUndef | VNull => false
  | VBool b => b
  | VNum n => (PrimFloat.eqb n n) && negb (PrimFloat.eqb n 0%float)
  | VStr s => negb (bool_decide (s = EmptyString))
  | VRef _ => true
  end.

(** [v === null] *)
Definition is_null (v : val) : bool :=
  match v with
  | VNull => true
  | _ => false
  end.

(** [typeof v === 'object'] *)
Definition typeof_object (v : val) : bool :=
  match v with
  | VNull | VRef _ => true
  | _ => false
  end.

(** ** The node-type enumeration *)

(** Modelled from the spec: the [NodeType] enumeration of
    [src/enums/node/NodeType.ts], which is outside the given sources.  Each
    member is the tag of one syntax construct of section 3 and 4.1, under
    its ESTree name. *)
Module NodeType.
Definition ArrayExpression := "ArrayExpression".
Definition AssignmentExpression := "AssignmentExpression".
Definition BinaryExpression := "BinaryExpression".
Definition BlockStatement := "BlockStatement".
Definition BreakStatement := "BreakStatement".
Definition CallExpression := "CallExpression".
Definition ContinueStatement := "ContinueStatement".
Definition ExpressionStatement := "ExpressionStatement".
Definition FunctionDeclaration := "FunctionDeclaration".
Definition FunctionExpression := "FunctionExpression".
Definition Identifier := "Identifier".
Definition IfStatement := "IfStatement".
Definition Literal := "Literal".
Definition LogicalExpression := "LogicalExpression".
Definition MemberExpression := "MemberExpression".
Definition MethodDefinition := "MethodDefinition".
Definition ObjectExpression := "ObjectExpression".
Definition Program := "Program".
Definition Property := "Property".
Definition ReturnStatement := "ReturnStatement".
Definition SwitchCase := "SwitchCase".
Definition SwitchStatement := "SwitchStatement".
Definition UnaryExpression := "UnaryExpression".
Definition UpdateExpression := "UpdateExpression".
Definition VariableDeclaration := "VariableDeclaration".
Definition VariableDeclarator := "VariableDeclarator".
Definition WhileStatement := "WhileStatement".
End NodeType.

(** ** NodeFactory.ts *)

(** [boolean | number | string], the type of a literal's value *)
Inductive literal_value :=
  | LBool (b : bool)
  | LNum (n : float)
  | LStr (s : string).

(** ['var' | 'let' | 'const'] *)
Inductive declaration_kind := KindVar | KindLet | KindConst.

Definition declaration_kind_name (k : declaration_kind) : string :=
  match k with
  | KindVar => "var"
  | KindLet => "let"
  | KindConst => "const"
  end.

Module NodeFactory.
Section Factory.
(** [escodegen.Precedence.Primary], a constant of the code generator *)
Variable Precedence_Primary : val.
(** The language's conversion of a number to a string. *)
Variable Number_toString : float -> string.

(** The literal [{ ignoredNode: false }]. *)
Definition metadata_literal : M val :=
  alloc (OObj [("ignoredNode", VBool false)]).

(** A parameter declared [xs = []]: an omitted argument is a new empty
    array. *)
Definition or_empty_array (a : val) : M val :=
  match a with
  | VUndef => alloc (OArr [])
  | _ => ret a
  end.

(** The properties that [...v] contributes to an object literal: none
    for [undefined], [null] and the other falsy primitives. *)
Definition spread (v : val) : M (list (string * val)) :=
  fun h => Ok (default [] (own_props h v)) h.

Definition literal_val (v : literal_value) : val :=
  match v with
  | LBool b => VBool b
  | LNum n => VNum n
  | LStr s => VStr s
  end.

(** [`${value}`] *)
Definition template_string (v : literal_value) : string :=
  match v with
  | LBool true => "true"
  | LBool false => "false"
  | LNum n => Number_toString n
  | LStr s => s
  end.

(** Each constructor evaluates the nested literals, then stores the
    node. *)

Definition programNode (body : val) : M val :=
  let* body := or_empty_array body in
  let* metadata := metadata_literal in
  alloc (OObj [("type", VStr NodeType.Program);
               ("body", body);
               ("sourceType", VStr "script");
               ("metadata", metadata)]).

Definition arrayExpressionNode (elements : val) : M val :=
  let* elements := or_empty_array elements in
  let* metadata := metadata_literal in
  alloc (OObj [("type", VStr NodeType.ArrayExpression);
               ("elements", elements);
               ("metadata", metadata)]).

Definition assignmentExpressionNode (operator : string) (left right : val)
  : M val :=
  let* metadata := metadata_literal in
  alloc (OObj [("type", VStr NodeType.AssignmentExpression);
               ("operator", VStr operator);
               ("left", left);
               ("right", right);
               ("metadata", metadata)]).

Definition binaryExpressionNode (operator : string) (left right : val)
  : M val :=
  let* metadata := metadata_literal in
  alloc (OObj [("type", VStr NodeType.BinaryExpression);
               ("operator", VStr operator);
               ("left", left);
               ("right", right);
               ("metadata", metadata)]).

Definition blockStatementNode (body : val) : M val :=
  let* body := or_empty_array body in
  let* metadata := metadata_literal in
  alloc (OObj [("type", VStr NodeType.BlockStatement);
               ("body", body);
               ("metadata", metadata)]).

Definition breakStatement (label : val) : M val :=
  let* metadata := metadata_literal in
  alloc (OObj [("type", VStr NodeType.BreakStatement);
               ("label", label);
               ("metadata", metadata)]).

Definition callExpressionNode (callee args : val) : M val :=
  let* args := or_empty_array args in
  let* metadata := metadata_literal in
  alloc (OObj [("type", VStr NodeType.CallExpression);
               ("callee", callee);
               ("arguments", args);
               ("metadata", metadata)]).

Definition continueStatement (label : val) : M val :=
  let* metadata := metadata_literal in
  alloc (OObj [("type", VStr NodeType.ContinueStatement);
               ("label", label);
               ("metadata", metadata)]).

Definition expressionStatementNode (expression : val) : M val :=
  let* metadata := metadata_literal in
  alloc (OObj [("type", VStr NodeType.ExpressionStatement);
               ("expression", expression);
               ("metadata", metadata)]).

Definition identifierNode (name : string) : M val :=
  let* metadata := metadata_literal in
  alloc (OObj [("type", VStr NodeType.Identifier);
               ("name", VStr name);
               ("metadata", metadata)]).

Definition functionDeclarationNode (functionName : string)
    (params body : val) : M val :=
  let* id := identifierNode functionName in
  let* metadata := metadata_literal in
  alloc (OObj [("type", VStr NodeType.FunctionDeclaration);
               ("id", id);
               ("params", params);
               ("body", body);
               ("generator", VBool false);
               ("metadata", metadata)]).

Definition functionExpressionNode (params body : val) : M val :=
  let* metadata := metadata_literal in
  alloc (OObj [("type", VStr NodeType.FunctionExpression);
               ("params", params);
               ("body", body);
               ("generator", VBool false);
               ("metadata", metadata)]).

(** [...alternate && { alternate }]: the spread operand is [alternate]
    itself when that is falsy, and the one-field literal otherwise. *)
Definition ifStatementNode (test consequent alternate : val) : M val :=
  let* operand :=
    (if truthy alternate
     then alloc (OObj [("alternate", alternate)])
     else ret alternate) in
  let* spread_props := spread operand in
  let* metadata := metadata_literal in
  alloc (OObj ([("type", VStr NodeType.IfStatement);
                ("test", test);
                ("consequent", consequent)]
               ++ spread_props
               ++ [("metadata", metadata)])).

Definition literalNode (value : literal_value) (raw : option string)
  : M val :=
  let raw := match raw with
             | Some r => r
             | None => "'" +:+ template_string value +:+ "'"
             end in
  let* verbatim := alloc (OObj [("content", VStr raw);
                                ("precedence", Precedence_Primary)]) in
  let* metadata := metadata_literal in
  alloc (OObj [("type", VStr NodeType.Literal);
               ("value", literal_val value);
               ("raw", VStr raw);
               ("x-verbatim-property", verbatim);
               ("metadata", metadata)]).

Definition logicalExpressionNode (operator : string) (left right : val)
  : M val :=
  let* metadata := metadata_literal in
  alloc (OObj [("type", VStr NodeType.LogicalExpression);
               ("operator", VStr operator);
               ("left", left);
               ("right", right);
               ("metadata", metadata)]).

Definition memberExpressionNode (object property : val)
    (computed : option bool) : M val :=
  let computed := default false computed in
  let* metadata := metadata_literal in
  alloc (OObj [("type", VStr NodeType.MemberExpression);
               ("computed", VBool computed);
               ("object", object);
               ("property", property);
               ("metadata", metadata)]).

Definition methodDefinitionNode (key value : val) (kind : string)
    (computed : bool) : M val :=
  let* metadata := metadata_literal in
  alloc (OObj [("type", VStr NodeType.MethodDefinition);
               ("key", key);
               ("value", value);
               ("kind", VStr kind);
               ("computed", VBool computed);
               ("static", VBool false);
               ("metadata", metadata)]).

Definition objectExpressionNode (properties : val) : M val :=
  let* metadata := metadata_literal in
  alloc (OObj [("type", VStr NodeType.ObjectExpression);
               ("properties", properties);
               ("metadata", metadata)]).

Definition propertyNode (key value : val) (computed : option bool)
  : M val :=
  let computed := default false computed in
  let* metadata := metadata_literal in
  alloc (OObj [("type", VStr NodeType.Property);
               ("key", key);
               ("value", value);
               ("kind", VStr "init");
               ("method", VBool false);
               ("shorthand", VBool false);
               ("computed", VBool computed);
               ("metadata", metadata)]).

Definition returnStatementNode (argument : val) : M val :=
  let* metadata := metadata_literal in
  alloc (OObj [("type", VStr NodeType.ReturnStatement);
               ("argument", argument);
               ("metadata", metadata)]).

Definition switchStatementNode (discriminant cases : val) : M val :=
  let* metadata := metadata_literal in
  alloc (OObj [("type", VStr NodeType.SwitchStatement);
               ("discriminant", discriminant);
               ("cases", cases);
               ("metadata", metadata)]).

Definition switchCaseNode (test consequent : val) : M val :=
  let* metadata := metadata_literal in
  alloc (OObj [("type", VStr NodeType.SwitchCase);
               ("test", test);
               ("consequent", consequent);
               ("metadata", metadata)]).

(** [prefix: true = true]: the parameter's type has the one value
    [true], which is also its default. *)
Definition unaryExpressionNode (operator : string) (argument : val)
  : M val :=
  let* metadata := metadata_literal in
  alloc (OObj [("type", VStr NodeType.UnaryExpression);
               ("operator", VStr operator);
               ("argument", argument);
               ("prefix", VBool true);
               ("metadata", metadata)]).

Definition updateExpressionNode (operator : string) (argumentExpr : val)
  : M val :=
  let* metadata := metadata_literal in
  alloc (OObj [("type", VStr NodeType.UpdateExpression);
               ("operator", VStr operator);
               ("argument", argumentExpr);
               ("prefix", VBool false);
               ("metadata", metadata)]).

Definition variableDeclarationNode (declarations : val)
    (kind : option declaration_kind) : M val :=
  let* declarations := or_empty_array declarations in
  let kind := default KindVar kind in
  let* metadata := metadata_literal in
  alloc (OObj [("type", VStr NodeType.VariableDeclaration);
               ("declarations", declarations);
               ("kind", VStr (declaration_kind_name kind));
               ("metadata", metadata)]).

Definition variableDeclaratorNode (id init : val) : M val :=
  let* metadata := metadata_literal in
  alloc (OObj [("type", VStr NodeType.VariableDeclarator);
               ("id", id);
               ("init", init);
               ("metadata", metadata)]).

Definition whileStatementNode (test body : val) : M val :=
  let* metadata := metadata_literal in
  alloc (OObj [("type", VStr NodeType.WhileStatement);
               ("test", test);
               ("body", body);
               ("metadata", metadata)]).

(** A call of one of the constructors, with its arguments. *)
Inductive factory_call :=
  | CallProgramNode (body : val)
  | CallArrayExpressionNode (elements : val)
  | CallAssignmentExpressionNode (operator : string) (left right : val)
  | CallBinaryExpressionNode (operator : string) (left right : val)
  | CallBlockStatementNode (body : val)
  | CallBreakStatement (label : val)
  | CallCallExpressionNode (callee args : val)
  | CallContinueStatement (label : val)
  | CallExpressionStatementNode (expression : val)
  | CallFunctionDeclarationNode (functionName : string) (params body : val)
  | CallFunctionExpressionNode (params body : val)
  | CallIfStatementNode (test consequent alternate : val)
  | CallIdentifierNode (name : string)
  | CallLiteralNode (value : literal_value) (raw : option string)
  | CallLogicalExpressionNode (operator : string) (left right : val)
  | CallMemberExpressionNode (object property : val) (computed : option bool)
  | CallMethodDefinitionNode (key value : val) (kind : string)
      (computed : bool)
  | CallObjectExpressionNode (properties : val)
  | CallPropertyNode (key value : val) (computed : option bool)
  | CallReturnStatementNode (argument : val)
  | CallSwitchStatementNode (discriminant cases : val)
  | CallSwitchCaseNode (test consequent : val)
  | CallUnaryExpressionNode (operator : string) (argument : val)
  | CallUpdateExpressionNode (operator : string) (argumentExpr : val)
  | CallVariableDeclarationNode (declarations : val)
      (kind : option declaration_kind)
  | CallVariableDeclaratorNode (id init : val)
  | CallWhileStatementNode (test body : val).

Definition run_call (c : factory_call) : M val :=
  match c with
  | CallProgramNode body => programNode body
  | CallArrayExpressionNode elements => arrayExpressionNode elements
  | CallAssignmentExpressionNode operator lhs rhs =>
      assignmentExpressionNode operator lhs rhs
  | CallBinaryExpressionNode operator lhs rhs =>
      binaryExpressionNode operator lhs rhs
  | CallBlockStatementNode body => blockStatementNode body
  | CallBreakStatement label => breakStatement label
  | CallCallExpressionNode callee args => callExpressionNode callee args
  | CallContinueStatement label => continueStatement label
  | CallExpressionStatementNode expression =>
      expressionStatementNode expression
  | CallFunctionDeclarationNode functionName params body =>
      functionDeclarationNode functionName params body
  | CallFunctionExpressionNode params body =>
      functionExpressionNode params body
  | CallIfStatementNode test consequent alternate =>
      ifStatementNode test consequent alternate
  | CallIdentifierNode name => identifierNode name
  | CallLiteralNode value raw => literalNode value raw
  | CallLogicalExpressionNode operator lhs rhs =>
      logicalExpressionNode operator lhs rhs
  | CallMemberExpressionNode object property computed =>
      memberExpressionNode object property computed
  | CallMethodDefinitionNode key value kind computed =>
      methodDefinitionNode key value kind computed
  | CallObjectExpressionNode properties => objectExpressionNode properties
  | CallPropertyNode key value computed => propertyNode key value computed
  | CallReturnStatementNode argument => returnStatementNode argument
  | CallSwitchStatementNode discriminant cases =>
      switchStatementNode discriminant cases
  | CallSwitchCaseNode test consequent => switchCaseNode test consequent
  | CallUnaryExpressionNode operator argument =>
      unaryExpressionNode operator argument
  | CallUpdateExpressionNode operator argumentExpr =>
      updateExpressionNode operator argumentExpr
  | CallVariableDeclarationNode declarations kind =>
      variableDeclarationNode declarations kind
  | CallVariableDeclaratorNode id init => variableDeclaratorNode id init
  | CallWhileStatementNode test body => whileStatementNode test body
  end.

Definition is_literal_call (c : factory_call) : bool :=
  match c with
  | CallLiteralNode _ _ => true
  | _ => false
  end.
End Factory.
End NodeFactory.

(** ** Collaborators of NodeUtils.ts *)

(** Modelled from the spec: the guards of [src/node/NodeGuards.ts], which
    is outside the given sources.  A node is a literal, or a unary
    expression, when its [type] tag says so (section 3: [kind] is the
    discriminant of the construct). *)
Module NodeGuards.
Definition has_type (t : string) (node : val) : M bool :=
  let* type := get node "type" in
  ret (match type with
       | VStr s => bool_decide (s = t)
       | _ => false
       end).

Definition isLiteralNode : val -> M bool := has_type NodeType.Literal.

Definition isUnaryExpressionNode : val -> M bool :=
  has_type NodeType.UnaryExpression.
End NodeGuards.

(** Modelled from the spec: [NodeMetadata.set] of
    [src/node/NodeMetadata.ts], which is outside the given sources
    (section 4.4, step 3: set [metadata] to the given record). *)
Module NodeMetadata.
Definition set (node metadata : val) : M unit :=
  set node "metadata" metadata.
End NodeMetadata.

(** [Array.isArray(v)] *)
Definition isArray (v : val) : M bool :=
  fun h => Ok (match v with
               | VRef l => match h !! l with
                           | Some (OArr _) => true
                           | _ => false
                           end
               | _ => false
               end) h.

(** [v instanceof RegExp] *)
Definition isRegExp (v : val) : M bool :=
  fun h => Ok (match v with
               | VRef l => match h !! l with
                           | Some (ORegExp _) => true
                           | _ => false
                           end
               | _ => false
               end) h.

(** The elements of an array, in order. *)
Definition array_elems (v : val) : M (list val) :=
  fun h => match v with
           | VRef l => match h !! l with
                       | Some (OArr es) => Ok es h
                       | _ => Throw TypeError
                       end
           | _ => Throw TypeError
           end.

(** [a.map(f)]: a new array of the results. *)
Definition array_map (f : val -> M val) (a : val) : M val :=
  let* es := array_elems a in
  let* rs := map_each f es in
  alloc (OArr rs).

(** Modelled from the spec: the external tree-walking engine
    ([estraverse.replace], section 6): [walk(tree, visit(node, parent))]
    visits the root with no parent ([null]) and then, in order, every
    child node with the node that directly holds it.  Which fields of a
    node hold children is the engine's table [VisitorKeys], by node type;
    a type the table does not know is an error of the engine.  A field
    holds a child node, or a sequence whose non-empty entries are child
    nodes; a node is an object with a string [type].  The visitor's result
    takes the place of the visited node; both visitors of NodeUtils return
    the visited node itself, so that putting it back changes nothing, and
    the model leaves the write out. *)
Module estraverse.
Section Engine.
Variable VisitorKeys : string -> option (list string).

Definition isNode (v : val) : M bool :=
  match v with
  | VRef _ =>
      let* type := get v "type" in
      ret (match type with VStr _ => true | _ => false end)
  | _ => ret false
  end.

Definition node_or_nothing (v : val) : M (list val) :=
  if truthy v
  then let* n := isNode v in ret (if n then [v] else [])
  else ret [].

(** The child nodes under one key. *)
Definition key_children (node : val) (key : string) : M (list val) :=
  let* candidate := get node key in
  if truthy candidate then
    let* arr := isArray candidate in
    if arr then
      let* es := array_elems candidate in
      let* ns := map_each node_or_nothing es in
      ret (concat ns)
    else node_or_nothing candidate
  else ret [].

(** The child nodes of a node, in visiting order. *)
Definition children (node : val) : M (list val) :=
  let* type := get node "type" in
  match type with
  | VStr t =>
      match VisitorKeys t with
      | Some keys =>
          let* cs := map_each (key_children node) keys in
          ret (concat cs)
      | None => throw (EngineError "Unknown node type")
      end
  | _ => throw (EngineError "Unknown node type")
  end.

Fixpoint visit (fuel : nat) (enter : val -> val -> M val)
    (node parent : val) : M unit :=
  match fuel with
  | 0 => fun _ => OutOfFuel
  | S fuel' =>
      let* target := enter node parent in
      if truthy target then
        let* cs := children target in
        forEach (fun c => visit fuel' enter c target) cs
      else ret tt
  end.

Definition replace (fuel : nat) (root : val) (enter : val -> val -> M val)
  : M unit :=
  visit fuel enter root VNull.
End Engine.
End estraverse.

(** The options of a call of the code generator that bear on the text
    it returns: [sourceMapWithCode], with which the result is a record
    whose [code] is the text, and [verbatim], the name of the field of
    the verbatim annotation, absent unless the caller gives it. *)
Record generate_options := {
  sourceMapWithCode : bool;
  verbatim : option string
}.

(** [{ sourceMapWithCode: true }], the options that
    [convertStructureToCode] gives. *)
Definition code_options : generate_options :=
  {| sourceMapWithCode := true; verbatim := None |}.

(** The options of a call that switches the verbatim extension on for
    the annotation field of this code. *)
Definition verbatim_options : generate_options :=
  {| sourceMapWithCode := true; verbatim := Some "x-verbatim-property" |}.

(** ** NodeUtils.ts *)

Module NodeUtils.
Section Utils.
(** [escodegen.Precedence.Primary] *)
Variable Precedence_Primary : val.
(** The child-key table of the tree-walking engine. *)
Variable VisitorKeys : string -> option (list string).
(** [espree.parse(code, { sourceType: 'script' })]: the external parser,
    which builds the raw program tree in the store or throws. *)
Variable espree_parse : string -> M val.
(** The text the external code generator derives for a node that has no
    verbatim annotation. *)
Variable generate_plain : val -> M string.

(** Modelled from the spec: the external code generator
    ([escodegen.generate(node, options)], section 6).  Its verbatim
    extension point is an option of the call: [verbatim] names the field
    that holds the annotation, and a node that has an annotation in that
    field is emitted as the annotation's content.  Any other text, and
    every text of a call that does not give the option, is the
    generator's own, derived from the node. *)
Definition escodegen_generate (options : generate_options) (node : val)
  : M string :=
  match verbatim options, node with
  | Some key, VRef _ =>
      let* annotation := get node key in
      match annotation with
      | VRef _ =>
          let* content := get annotation "content" in
          match content with
          | VStr s => ret s
          | _ => generate_plain node
          end
      | _ => generate_plain node
      end
  | _, _ => generate_plain node
  end.

Definition addXVerbatimPropertyTo (literalNode : val) : M val :=
  let* raw := get literalNode "raw" in
  let* verbatim := alloc (OObj [("content", raw);
                                ("precedence", Precedence_Primary)]) in
  set literalNode "x-verbatim-property" verbatim ;;;
  ret literalNode.

Definition parentizeNode (node parentNode : val) : M val :=
  set node "parentNode" (if truthy parentNode then parentNode else node) ;;;
  ret node.

Definition parentizeAst (fuel : nat) (astTree : val) : M val :=
  estraverse.replace VisitorKeys fuel astTree parentizeNode ;;;
  ret astTree.

(** The value that the copy gets for a field of value [value], where
    [cloneRecursive] is the recursive call. *)
Definition clonedValue (cloneRecursive : val -> M val) (value : val)
  : M val :=
  let* regexp := isRegExp value in
  if is_null value || regexp then ret value
  else
    let* array := isArray value in
    if array then array_map cloneRecursive value
    else if typeof_object value then cloneRecursive value
    else ret value.

Fixpoint cloneRecursive (fuel : nat) (node : val) : M val :=
  match node with
  | VNull => ret node
  | _ =>
      match fuel with
      | 0 => fun _ => OutOfFuel
      | S fuel' =>
          let* copy := alloc (OObj []) in
          let* keys := object_keys node in
          forEach (fun property =>
            if decide (property = "parentNode") then ret tt
            else
              let* value := get node property in
              let* cloned := clonedValue (cloneRecursive fuel') value in
              set copy property cloned) keys ;;;
          ret copy
      end
  end.

Definition clone (fuel : nat) (astTree : val) : M val :=
  let* copy := cloneRecursive fuel astTree in
  parentizeAst fuel copy.

(** The [enter] visitor of [convertCodeToStructure]. *)
Definition annotate (node parentNode : val) : M val :=
  parentizeNode node parentNode ;;;
  let* literal := NodeGuards.isLiteralNode node in
  (if literal then addXVerbatimPropertyTo node else ret node) ;;;
  let* metadata := alloc (OObj [("ignoredNode", VBool false)]) in
  NodeMetadata.set node metadata ;;;
  ret node.

Definition convertCodeToStructure (fuel : nat) (code : string) : M val :=
  let* structure := espree_parse code in
  estraverse.replace VisitorKeys fuel structure annotate ;;;
  get structure "body".

(** [structure.reduce((code, node) =>
      code + escodegen.generate(node, { sourceMapWithCode: true }).code,
    '')] *)
Fixpoint generate_all (code : string) (nodes : list val) : M string :=
  match nodes with
  | [] => ret code
  | node :: nodes' =>
      let* text := escodegen_generate code_options node in
      generate_all (code +:+ text) nodes'
  end.

Definition convertStructureToCode (structure : val) : M string :=
  let* nodes := array_elems structure in
  generate_all EmptyString nodes.

Fixpoint getUnaryExpressionArgumentNode (fuel : nat)
    (unaryExpressionNode : val) : M val :=
  match fuel with
  | 0 => fun _ => OutOfFuel
  | S fuel' =>
      let* argument := get unaryExpressionNode "argument" in
      let* unary := NodeGuards.isUnaryExpressionNode argument in
      if unary
      then getUnaryExpressionArgumentNode fuel' argument
      else ret argument
  end.
End Utils.
End NodeUtils.

(** ** Trees in the store *)

(** What a value looks like when read through the store with every
    [parentNode] field left out.  Objects and arrays appear by content
    only; a regular-expression value appears as the object it is. *)
Inductive shape :=
  | SUndef
  | SNull
  | SBool (b : bool)
  | SNum (n : float)
  | SStr (s : string)
  | SRegExp (l : loc)
  | SArr (es : list shape)
  | SObj (ps : list (string * shape)).

Fixpoint unfold_props (f : val -> option (shape * list loc))
    (ps : list (string * val)) : option (list (string * shape) * list loc) :=
  match ps with
  | [] => Some ([], [])
  | (k, v) :: ps' =>
      if decide (k = "parentNode") then unfold_props f ps'
      else
        match f v, unfold_props f ps' with
        | Some (s, ls), Some (ss, lss) => Some ((k, s) :: ss, ls ++ lss)
        | _, _ => None
        end
  end.

Fixpoint unfold_elems (f : val -> option (shape * list loc))
    (es : list val) : option (list shape * list loc) :=
  match es with
  | [] => Some ([], [])
  | e :: es' =>
      match f e, unfold_elems f es' with
      | Some (s, ls), Some (ss, lss) => Some (s :: ss, ls ++ lss)
      | _, _ => None
      end
  end.

(** [unfold fuel h v] reads [v] down to depth [fuel]: its shape, and the
    cells of the objects and arrays it is made of (regular expressions
    apart).  It has no result when the depth does not suffice, which is
    the case at every depth when the structure is cyclic through another
    field than [parentNode]. *)
Fixpoint unfold (fuel : nat) (h : heap) (v : val)
  : option (shape * list loc) :=
  match v with
  | VUndef => Some (SUndef, [])
  | VNull => Some (SNull, [])
  | VBool b => Some (SBool b, [])
  | VNum n => Some (SNum n, [])
  | VStr s => Some (SStr s, [])
  | VRef l =>
      match fuel with
      | 0 => None
      | S fuel' =>
          match h !! l with
          | Some (ORegExp _) => Some (SRegExp l, [])
          | Some (OArr es) =>
              match unfold_elems (unfold fuel' h) es with
              | Some (ss, ls) => Some (SArr ss, ls ++ [l])
              | None => None
              end
          | Some (OObj ps) =>
              match unfold_props (unfold fuel' h) ps with
              | Some (ss, ls) => Some (SObj ss, l :: ls)
              | None => None
              end
          | None => None
          end
      end
  end.

(** The values that are copied as they are: [undefined], booleans,
    numbers and strings. *)
Definition scalar (v : val) : bool :=
  match v with
  | VUndef | VBool _ | VNum _ | VStr _ => true
  | VNull | VRef _ => false
  end.

(** The copy rule of section 4.2, in its words: [copied h h' v v'] when
    [v'], in the store [h'], is a copy of the field value [v] of the
    store [h].  [null] and a regular expression are taken by reference; a
    sequence becomes a new sequence of the copies of its elements; a
    structured value becomes a new one with the copies of its fields, the
    parent link left out; a scalar is taken by value. *)
Inductive copied (h h' : heap) : val -> val -> Prop :=
  | copied_null : copied h h' VNull VNull
  | copied_regexp l source :
      h !! l = Some (ORegExp source) ->
      copied h h' (VRef l) (VRef l)
  | copied_sequence l l' es es' :
      h !! l = Some (OArr es) ->
      h !! l' = None ->
      h' !! l' = Some (OArr es') ->
      Forall2 (copied h h') es es' ->
      copied h h' (VRef l) (VRef l')
  | copied_structured l l' ps ps' :
      h !! l = Some (OObj ps) ->
      h !! l' = None ->
      h' !! l' = Some (OObj ps') ->
      Forall2 (fun kv kv' => kv.1 = kv'.1 /\ copied h h' kv.2 kv'.2)
        (filter (fun kv => kv.1 <> "parentNode") ps) ps' ->
      copied h h' (VRef l) (VRef l')
  | copied_scalar v :
      scalar v = true ->
      copied h h' v v.

(** The values on which the copy follows the copy rule: a structured
    value has each field once, and a sequence holds nodes or [null] (the
    hole of an array expression).  An element of another kind (a number,
    a string, a regular expression, a sequence) goes through the clone
    operation as a node would. *)
Fixpoint cloneable (s : shape) : bool :=
  match s with
  | SObj ps =>
      bool_decide (NoDup ps.*1)
      && forallb (fun kv =>
           match kv with
           | (_, SArr es) =>
               forallb (fun e => match e with
                                 | SNull => true
                                 | SObj _ => cloneable e
                                 | _ => false
                                 end) es
           | (_, v) => cloneable v
           end) ps
  | SArr _ => false
  | _ => true
  end.

(** What the clone operation is applied to: a node, or [null]. *)
Definition node_cloneable (s : shape) : bool :=
  match s with
  | SNull => true
  | SObj _ => cloneable s
  | _ => false
  end.

(** The value of a field of a node that the clone operation copies. *)
Definition field_cloneable (s : shape) : bool :=
  match s with
  | SArr es => forallb node_cloneable es
  | _ => cloneable s
  end.

Definition is_node_shape (s : shape) : bool :=
  match s with
  | SObj ps => match assoc "type" ps with
               | Some (SStr _) => true
               | _ => false
               end
  | _ => false
  end.

(** [n[k]] of the object in cell [n]. *)
Definition field (h : heap) (n : loc) (k : string) : val :=
  match h !! n with
  | Some (OObj ps) => default VUndef (assoc k ps)
  | _ => VUndef
  end.

Module Tree.
Section Tree.
Variable VisitorKeys : string -> option (list string).

(** Every node that the engine would visit has a type that the engine
    knows. *)
Fixpoint walkable (s : shape) : bool :=
  match s with
  | SObj ps =>
      match assoc "type" ps with
      | Some (SStr t) =>
          match VisitorKeys t with
          | Some keys =>
              forallb (fun kv =>
                match kv with
                | (k, v) =>
                    if bool_decide (k ∈ keys) then
                      match v with
                      | SArr es =>
                          forallb (fun e =>
                            if is_node_shape e then walkable e else true)
                            es
                      | _ => if is_node_shape v then walkable v else true
                      end
                    else true
                end) ps
          | None => false
          end
      | _ => false
      end
  | _ => false
  end.

(** The same, for the value of a child field. *)
Definition walk_field (s : shape) : bool :=
  match s with
  | SArr es => forallb (fun e => if is_node_shape e then walkable e
                                 else true) es
  | _ => if is_node_shape s then walkable s else true
  end.

(** A tree on which the clone is right, by its shape: the copy follows
    the copy rule, and the engine knows the type of every node. *)
Definition syntax_tree (s : shape) : bool := cloneable s && walkable s.

(** The visits of the engine's walk from [v], entered with parent [p]:
    each visited node with the parent it is visited with, in order. *)
Fixpoint visits (fuel : nat) (h : heap) (v p : val)
  : option (list (loc * val)) :=
  match fuel with
  | 0 => None
  | S fuel' =>
      match v, estraverse.children VisitorKeys v h with
      | VRef l, Ok cs _ =>
          pss ← mapM (fun c => visits fuel' h c v) cs;
          Some ((l, p) :: concat pss)
      | _, _ => None
      end
  end.

(** A tree in the store: the walk ends, and meets no node twice (each
    node has one owner, section 3). *)
Definition is_tree (fuel : nat) (h : heap) (r : loc) : Prop :=
  exists ps, visits fuel h (VRef r) VNull = Some ps /\ NoDup ps.*1.

(** [c] is a child node of the node [p]: [p] holds it in one of its
    child fields, directly or in a sequence. *)
Definition child_of (h : heap) (p c : loc) : Prop :=
  exists cs, estraverse.children VisitorKeys (VRef p) h = Ok cs h
             /\ VRef c ∈ cs.

(** The nodes of the tree of root [r]. *)
Definition reach (h : heap) (r n : loc) : Prop := rtc (child_of h) r n.

(** [n.parentNode] *)
Definition parent_of (h : heap) (n : loc) : val := field h n "parentNode".

End Tree.
End Tree.

(** The expression [!!!x], built by the factory: the identifier node and
    the outermost negation. *)
Definition triple_negation : M (loc * val) :=
  let* x := NodeFactory.identifierNode "x" in
  let* n1 := NodeFactory.unaryExpressionNode "!" x in
  let* n2 := NodeFactory.unaryExpressionNode "!" n1 in
  let* n3 := NodeFactory.unaryExpressionNode "!" n2 in
  ret (match x with VRef l => l | _ => 0 end, n3).

(** The chain of a unary expression: [unary_chain h u a] when [a] is the
    first argument that is not a unary expression, following the nested
    unary arguments of [u]. *)
Inductive unary_chain (h : heap) : val -> val -> Prop :=
  | unary_chain_end u a :
      get u "argument" h = Ok a h ->
      NodeGuards.isUnaryExpressionNode a h = Ok false h ->
      unary_chain h u a
  | unary_chain_next u a r :
      get u "argument" h = Ok a h ->
      NodeGuards.isUnaryExpressionNode a h = Ok true h ->
      unary_chain h a r ->
      unary_chain h u r.

(** ** Footprints *)

(** A computation that only reads the store. *)
Definition reads {A} (m : M A) : Prop :=
  forall h a h', m h = Ok a h' -> h' = h.

(** What a read gives in [h], it gives in [h']. *)
Definition carries {A} (h h' : heap) (m : M A) : Prop :=
  forall a, m h = Ok a h -> m h' = Ok a h'.

(** [o'] is [o] up to the fields named in [reserved]. *)
Definition kept (reserved : list string) (o o' : obj) : Prop :=
  match o, o' with
  | OObj ps, OObj ps' => forall k, k ∉ reserved -> assoc k ps' = assoc k ps
  | _, _ => o' = o
  end.

(** [h'] has every object of [h], up to the reserved fields. *)
Definition skel (reserved : list string) (h h' : heap) : Prop :=
  forall l o, h !! l = Some o -> exists o', h' !! l = Some o' /\ kept reserved o o'.

(** From [h] to [h'], only reserved fields of the object in cell [l] have
    changed, and objects may have been added. *)
Definition touch (reserved : list string) (l : loc) (h h' : heap) : Prop :=
  skel reserved h h'
  /\ forall x, x <> l -> x < length h -> h' !! x = h !! x.

(** The store after [o[k] = x] on the object in cell [l]. *)
Definition set_field (h : heap) (l : loc) (k : string) (x : val) : heap :=
  match h !! l with
  | Some (OObj ps) => <[l := OObj (set_assoc k x ps)]> h
  | _ => h
  end.

(** The store that a computation leaves. *)
Definition effect {A} (m : M A) (h : heap) : heap :=
  match m h with
  | Ok _ h' => h'
  | _ => h
  end.

(** The store after the visitor has entered each node of a list of
    visits, in order. *)
Definition run_visits (enter : val -> val -> M val)
    (h : heap) (ps : list (loc * val)) : heap :=
  foldl (fun h cq => effect (enter (VRef cq.1) cq.2) h) h ps.

(** No object stored from [h] on has a [parentNode] field. *)
Definition fresh_no_parent (h h' : heap) : Prop :=
  forall x ps, length h <= x -> h' !! x = Some (OObj ps) ->
               assoc "parentNode" ps = None.

(** [copy] copies, down to depth [n], every value whose shape [ok]
    accepts: the copy reads as the value does, it is made of the cells
    that the run has added, in the order of the reading, and no stored
    object is changed. *)
Definition copies (ok : shape -> bool) (copy : val -> M val) (n : nat)
  : Prop :=
  forall h v s ls,
    unfold n h v = Some (s, ls) -> ok s = true ->
    exists v' h',
      copy v h = Ok v' h'
      /\ h `prefix_of` h'
      /\ unfold n h' v' = Some (s, seq (length h) (length h' - length h))
      /\ fresh_no_parent h h'.

Definition is_obj (h : heap) (l : loc) : Prop :=
  exists ps, h !! l = Some (OObj ps).

(** [parentNode || node], for the node in cell [l] *)
Definition parent_for (l : loc) (q : val) : val :=
  if truthy q then q else VRef l.

Definition is_literal_type (type : val) : bool :=
  match type with
  | VStr s => bool_decide (s = NodeType.Literal)
  | _ => false
  end.

(** The store after the visitor of the text-to-nodes conversion has
    entered the node in cell [l] with parent [q]. *)
Definition annotated_store (Precedence_Primary : val) (h : heap) (l : loc)
    (q : val) : heap :=
  let h1 := set_field h l "parentNode" (parent_for l q) in
  let h2 :=
    if is_literal_type (field h l "type")
    then set_field
           (h1 ++ [OObj [("content", field h l "raw");
                         ("precedence", Precedence_Primary)]])
           l "x-verbatim-property" (VRef (length h1))
    else h1 in
  set_field (h2 ++ [OObj [("ignoredNode", VBool false)]])
    l "metadata" (VRef (length h2)).

(** ** A sample program *)

(** The child keys of the node types of [[!x, 0x1F];], as the engine's
    table has them. *)
Definition sample_keys_table : list (string * list string) :=
  [("ArrayExpression", ["elements"]);
   ("ExpressionStatement", ["expression"]);
   ("Identifier", []);
   ("Literal", []);
   ("Program", ["body"]);
   ("UnaryExpression", ["argument"])].

Definition sample_keys (t : string) : option (list string) :=
  assoc t sample_keys_table.

Definition sample_primary : val := VNum 19%float.

Definition sample_code : string := "[!x, 0x1F];".

(** A parser of one program: the tree of [sample_code], and a syntax
    error for any other text. *)
Definition sample_parse (code : string) : M val :=
  if decide (code = sample_code) then
    let* x := alloc (OObj [("type", VStr "Identifier"); ("name", VStr "x")]) in
    let* negation :=
      alloc (OObj [("type", VStr "UnaryExpression"); ("operator", VStr "!");
                   ("prefix", VBool true); ("argument", x)]) in
    let* literal :=
      alloc (OObj [("type", VStr "Literal"); ("value", VNum 31%float);
                   ("raw", VStr "0x1F")]) in
    let* elements := alloc (OArr [negation; literal]) in
    let* array :=
      alloc (OObj [("type", VStr "ArrayExpression");
                   ("elements", elements)]) in
    let* statement :=
      alloc (OObj [("type", VStr "ExpressionStatement");
                   ("expression", array)]) in
    let* body := alloc (OArr [statement]) in
    alloc (OObj [("type", VStr "Program"); ("body", body);
                 ("sourceType", VStr "script")])
  else throw (SyntaxError "Unexpected token").

(** The store after parsing [sample_code] in the empty store; the program
    node is in cell 7. *)
Definition sample_parsed : heap := effect (sample_parse sample_code) [].

Definition sample_root : loc := 7.

(** The store after the text-to-nodes conversion of [sample_code]. *)
Definition sample_store : heap :=
  effect (NodeUtils.convertCodeToStructure sample_primary sample_keys
            sample_parse 6 sample_code) [].

(** The converted program, as it reads, and its cells. *)
Definition sample_shape : shape :=
  Eval vm_compute in
    from_option fst SNull (unfold 8 sample_store (VRef sample_root)).

Definition sample_cells : list loc :=
  Eval vm_compute in
    from_option snd [] (unfold 8 sample_store (VRef sample_root)).

(** The outermost negation of [!!!x], in the store that the factory
    leaves, and the identifier. *)
Definition sample_negation_store : heap := effect triple_negation [].

Definition sample_negation : val := VRef 7.

Definition sample_identifier : val := VRef 1.

(** An identifier node with a source range, as a parser records it when
    it is asked for ranges: a sequence of two numbers. *)
Definition sample_ranged : heap :=
  [OArr [VNum 0%float; VNum 5%float];
   OObj [("type", VStr "Identifier"); ("name", VStr "x");
         ("range", VRef 0)]].

(** ** Nested unary expressions *)

(** The operand [argument] under the given prefix operators, outermost
    first, each level built by the factory: [unary_nest ["-"; "+"] x]
    builds [-+x]. *)
Fixpoint unary_nest (operators : list string) (argument : val) : M val :=
  match operators with
  | [] => ret argument
  | operator :: operators' =>
      let* inner := unary_nest operators' argument in
      NodeFactory.unaryExpressionNode operator inner
  end.

(** A copy operation that leaves what the store holds as it is: the
    store it returns extends the one it was given. *)
Definition grows (copy : val -> M val) : Prop :=
  forall v h v' h', copy v h = Ok v' h' -> h `prefix_of` h'.

(** ** More of the sample program *)

(** The parsed sample after the parent linker, and the visits of the
    walk from its root. *)
Definition sample_linked : heap :=
  effect (NodeUtils.parentizeAst sample_keys 6 (VRef sample_root))
    sample_parsed.

Definition sample_visits : list (loc * val) :=
  [(7, VNull); (5, VRef 7); (4, VRef 5); (1, VRef 4); (0, VRef 1);
   (2, VRef 4)].

(** A generator that writes the type of a node for its text, and fails
    on what has no type. *)
Definition sample_generate_plain (node : val) : M string :=
  let* type := get node "type" in
  match type with
  | VStr t => ret t
  | _ => throw (EngineError "Unknown node type")
  end.

(** The text of the one number of the sample. *)
Definition sample_number_text (n : float) : string := "31".

(** A generator that derives the text of a literal from its value,
    as a generator does that is not told of the annotation. *)
Definition sample_value_text (node : val) : M string :=
  let* value := get node "value" in
  match value with
  | VNum n => ret (sample_number_text n)
  | VStr s => ret s
  | VBool true => ret "true"
  | VBool false => ret "false"
  | _ => throw (EngineError "Unknown node type")
  end.

(** The store after [cloneRecursive] on the node with a range, and after
    [clone] on it. *)
Definition sample_ranged_copy : heap :=
  sample_ranged
  ++ [OObj [("type", VStr "Identifier"); ("name", VStr "x");
            ("range", VRef 5)];
      OObj []; OObj []; OArr [VRef 3; VRef 4]].

Definition sample_ranged_clone : heap :=
  sample_ranged
  ++ [OObj [("type", VStr "Identifier"); ("name", VStr "x");
            ("range", VRef 5); ("parentNode", VRef 2)];
      OObj []; OObj []; OArr [VRef 3; VRef 4]].

(** The converted sample with four sequences on top, in cells 15 to 18:
    the literal, the negation, both, and the literal with a metadata
    record, which is no node. *)
Definition sample_sequences : heap :=
  sample_store
  ++ [OArr [VRef 2]; OArr [VRef 1]; OArr [VRef 2; VRef 1];
      OArr [VRef 2; VRef 8]].

(** * Properties *)

(** ** The store *)

Lemma lookup_alloc (h : heap) (o : obj) : (h ++ [o]) !! length h = Some o.
Proof. by apply list_lookup_middle. Qed.

Lemma lookup_alloc_old (h : heap) (o x : obj) (l : loc) :
  h !! l = Some x -> (h ++ [o]) !! l = Some x.
Proof. intros H. by apply lookup_app_l_Some. Qed.

Lemma lookup_fresh (h : heap) : h !! length h = None.
Proof. by apply lookup_ge_None. Qed.

Lemma bind_Ok {A B} (m : M A) (f : A -> M B) (h h' : heap) (a : A) :
  m h = Ok a h' -> bind m f h = f a h'.
Proof. unfold bind. by intros ->. Qed.

Lemma bind_bind {A B C} (m : M A) (f : A -> M B) (g : B -> M C) (h : heap) :
  bind (bind m f) g h = bind m (fun x => bind (f x) g) h.
Proof. unfold bind. by destruct (m h). Qed.

Lemma bind_ret {A B} (a : A) (f : A -> M B) (h : heap) :
  bind (ret a) f h = f a h.
Proof. done. Qed.

Lemma bind_alloc {B} (o : obj) (f : val -> M B) (h : heap) :
  bind (alloc o) f h = f (VRef (length h)) (h ++ [o]).
Proof. done. Qed.

(** Bring a sequence of steps in the form where the first step is on
    top. *)
Ltac norm := repeat first [ rewrite bind_bind | rewrite bind_ret ].

Lemma get_cell (h : heap) (l : loc) (ps : list (string * val)) (k : string) :
  h !! l = Some (OObj ps) ->
  get (VRef l) k h = Ok (default VUndef (assoc k ps)) h.
Proof. unfold get, own_props. by intros ->. Qed.

Lemma set_cell (h : heap) (l : loc) (ps : list (string * val)) (k : string)
    (x : val) :
  h !! l = Some (OObj ps) ->
  set (VRef l) k x h = Ok tt (<[l := OObj (set_assoc k x ps)]> h).
Proof. unfold set. by intros ->. Qed.

Lemma assoc_nil {A} (k : string) : assoc k (@nil (string * A)) = None.
Proof. done. Qed.

Lemma assoc_cons_eq {A} (k : string) (v : A) (ps : list (string * A)) :
  assoc k ((k, v) :: ps) = Some v.
Proof. simpl. by rewrite decide_True. Qed.

Lemma assoc_cons_ne {A} (k k' : string) (v : A) (ps : list (string * A)) :
  k' <> k -> assoc k ((k', v) :: ps) = assoc k ps.
Proof. intros. simpl. by rewrite decide_False. Qed.

(** Evaluate a lookup in a property list that is given in full. *)
Ltac eval_assoc :=
  repeat first [ rewrite assoc_cons_eq
               | rewrite assoc_cons_ne by discriminate
               | rewrite assoc_nil ];
  cbn [default from_option id].

Lemma elem_of_concat {A} (x : A) (ls : list (list A)) :
  x ∈ concat ls <-> exists l, x ∈ l /\ l ∈ ls.
Proof.
  rewrite list_elem_of_In, in_concat. split.
  - intros (l & ? & ?). exists l. by rewrite !list_elem_of_In.
  - intros (l & ? & ?). exists l. by rewrite <- !list_elem_of_In.
Qed.

Lemma falsy_spreads_nothing (h : heap) (v : val) :
  truthy v = false -> default [] (own_props h v) = [].
Proof.
  destruct v as [| |b|n|s|l]; simpl; try done.
  by destruct s.
Qed.

(** ** NodeFactory *)

Module NodeFactoryProofs.
Section Proofs.
Variable Precedence_Primary : val.
Variable Number_toString : float -> string.

Variable generate_plain : val -> M string.

Local Abbreviation run_call :=
  (NodeFactory.run_call Precedence_Primary Number_toString).
Local Abbreviation literalNode :=
  (NodeFactory.literalNode Precedence_Primary Number_toString).

Local Ltac run :=
  unfold NodeFactory.run_call, NodeFactory.programNode,
    NodeFactory.arrayExpressionNode, NodeFactory.assignmentExpressionNode,
    NodeFactory.binaryExpressionNode, NodeFactory.blockStatementNode,
    NodeFactory.breakStatement, NodeFactory.callExpressionNode,
    NodeFactory.continueStatement, NodeFactory.expressionStatementNode,
    NodeFactory.functionDeclarationNode, NodeFactory.functionExpressionNode,
    NodeFactory.ifStatementNode, NodeFactory.identifierNode,
    NodeFactory.literalNode, NodeFactory.logicalExpressionNode,
    NodeFactory.memberExpressionNode, NodeFactory.methodDefinitionNode,
    NodeFactory.objectExpressionNode, NodeFactory.propertyNode,
    NodeFactory.returnStatementNode, NodeFactory.switchStatementNode,
    NodeFactory.switchCaseNode, NodeFactory.unaryExpressionNode,
    NodeFactory.updateExpressionNode, NodeFactory.variableDeclarationNode,
    NodeFactory.variableDeclaratorNode, NodeFactory.whileStatementNode,
    NodeFactory.metadata_literal, NodeFactory.or_empty_array,
    NodeFactory.spread, bind, ret, alloc;
  cbn [is_null].

(** The node is the last object stored, and its metadata the one
    before. *)
Local Ltac last_two :=
  eexists _, _, _, _; split; [reflexivity|];
  split; [apply lookup_alloc|];
  split; [reflexivity|];
  split; [apply lookup_alloc_old, lookup_alloc|];
  split; [reflexivity|];
  try (intros [=]).

(** C5.  Whatever constructor of the factory is called, and with
    whatever arguments, it returns a new node whose [metadata] is
    [{ ignoredNode: false }] and which has no [parentNode] field; the
    node of the Literal constructor also has a verbatim annotation, an
    object with a string [content]. *)
Theorem factory_node_complete (c : NodeFactory.factory_call) (h : heap) :
  exists l ps m h',
    run_call c h = Ok (VRef l) h'
    /\ h' !! l = Some (OObj ps)
    /\ assoc "metadata" ps = Some (VRef m)
    /\ h' !! m = Some (OObj [("ignoredNode", VBool false)])
    /\ assoc "parentNode" ps = None
    /\ (NodeFactory.is_literal_call c = true ->
        exists a content,
          assoc "x-verbatim-property" ps = Some (VRef a)
          /\ h' !! a = Some (OObj [("content", VStr content);
                                   ("precedence", Precedence_Primary)])).
Proof.
  destruct c; run.
  all: try (destruct body; last_two; fail).
  all: try (destruct elements; last_two; fail).
  all: try (destruct args; last_two; fail).
  all: try (destruct declarations; last_two; fail).
  all: try (last_two; fail).
  - (* ifStatementNode *)
    destruct (truthy alternate) eqn:Halt.
    + unfold own_props. rewrite lookup_alloc. last_two.
    + rewrite falsy_spreads_nothing by done. last_two.
  - (* literalNode *)
    eexists _, _, _, _; split; [reflexivity|].
    split; [apply lookup_alloc|].
    split; [reflexivity|].
    split; [apply lookup_alloc_old, lookup_alloc|].
    split; [reflexivity|].
    intros _. eexists _, _. split; [reflexivity|].
    apply lookup_alloc_old, lookup_alloc_old, lookup_alloc.
Qed.


(** C7.  The defaults of the optional fields: the if-statement node has
    no [alternate] field when none is given and has the given one
    otherwise; the declaration kind is ['var'], the variant with the
    least block scoping, when none is given; [computed] is [false] for a
    member expression and for a property when none is given.  A kind or
    a [computed] flag that is given is the one the node has. *)
Theorem factory_defaults :
  (forall test consequent h,
      exists l ps h',
        NodeFactory.ifStatementNode test consequent VUndef h
        = Ok (VRef l) h'
        /\ h' !! l = Some (OObj ps)
        /\ assoc "alternate" ps = None)
  /\ (forall test consequent a h,
        exists l ps h',
          NodeFactory.ifStatementNode test consequent (VRef a) h
          = Ok (VRef l) h'
          /\ h' !! l = Some (OObj ps)
          /\ assoc "alternate" ps = Some (VRef a))
  /\ (forall declarations h,
        exists l ps h',
          NodeFactory.variableDeclarationNode declarations None h
          = Ok (VRef l) h'
          /\ h' !! l = Some (OObj ps)
          /\ assoc "kind" ps = Some (VStr "var"))
  /\ (forall object property h,
        exists l ps h',
          NodeFactory.memberExpressionNode object property None h
          = Ok (VRef l) h'
          /\ h' !! l = Some (OObj ps)
          /\ assoc "computed" ps = Some (VBool false))
  /\ (forall key value h,
        exists l ps h',
          NodeFactory.propertyNode key value None h = Ok (VRef l) h'
          /\ h' !! l = Some (OObj ps)
          /\ assoc "computed" ps = Some (VBool false))
  /\ (forall declarations kind h,
        exists l ps h',
          NodeFactory.variableDeclarationNode declarations (Some kind) h
          = Ok (VRef l) h'
          /\ h' !! l = Some (OObj ps)
          /\ assoc "kind" ps = Some (VStr (declaration_kind_name kind)))
  /\ (forall object property computed h,
        exists l ps h',
          NodeFactory.memberExpressionNode object property (Some computed) h
          = Ok (VRef l) h'
          /\ h' !! l = Some (OObj ps)
          /\ assoc "computed" ps = Some (VBool computed))
  /\ (forall key value computed h,
        exists l ps h',
          NodeFactory.propertyNode key value (Some computed) h
          = Ok (VRef l) h'
          /\ h' !! l = Some (OObj ps)
          /\ assoc "computed" ps = Some (VBool computed)).
Proof.
  repeat split; intros.
  - run. cbn [truthy own_props default app].
    eexists _, _, _. split; [reflexivity|].
    split; [apply lookup_alloc|reflexivity].
  - run. cbn [truthy]. unfold own_props. rewrite lookup_alloc.
    cbn [default app].
    eexists _, _, _. split; [reflexivity|].
    split; [apply lookup_alloc|reflexivity].
  - run. destruct declarations;
      (eexists _, _, _; split; [reflexivity|];
       split; [apply lookup_alloc|reflexivity]).
  - run. eexists _, _, _. split; [reflexivity|].
    split; [apply lookup_alloc|reflexivity].
  - run. eexists _, _, _. split; [reflexivity|].
    split; [apply lookup_alloc|reflexivity].
  - run. destruct declarations;
      (eexists _, _, _; split; [reflexivity|];
       split; [apply lookup_alloc|reflexivity]).
  - run. eexists _, _, _. split; [reflexivity|].
    split; [apply lookup_alloc|reflexivity].
  - run. eexists _, _, _. split; [reflexivity|].
    split; [apply lookup_alloc|reflexivity].
Qed.
End Proofs.
End NodeFactoryProofs.

(** ** NodeUtils: the unary chain and the parser's failure *)

(** Decide an equality of two given strings. *)
Ltac eval_guard :=
  first [ rewrite bool_decide_eq_true_2 by reflexivity
        | rewrite bool_decide_eq_false_2 by (vm_compute; discriminate) ].

(** Find a cell among the objects stored last. *)
Ltac find_cell :=
  repeat first [ apply lookup_alloc | apply lookup_alloc_old ].

Module NodeUtilsProofs.

Lemma has_type_cell (t : string) (h : heap) (l : loc)
    (ps : list (string * val)) :
  h !! l = Some (OObj ps) ->
  NodeGuards.has_type t (VRef l) h
  = Ok (match default VUndef (assoc "type" ps) with
        | VStr s => bool_decide (s = t)
        | _ => false
        end) h.
Proof.
  intros H. unfold NodeGuards.has_type.
  by rewrite (bind_Ok _ _ _ _ _ (get_cell _ _ _ _ H)).
Qed.

Lemma unary_chain_fuel (h : heap) (u r : val) :
  unary_chain h u r ->
  exists fuel, forall fuel', fuel <= fuel' ->
    NodeUtils.getUnaryExpressionArgumentNode fuel' u h = Ok r h.
Proof.
  induction 1 as [u a Ha Hu|u a r Ha Hu _ [fuel IH]].
  - exists 1. intros [|fuel'] ?; [lia|]. simpl.
    rewrite (bind_Ok _ _ _ _ _ Ha), (bind_Ok _ _ _ _ _ Hu). done.
  - exists (S fuel). intros [|fuel'] ?; [lia|]. simpl.
    rewrite (bind_Ok _ _ _ _ _ Ha), (bind_Ok _ _ _ _ _ Hu).
    apply IH. lia.
Qed.

Lemma unary_chain_result (h : heap) (u r : val) :
  unary_chain h u r -> NodeGuards.isUnaryExpressionNode r h = Ok false h.
Proof. by induction 1. Qed.

(** C9.  When the chain of unary arguments under a unary expression [u]
    ends, at its first argument [r] that is not a unary expression, the
    unwrapper returns [r] once it is given enough depth; [r] is not a
    unary expression and the store is left as it was.  For [!!!x], built
    by the factory in any store, it returns the identifier node of
    [x]. *)
Theorem unary_argument_unwrapped (h : heap) (u r : val)
    (Hchain : unary_chain h u r) :
  (exists fuel, forall fuel', fuel <= fuel' ->
      NodeUtils.getUnaryExpressionArgumentNode fuel' u h = Ok r h)
  /\ NodeGuards.isUnaryExpressionNode r h = Ok false h
  /\ (forall h0, exists x n h1,
        triple_negation h0 = Ok (x, n) h1
        /\ NodeUtils.getUnaryExpressionArgumentNode 3 n h1
           = Ok (VRef x) h1
        /\ field h1 x "type" = VStr NodeType.Identifier
        /\ field h1 x "name" = VStr "x").
Proof.
  split; [by apply unary_chain_fuel|].
  split; [by eapply unary_chain_result|].
  intros h0. unfold triple_negation, NodeFactory.unaryExpressionNode,
    NodeFactory.identifierNode, NodeFactory.metadata_literal, bind, ret,
    alloc.
  eexists _, _, _. split; [reflexivity|].
  split.
  - cbn [NodeUtils.getUnaryExpressionArgumentNode].
    unfold NodeGuards.isUnaryExpressionNode.
    repeat (erewrite bind_Ok by (apply get_cell; find_cell);
            eval_assoc;
            erewrite bind_Ok by (apply has_type_cell; find_cell);
            eval_assoc; eval_guard).
    reflexivity.
  - unfold field. split.
    + erewrite lookup_alloc_old by find_cell. by eval_assoc.
    + erewrite lookup_alloc_old by find_cell. by eval_assoc.
Qed.

End NodeUtilsProofs.

(** ** Reading the store *)

Lemma reads_ret {A} (a : A) : reads (ret a).
Proof. by intros h b h' [= _ ->]. Qed.

Lemma reads_bind {A B} (m : M A) (f : A -> M B) :
  reads m -> (forall a, reads (f a)) -> reads (bind m f).
Proof.
  intros Hm Hf h b h'. unfold bind.
  destruct (m h) as [a h1| |] eqn:E; [|done..].
  apply Hm in E as ->. apply Hf.
Qed.

Lemma carries_ret {A} (h h' : heap) (a : A) : carries h h' (ret a).
Proof. by intros b [= ->]. Qed.

Lemma carries_bind {A B} (h h' : heap) (m : M A) (f : A -> M B) :
  reads m -> carries h h' m -> (forall a, carries h h' (f a)) ->
  carries h h' (bind m f).
Proof.
  intros Hr Hm Hf b. unfold bind.
  destruct (m h) as [a h1| |] eqn:E; [|done..].
  pose proof (Hr _ _ _ E) as ->. rewrite (Hm _ E). apply Hf.
Qed.

Lemma reads_map_each {A B} (f : A -> M B) (xs : list A) :
  (forall x, reads (f x)) -> reads (map_each f xs).
Proof.
  intros Hf. induction xs as [|x xs IH]; simpl; [apply reads_ret|].
  apply reads_bind; [done|]. intros y.
  apply reads_bind; [done|]. intros ys. apply reads_ret.
Qed.

Lemma carries_map_each {A B} (h h' : heap) (f : A -> M B) (xs : list A) :
  (forall x, reads (f x)) -> (forall x, carries h h' (f x)) ->
  carries h h' (map_each f xs).
Proof.
  intros Hr Hf. induction xs as [|x xs IH]; simpl; [apply carries_ret|].
  apply carries_bind; [done..|]. intros y.
  apply carries_bind; [by apply reads_map_each|done|].
  intros ys. apply carries_ret.
Qed.

Lemma reads_get (v : val) (k : string) : reads (get v k).
Proof. intros h a h'. unfold get. by destruct (own_props h v); intros [= _ ->]. Qed.

Lemma reads_isArray (v : val) : reads (isArray v).
Proof. by intros h a h' [= _ ->]. Qed.

Lemma reads_isRegExp (v : val) : reads (isRegExp v).
Proof. by intros h a h' [= _ ->]. Qed.

Lemma reads_array_elems (v : val) : reads (array_elems v).
Proof.
  intros h a h'. unfold array_elems.
  destruct v as [| | | | |l]; try done.
  destruct (h !! l) as [[]|]; try done. by intros [= _ ->].
Qed.

Lemma reads_has_type (t : string) (v : val) : reads (NodeGuards.has_type t v).
Proof.
  apply reads_bind; [apply reads_get|]. intros a. apply reads_ret.
Qed.

(** An index is no field name of a node. *)
Lemma pretty_N_go_not_type (x : N) (s : string) :
  (forall r, s <> String "t"%char r) ->
  forall r, pretty_N_go x s <> String "t"%char r.
Proof.
  revert s. induction (N.lt_wf_0 x) as [x _ IH]; intros s Hs r.
  assert (x = 0 \/ 0 < x)%N as [->|?] by lia.
  - rewrite pretty_N_go_0. apply Hs.
  - rewrite pretty_N_go_step by done. apply IH.
    { by apply N.div_lt. }
    intros r'. unfold pretty_N_char. by repeat case_match.
Qed.

Lemma index_key_not_type (i : nat) : index_key i <> "type".
Proof.
  unfold index_key, pretty, pretty_nat, pretty, pretty_N.
  case_decide; [done|]. by apply pretty_N_go_not_type.
Qed.

Lemma assoc_index_type {A} (es : list A) (j : nat) :
  assoc "type" (imap (fun i e => (index_key (j + i), e)) es) = None.
Proof.
  revert j. induction es as [|e es IH]; intros j; [done|].
  simpl. rewrite decide_False by apply index_key_not_type.
  rewrite <- (IH (S j)). f_equal. apply imap_ext. intros i x _. simpl.
  f_equal. f_equal. lia.
Qed.

Lemma assoc_elems_type {A} (es : list A) :
  assoc "type" (imap (fun i e => (index_key i, e)) es) = None.
Proof. apply (assoc_index_type es 0). Qed.

(** ** The walk of the engine *)

Module WalkProofs.
Section Walk.
Variable VisitorKeys : string -> option (list string).
Variable reserved : list string.
Hypothesis child_keys_kept :
  forall t keys k, VisitorKeys t = Some keys -> k ∈ keys -> k ∉ reserved.
Hypothesis type_kept : "type" ∉ reserved.

Local Abbreviation skel := (skel reserved).
Local Abbreviation touch := (touch reserved).
Local Abbreviation children := (estraverse.children VisitorKeys).
Local Abbreviation visits := (Tree.visits VisitorKeys).
Local Abbreviation visit := (estraverse.visit VisitorKeys).

Lemma kept_refl (o : obj) : kept reserved o o.
Proof. by destruct o. Qed.

Lemma kept_trans (o1 o2 o3 : obj) :
  kept reserved o1 o2 -> kept reserved o2 o3 -> kept reserved o1 o3.
Proof.
  destruct o1, o2, o3; simpl; try congruence.
  intros H1 H2 k Hk. by rewrite H2, H1.
Qed.

Lemma skel_refl (h : heap) : skel h h.
Proof. intros l o H. eauto using kept_refl. Qed.

Lemma skel_trans (h1 h2 h3 : heap) : skel h1 h2 -> skel h2 h3 -> skel h1 h3.
Proof.
  intros H1 H2 l o Hl.
  destruct (H1 _ _ Hl) as (o2 & Hl2 & K1).
  destruct (H2 _ _ Hl2) as (o3 & Hl3 & K2).
  eauto using kept_trans.
Qed.

Lemma skel_length (h h' : heap) : skel h h' -> length h <= length h'.
Proof.
  intros H. destruct (decide (length h <= length h')) as [|Hn]; [done|].
  destruct (lookup_lt_is_Some_2 h (length h')) as [o Ho]; [lia|].
  destruct (H _ _ Ho) as (o' & Ho' & _).
  apply lookup_lt_Some in Ho'. lia.
Qed.

Lemma skel_is_obj (h h' : heap) (l : loc) :
  skel h h' -> is_obj h l -> is_obj h' l.
Proof.
  intros H [ps Hl]. destruct (H _ _ Hl) as ([ps'| |] & Hl' & K); try done.
  by exists ps'.
Qed.

Lemma touch_skel (l : loc) (h h' : heap) : touch l h h' -> skel h h'.
Proof. by intros [? _]. Qed.

Lemma skel_own_props (h h' : heap) (v : val) (ps : list (string * val)) :
  skel h h' -> own_props h v = Some ps ->
  exists ps', own_props h' v = Some ps'
              /\ forall k, k ∉ reserved -> assoc k ps' = assoc k ps.
Proof.
  intros H. destruct v as [| | | | |l]; simpl; try (intros [= <-]; eauto).
  destruct (h !! l) as [o|] eqn:Hl; [|done].
  destruct (H _ _ Hl) as (o' & Hl' & K). setoid_rewrite Hl'.
  destruct o as [qs|es|src], o' as [qs'|es'|src'];
    simpl in K; try discriminate; intros [= <-]; eauto.
  - injection K as ->. eauto.
Qed.

Lemma carries_get (h h' : heap) (v : val) (k : string) :
  skel h h' -> k ∉ reserved -> carries h h' (get v k).
Proof.
  intros H Hk a. unfold get.
  destruct (own_props h v) as [ps|] eqn:E; [|done].
  destruct (skel_own_props _ _ _ _ H E) as (ps' & -> & K).
  rewrite K by done. by intros [= ->].
Qed.

Lemma reads_isNode (v : val) : reads (estraverse.isNode v).
Proof.
  destruct v; try apply reads_ret.
  apply reads_bind; [apply reads_get|]. intros a. apply reads_ret.
Qed.

Lemma carries_isNode (h h' : heap) (v : val) :
  skel h h' -> carries h h' (estraverse.isNode v).
Proof.
  intros H. destruct v; try apply carries_ret.
  apply carries_bind; [apply reads_get|by apply carries_get|].
  intros a. apply carries_ret.
Qed.

Lemma reads_node_or_nothing (v : val) :
  reads (estraverse.node_or_nothing v).
Proof.
  unfold estraverse.node_or_nothing. destruct (truthy v); [|apply reads_ret].
  apply reads_bind; [apply reads_isNode|]. intros a. apply reads_ret.
Qed.

Lemma carries_node_or_nothing (h h' : heap) (v : val) :
  skel h h' -> carries h h' (estraverse.node_or_nothing v).
Proof.
  intros H. unfold estraverse.node_or_nothing.
  destruct (truthy v); [|apply carries_ret].
  apply carries_bind; [apply reads_isNode|by apply carries_isNode|].
  intros a. apply carries_ret.
Qed.

Lemma carries_array_elems (h h' : heap) (v : val) :
  skel h h' -> carries h h' (array_elems v).
Proof.
  intros H a. unfold array_elems. destruct v as [| | | | |l]; try done.
  destruct (h !! l) as [o|] eqn:Hl; [|done].
  destruct (H _ _ Hl) as (o' & Hl' & K). rewrite Hl'.
  destruct o as [qs|es|src]; try done.
  destruct o'; simpl in K; try discriminate. injection K as ->.
  by intros [= ->].
Qed.

Lemma reads_key_children (node : val) (key : string) :
  reads (estraverse.key_children node key).
Proof.
  apply reads_bind; [apply reads_get|]. intros candidate.
  destruct (truthy candidate); [|apply reads_ret].
  apply reads_bind; [apply reads_isArray|]. intros arr.
  destruct arr; [|apply reads_node_or_nothing].
  apply reads_bind; [apply reads_array_elems|]. intros es.
  apply reads_bind; [|intros; apply reads_ret].
  apply reads_map_each. apply reads_node_or_nothing.
Qed.

Lemma carries_key_children (h h' : heap) (node : val) (key : string) :
  skel h h' -> key ∉ reserved ->
  carries h h' (estraverse.key_children node key).
Proof.
  intros H Hk.
  apply carries_bind; [apply reads_get|by apply carries_get|].
  intros candidate. destruct (truthy candidate); [|apply carries_ret].
  assert (carries h h'
            (let* es := array_elems candidate in
             let* ns := map_each estraverse.node_or_nothing es in
             ret (concat ns))) as Harr.
  { apply carries_bind;
      [apply reads_array_elems|by apply carries_array_elems|].
    intros es. apply carries_bind; [| |intros; apply carries_ret].
    - apply reads_map_each, reads_node_or_nothing.
    - apply carries_map_each; [apply reads_node_or_nothing|].
      intros x. by apply carries_node_or_nothing. }
  pose proof (carries_node_or_nothing _ _ candidate H) as Hnode.
  intros a Hrun.
  erewrite bind_Ok in Hrun by reflexivity.
  erewrite bind_Ok by reflexivity.
  destruct candidate as [| | | | |c]; try by apply Hnode.
  destruct (h !! c) as [o|] eqn:Hc.
  - destruct (H _ _ Hc) as (o' & Hc' & K). rewrite Hc'.
    destruct o as [qs|es|src], o'; simpl in K; try discriminate;
      try by apply Hnode.
    by apply Harr.
  - exfalso. revert Hrun.
    unfold estraverse.node_or_nothing, estraverse.isNode, bind, get.
    simpl. by rewrite Hc.
Qed.

Lemma reads_children (node : val) : reads (children node).
Proof.
  apply reads_bind; [apply reads_get|]. intros type.
  destruct type; try done.
  destruct (VisitorKeys s); [|done].
  apply reads_bind; [|intros; apply reads_ret].
  apply reads_map_each. intros. apply reads_key_children.
Qed.

Lemma carries_children (h h' : heap) (node : val) :
  skel h h' -> carries h h' (children node).
Proof.
  intros H.
  apply carries_bind; [apply reads_get|by apply carries_get|].
  intros type. destruct type as [| | | |t|]; try done.
  destruct (VisitorKeys t) as [keys|] eqn:Ht; [|done].
  apply carries_bind; [| |intros; apply carries_ret].
  - apply reads_map_each. intros. apply reads_key_children.
  - assert (Forall (fun k => k ∉ reserved) keys) as Hall.
    { apply Forall_forall. eauto. }
    clear Ht. induction Hall as [|k keys Hk Hall IH]; [apply carries_ret|].
    simpl. apply carries_bind;
      [apply reads_key_children|by apply carries_key_children|].
    intros cs. apply carries_bind; [| |intros; apply carries_ret].
    + apply reads_map_each. intros. apply reads_key_children.
    + done.
Qed.

Lemma children_is_obj (l : loc) (h h0 : heap) (cs : list val) :
  children (VRef l) h = Ok cs h0 -> is_obj h l.
Proof.
  unfold estraverse.children, bind, get, own_props, is_obj.
  destruct (h !! l) as [[ps|es|src]|]; [by eauto| | |]; try done.
  by rewrite assoc_elems_type.
Qed.

Lemma visits_S (n : nat) (h : heap) (v p : val) (ps : list (loc * val)) :
  visits (S n) h v p = Some ps ->
  exists l cs pss,
    v = VRef l
    /\ children v h = Ok cs h
    /\ Forall2 (fun c psc => visits n h c v = Some psc) cs pss
    /\ ps = (l, p) :: concat pss.
Proof.
  simpl. destruct v as [| | | | |l]; try done.
  destruct (children (VRef l) h) as [cs h0| |] eqn:E; try done.
  pose proof (reads_children _ _ _ _ E) as ->.
  destruct (mapM _ cs) as [pss|] eqn:Hm; [|done].
  intros [= <-]. apply mapM_Some in Hm. eauto 10.
Qed.

Lemma visits_S_intro (n : nat) (h : heap) (l : loc) (p : val)
    (cs : list val) (pss : list (list (loc * val))) :
  children (VRef l) h = Ok cs h ->
  Forall2 (fun c psc => visits n h c (VRef l) = Some psc) cs pss ->
  visits (S n) h (VRef l) p = Some ((l, p) :: concat pss).
Proof.
  intros E Hm. simpl. rewrite E. apply mapM_Some in Hm. by rewrite Hm.
Qed.

Lemma skel_visits (n : nat) (h h' : heap) (v p : val)
    (ps : list (loc * val)) :
  skel h h' -> visits n h v p = Some ps -> visits n h' v p = Some ps.
Proof.
  intros H. revert v p ps. induction n as [|n IH]; intros v p ps; [done|].
  intros (l & cs & pss & -> & E & Hm & ->)%visits_S.
  apply visits_S_intro with (cs := cs).
  - by apply (carries_children _ _ _ H).
  - eapply Forall2_impl; [done|]. intros c psc. apply IH.
Qed.

Lemma visits_is_obj (n : nat) (h : heap) (v p : val)
    (ps : list (loc * val)) :
  visits n h v p = Some ps -> Forall (fun cq => is_obj h cq.1) ps.
Proof.
  revert v p ps. induction n as [|n IH]; intros v p ps; [done|].
  intros (l & cs & pss & -> & E & Hm & ->)%visits_S.
  constructor; [by eapply children_is_obj|].
  apply Forall_concat. clear E. induction Hm; constructor; eauto.
Qed.

Lemma visits_head (n : nat) (h : heap) (l : loc) (p : val)
    (ps : list (loc * val)) :
  visits n h (VRef l) p = Some ps -> exists ps', ps = (l, p) :: ps'.
Proof.
  destruct n; [done|].
  intros (l' & cs & pss & [= <-] & _ & _ & ->)%visits_S. eauto.
Qed.

Lemma visits_child (n : nat) (h : heap) (r c : loc) (p : val)
    (ps : list (loc * val)) (cs : list val) :
  visits (S n) h (VRef r) p = Some ps ->
  children (VRef r) h = Ok cs h ->
  VRef c ∈ cs ->
  exists psc, visits n h (VRef c) (VRef r) = Some psc
              /\ forall x, x ∈ psc -> x ∈ ps.
Proof.
  intros (l & cs' & pss & [= <-] & E & Hm & ->)%visits_S E' Hc.
  rewrite E in E'. injection E' as <-.
  apply list_elem_of_lookup in Hc as [i Hi].
  destruct (Forall2_lookup_l _ _ _ _ _ Hm Hi) as (psc & Hpsc & Hv).
  exists psc. split; [done|]. intros x Hx. right.
  apply elem_of_concat. exists psc. split; [done|].
  by eapply list_elem_of_lookup_2.
Qed.

Lemma visits_reach (h h' : heap) (r x : loc) :
  skel h h' -> Tree.reach VisitorKeys h' r x ->
  forall n p ps, visits n h (VRef r) p = Some ps ->
    exists n' q psx, visits n' h (VRef x) q = Some psx
                     /\ forall y, y ∈ psx -> y ∈ ps.
Proof.
  intros H. induction 1 as [r|r y x (cs & Hcs & Hy) _ IH]; intros n p ps Hv.
  - eauto 10.
  - destruct n as [|n]; [done|].
    pose proof Hv as (l & cs' & pss & [= <-] & E & _ & _)%visits_S.
    pose proof (carries_children _ _ _ H _ E) as E'.
    rewrite E' in Hcs. injection Hcs as <-.
    destruct (visits_child _ _ _ _ _ _ _ Hv E Hy) as (psy & Hpsy & Hin).
    destruct (IH _ _ _ Hpsy) as (n' & q & psx & Hx & Hin').
    eauto 10.
Qed.

Lemma visits_child_of (h h' : heap) (r x c : loc) (n : nat) (p : val)
    (ps : list (loc * val)) :
  skel h h' -> visits n h (VRef r) p = Some ps ->
  Tree.reach VisitorKeys h' r x -> Tree.child_of VisitorKeys h' x c ->
  (c, VRef x) ∈ ps.
Proof.
  intros H Hv Hreach (cs & Hcs & Hc).
  destruct (visits_reach _ _ _ _ H Hreach _ _ _ Hv)
    as (n' & q & psx & Hx & Hin).
  destruct n' as [|n']; [done|].
  pose proof Hx as (l & cs' & pss & [= <-] & E & _ & _)%visits_S.
  pose proof (carries_children _ _ _ H _ E) as E'.
  rewrite E' in Hcs. injection Hcs as <-.
  destruct (visits_child _ _ _ _ _ _ _ Hx E Hc) as (psc & Hpsc & Hin').
  apply visits_head in Hpsc as [ps' ->].
  apply Hin, Hin'. left.
Qed.

Lemma visits_reach_in (h h' : heap) (r x : loc) (n : nat) (p : val)
    (ps : list (loc * val)) :
  skel h h' -> visits n h (VRef r) p = Some ps ->
  Tree.reach VisitorKeys h' r x ->
  exists q, (x, q) ∈ ps.
Proof.
  intros H Hv Hreach.
  destruct (visits_reach _ _ _ _ H Hreach _ _ _ Hv)
    as (n' & q & psx & Hx & Hin).
  apply visits_head in Hx as [ps' ->].
  exists q. apply Hin. left.
Qed.

(** *** The walk as a sequence of visits *)

Variable enter : val -> val -> M val.
Hypothesis enter_touch :
  forall l q h, is_obj h l ->
    exists h', enter (VRef l) q h = Ok (VRef l) h' /\ touch l h h'.

Local Abbreviation run_visits := (run_visits enter).

Lemma enter_effect (l : loc) (q : val) (h : heap) :
  is_obj h l ->
  enter (VRef l) q h = Ok (VRef l) (effect (enter (VRef l) q) h)
  /\ touch l h (effect (enter (VRef l) q) h).
Proof.
  intros Hl. destruct (enter_touch l q h Hl) as (h' & E & Ht).
  unfold effect. by rewrite E.
Qed.

Lemma skel_run (ps : list (loc * val)) (h : heap) :
  Forall (fun cq => is_obj h cq.1) ps -> skel h (run_visits h ps).
Proof.
  revert h. induction ps as [|[c q] ps IH]; intros h Hall.
  - apply skel_refl.
  - apply Forall_cons in Hall as [Hc Hall]. simpl in Hc.
    destruct (enter_effect c q h Hc) as [_ Ht%touch_skel].
    eapply skel_trans; [done|]. apply IH.
    eapply Forall_impl; [done|]. intros cq. by apply skel_is_obj.
Qed.

Lemma run_visits_app (ps1 ps2 : list (loc * val)) (h : heap) :
  run_visits h (ps1 ++ ps2) = run_visits (run_visits h ps1) ps2.
Proof. apply foldl_app. Qed.

Lemma visit_run (n : nat) (h : heap) (v p : val) (ps : list (loc * val)) :
  visits n h v p = Some ps ->
  visit n enter v p h = Ok tt (run_visits h ps).
Proof.
  revert h v p ps. induction n as [|n IH]; intros h v p ps; [done|].
  intros (l & cs & pss & -> & E & Hm & ->)%visits_S.
  pose proof (children_is_obj _ _ _ _ E) as Hl.
  destruct (enter_effect l p h Hl) as [He Ht%touch_skel].
  cbn [estraverse.visit]. rewrite (bind_Ok _ _ _ _ _ He). cbn [truthy].
  rewrite (bind_Ok _ _ _ _ _ (carries_children _ _ _ Ht _ E)).
  change (run_visits h ((l, p) :: concat pss))
    with (run_visits (effect (enter (VRef l) p) h) (concat pss)).
  revert Ht. generalize (effect (enter (VRef l) p) h). clear He E.
  induction Hm as [|c psc cs pss Hc Hm IHm]; intros hc Hsk; [done|].
  pose proof (skel_visits _ _ _ _ _ _ Hsk Hc) as Hc'.
  cbn [forEach concat]. rewrite (bind_Ok _ _ _ _ _ (IH _ _ _ _ Hc')).
  rewrite run_visits_app. apply IHm.
  eapply skel_trans; [done|]. by eapply skel_run, visits_is_obj.
Qed.

Lemma run_visits_keeps (N : nat) (c : loc) (Q : heap -> Prop)
    (ps : list (loc * val)) (h : heap) :
  (forall c' h1 h2,
      c' <> c -> c' < N -> N <= length h1 -> touch c' h1 h2 ->
      Q h1 -> Q h2) ->
  c ∉ ps.*1 ->
  Forall (fun cq => is_obj h cq.1 /\ cq.1 < N) ps ->
  N <= length h ->
  Q h -> Q (run_visits h ps).
Proof.
  intros Hkeep. revert h. induction ps as [|[c' q'] ps IH];
    intros h Hc Hall HN HQ; [done|].
  apply Forall_cons in Hall as [[Hobj Hlt] Hall]. simpl in *.
  apply not_elem_of_cons in Hc as [Hne Hc].
  destruct (enter_effect c' q' h Hobj) as [_ Ht].
  pose proof (skel_length _ _ (touch_skel _ _ _ Ht)).
  apply IH; [done| |lia|by eauto].
  eapply Forall_impl; [done|]. intros cq [? ?].
  split; [|done]. eapply skel_is_obj; [|done]. by eapply touch_skel.
Qed.

Lemma run_visits_post (N : nat) (c : loc) (q : val) (Q : heap -> Prop)
    (ps : list (loc * val)) (h : heap) :
  (forall c' h1 h2,
      c' <> c -> c' < N -> N <= length h1 -> touch c' h1 h2 ->
      Q h1 -> Q h2) ->
  (forall h1, skel h h1 -> N <= length h1 ->
              Q (effect (enter (VRef c) q) h1)) ->
  NoDup ps.*1 ->
  (c, q) ∈ ps ->
  Forall (fun cq => is_obj h cq.1 /\ cq.1 < N) ps ->
  N <= length h ->
  Q (run_visits h ps).
Proof.
  intros Hkeep. revert h. induction ps as [|[c' q'] ps IH];
    intros h Hmake Hnd Hin Hall HN.
  { by apply elem_of_nil in Hin. }
  apply Forall_cons in Hall as [[Hobj Hlt] Hall]. simpl in *.
  apply NoDup_cons in Hnd as [Hc' Hnd].
  destruct (enter_effect c' q' h Hobj) as [_ Ht].
  pose proof (touch_skel _ _ _ Ht) as Hsk.
  pose proof (skel_length _ _ Hsk).
  assert (Forall (fun cq => is_obj (effect (enter (VRef c') q') h) cq.1
                            /\ cq.1 < N) ps) as Hall'.
  { eapply Forall_impl; [done|]. intros cq [? ?].
    split; [|done]. by eapply skel_is_obj. }
  apply elem_of_cons in Hin as [[= -> ->]|Hin].
  - apply (run_visits_keeps N c'); [done..|lia|].
    apply Hmake; [apply skel_refl|done].
  - apply IH; [|done..|lia].
    intros h1 Hsk1 HN1. apply Hmake; [|done].
    by eapply skel_trans.
Qed.
End Walk.
End WalkProofs.

(** ** Writing a field *)

Lemma assoc_set_assoc_eq {A} (k : string) (x : A) (ps : list (string * A)) :
  assoc k (set_assoc k x ps) = Some x.
Proof.
  induction ps as [|[k' v] ps IH]; simpl.
  - by rewrite decide_True.
  - case_decide; simpl; [by rewrite decide_True|by rewrite decide_False].
Qed.

Lemma assoc_set_assoc_ne {A} (k k' : string) (x : A)
    (ps : list (string * A)) :
  k' <> k -> assoc k' (set_assoc k x ps) = assoc k' ps.
Proof.
  intros Hne. induction ps as [|[k0 v] ps IH]; simpl.
  - by rewrite decide_False.
  - case_decide as Hk; simpl.
    + subst k0. by rewrite !decide_False.
    + case_decide; [done|apply IH].
Qed.

Lemma set_field_run (h : heap) (l : loc) (k : string) (x : val) :
  is_obj h l -> set (VRef l) k x h = Ok tt (set_field h l k x).
Proof. intros [ps Hl]. unfold set, set_field. by rewrite Hl. Qed.

Lemma set_field_length (h : heap) (l : loc) (k : string) (x : val) :
  length (set_field h l k x) = length h.
Proof.
  unfold set_field. destruct (h !! l) as [[]|]; try done.
  apply length_insert.
Qed.

Lemma set_field_other (h : heap) (l l' : loc) (k : string) (x : val) :
  l' <> l -> set_field h l k x !! l' = h !! l'.
Proof.
  intros Hne. unfold set_field. destruct (h !! l) as [[]|]; try done.
  by apply list_lookup_insert_ne.
Qed.

Lemma set_field_same (h : heap) (l : loc) (k : string) (x : val)
    (ps : list (string * val)) :
  h !! l = Some (OObj ps) ->
  set_field h l k x !! l = Some (OObj (set_assoc k x ps)).
Proof.
  intros Hl. unfold set_field. rewrite Hl.
  apply list_lookup_insert_eq. by eapply lookup_lt_Some.
Qed.

Lemma field_set_field (h : heap) (l : loc) (k : string) (x : val) :
  is_obj h l -> field (set_field h l k x) l k = x.
Proof.
  intros [ps Hl]. unfold field.
  rewrite (set_field_same _ _ _ _ _ Hl), assoc_set_assoc_eq. done.
Qed.

Lemma field_set_field_ne (h : heap) (l : loc) (k k' : string) (x : val) :
  k' <> k -> field (set_field h l k x) l k' = field h l k'.
Proof.
  intros Hne. unfold field.
  destruct (h !! l) as [[ps| |]|] eqn:Hl.
  - by rewrite (set_field_same _ _ _ _ _ Hl), assoc_set_assoc_ne.
  - unfold set_field. by rewrite Hl, Hl.
  - unfold set_field. by rewrite Hl, Hl.
  - unfold set_field. by rewrite Hl, Hl.
Qed.

Lemma set_field_touch (reserved : list string) (h : heap) (l : loc)
    (k : string) (x : val) :
  k ∈ reserved -> touch reserved l h (set_field h l k x).
Proof.
  intros Hk. split.
  - intros l' o Hl'. destruct (decide (l' = l)) as [->|Hne].
    + destruct o as [ps|es|src].
      * rewrite (set_field_same _ _ _ _ _ Hl'). eexists. split; [done|].
        intros k' Hk'. apply assoc_set_assoc_ne. by intros ->.
      * exists (OArr es). split; [|done]. unfold set_field. by rewrite Hl'.
      * exists (ORegExp src). split; [|done]. unfold set_field.
        by rewrite Hl'.
    + rewrite set_field_other by done. exists o. split; [done|].
      by destruct o.
  - intros x' Hne _. by apply set_field_other.
Qed.

(** ** The parent linker *)

Module ParentLinker.
Section Linker.
Variable VisitorKeys : string -> option (list string).
Hypothesis parent_is_no_child :
  forall t keys, VisitorKeys t = Some keys -> "parentNode" ∉ keys.

Local Abbreviation reach := (Tree.reach VisitorKeys).
Local Abbreviation child_of := (Tree.child_of VisitorKeys).
Local Abbreviation reserved := ["parentNode"].

Lemma child_keys_kept (t : string) (keys : list string) (k : string) :
  VisitorKeys t = Some keys -> k ∈ keys -> k ∉ reserved.
Proof.
  intros Ht Hk ->%list_elem_of_singleton.
  by eapply parent_is_no_child.
Qed.

Lemma type_is_no_parent_link : "type" ∉ reserved.
Proof. by intros [=]%list_elem_of_singleton. Qed.

Lemma parentizeNode_run (l : loc) (q : val) (h : heap) :
  is_obj h l ->
  NodeUtils.parentizeNode (VRef l) q h
  = Ok (VRef l) (set_field h l "parentNode" (parent_for l q)).
Proof.
  intros Hl. unfold NodeUtils.parentizeNode.
  by rewrite (bind_Ok _ _ _ _ _ (set_field_run _ _ _ _ Hl)).
Qed.

Lemma parentizeNode_touch (l : loc) (q : val) (h : heap) :
  is_obj h l ->
  exists h', NodeUtils.parentizeNode (VRef l) q h = Ok (VRef l) h'
             /\ touch reserved l h h'.
Proof.
  intros Hl. eexists. split; [by apply parentizeNode_run|].
  apply set_field_touch. by left.
Qed.

Lemma parentizeNode_effect (l : loc) (q : val) (h : heap) :
  is_obj h l ->
  effect (NodeUtils.parentizeNode (VRef l) q) h
  = set_field h l "parentNode" (parent_for l q).
Proof. intros Hl. unfold effect. by rewrite parentizeNode_run. Qed.

(** The parent links after the walk, for a tree whose visits are
    [ps]. *)
Lemma linked (fuel : nat) (h : heap) (r : loc) (ps : list (loc * val)) :
  Tree.visits VisitorKeys fuel h (VRef r) VNull = Some ps ->
  NoDup ps.*1 ->
  let h' := run_visits NodeUtils.parentizeNode h ps in
  NodeUtils.parentizeAst VisitorKeys fuel (VRef r) h = Ok (VRef r) h'
  /\ skel reserved h h'
  /\ Tree.parent_of h' r = VRef r
  /\ (forall p n, reach h' r p -> child_of h' p n ->
                  Tree.parent_of h' n = VRef p).
Proof.
  intros Hv Hnd h'.
  pose proof (WalkProofs.visits_is_obj _ _ _ _ _ _ Hv) as Hobj.
  assert (skel reserved h h') as Hsk.
  { apply WalkProofs.skel_run; [apply parentizeNode_touch|done]. }
  assert (Forall (fun cq => is_obj h cq.1 /\ cq.1 < length h) ps) as Hall.
  { eapply Forall_impl; [done|]. intros cq [qs Hl].
    split; [by exists qs|by eapply lookup_lt_Some]. }
  assert (forall c q, (c, q) ∈ ps ->
            Tree.parent_of h' c = parent_for c q) as Hpost.
  { intros c q Hin.
    apply (WalkProofs.run_visits_post reserved) with (N := length h)
      (c := c) (q := q)
      (Q := fun h1 => Tree.parent_of h1 c = parent_for c q).
    - apply parentizeNode_touch.
    - intros c' h1 h2 Hne _ Hlen [_ Hother] HQ.
      unfold Tree.parent_of, field in *. rewrite Hother; [done|done|].
      apply (proj1 (Forall_forall _ _) Hall) in Hin as [_ Hc].
      simpl in Hc. lia.
    - intros h1 Hsk1 _.
      assert (is_obj h1 c) as Hc.
      { eapply WalkProofs.skel_is_obj; [done|].
        by apply (proj1 (Forall_forall _ _) Hobj) in Hin. }
      rewrite parentizeNode_effect by done.
      by apply field_set_field.
    - done.
    - done.
    - done.
    - done. }
  split.
  { unfold NodeUtils.parentizeAst, estraverse.replace.
    erewrite bind_Ok; [done|].
    apply (WalkProofs.visit_run VisitorKeys reserved);
      [apply child_keys_kept|apply type_is_no_parent_link|apply parentizeNode_touch
      |done]. }
  split; [done|].
  split.
  { destruct (WalkProofs.visits_head _ _ _ _ _ _ Hv) as [ps' ->].
    apply (Hpost r VNull). left. }
  intros p n Hp Hn. apply (Hpost n (VRef p)).
  eapply (WalkProofs.visits_child_of VisitorKeys reserved);
    [apply child_keys_kept|apply type_is_no_parent_link|done..].
Qed.

(** C2.  In a tree of root [r], once the parent linker has run, the
    parent link of [r] is [r] itself, every other node of the tree is
    held by a node of the tree and has that node as its parent link, and
    whatever node of the tree holds a node is the parent link of that
    node.  (The child-key table of the engine does not list
    [parentNode].) *)
Theorem parent_links_correct (fuel : nat) (h : heap) (r : loc)
    (Htree : Tree.is_tree VisitorKeys fuel h r) :
  exists h',
    NodeUtils.parentizeAst VisitorKeys fuel (VRef r) h = Ok (VRef r) h'
    /\ Tree.parent_of h' r = VRef r
    /\ (forall n, reach h' r n -> n <> r ->
          exists p, reach h' r p /\ child_of h' p n
                    /\ Tree.parent_of h' n = VRef p)
    /\ (forall p n, reach h' r p -> child_of h' p n ->
          Tree.parent_of h' n = VRef p).
Proof.
  destruct Htree as (ps & Hv & Hnd).
  destruct (linked _ _ _ _ Hv Hnd) as (Hrun & _ & Hroot & Hlinks).
  eexists. split; [done|]. split; [done|]. split; [|done].
  intros n Hn Hne. apply rtc_inv_r in Hn as [->|(p & Hp & Hpn)]; [done|].
  exists p. eauto.
Qed.

End Linker.
End ParentLinker.

(** ** The text-to-nodes conversion *)

Lemma get_field (h : heap) (l : loc) (k : string) :
  is_obj h l -> get (VRef l) k h = Ok (field h l k) h.
Proof. intros [ps Hl]. unfold field. rewrite Hl. by apply get_cell. Qed.

Lemma is_obj_lt (h : heap) (l : loc) : is_obj h l -> l < length h.
Proof. intros [ps Hl]. by eapply lookup_lt_Some. Qed.

Lemma is_obj_set_field (h : heap) (l l' : loc) (k : string) (x : val) :
  is_obj h l' -> is_obj (set_field h l k x) l'.
Proof.
  intros [ps Hl']. destruct (decide (l' = l)) as [->|Hne].
  - eexists. by apply set_field_same.
  - exists ps. by rewrite set_field_other.
Qed.

Lemma is_obj_alloc (h : heap) (l : loc) (o : obj) :
  is_obj h l -> is_obj (h ++ [o]) l.
Proof. intros [ps Hl]. exists ps. by apply lookup_alloc_old. Qed.

Lemma field_alloc (h : heap) (l : loc) (o : obj) (k : string) :
  is_obj h l -> field (h ++ [o]) l k = field h l k.
Proof.
  intros [ps Hl]. unfold field. by rewrite (lookup_alloc_old _ o _ _ Hl), Hl.
Qed.

Lemma field_set_field_other (h : heap) (l l' : loc) (k k' : string)
    (x : val) :
  l' <> l -> field (set_field h l k x) l' k' = field h l' k'.
Proof. intros Hne. unfold field. by rewrite set_field_other. Qed.

Lemma touch_alloc (reserved : list string) (l : loc) (h : heap) (o : obj) :
  touch reserved l h (h ++ [o]).
Proof.
  split.
  - intros l' o' Hl'. exists o'. split; [by apply lookup_alloc_old|].
    by destruct o'.
  - intros x _ Hx. by apply lookup_app_l.
Qed.

Lemma touch_trans (reserved : list string) (l : loc) (h1 h2 h3 : heap) :
  touch reserved l h1 h2 -> touch reserved l h2 h3 -> touch reserved l h1 h3.
Proof.
  intros [S1 O1] [S2 O2]. split.
  - intros l' o Hl'.
    destruct (S1 _ _ Hl') as (o2 & Hl2 & K1).
    destruct (S2 _ _ Hl2) as (o3 & Hl3 & K2).
    exists o3. split; [done|].
    destruct o, o2, o3; simpl in *; try congruence.
    intros k Hk. by rewrite K2, K1.
  - intros x Hne Hx. rewrite O2, O1; [done..|].
    assert (is_Some (h2 !! x)) as [o Ho].
    { rewrite O1 by done. by apply lookup_lt_is_Some_2. }
    by eapply lookup_lt_Some.
Qed.

Module Converter.
Section Converter.
Variable Precedence_Primary : val.
Variable VisitorKeys : string -> option (list string).
Variable espree_parse : string -> M val.
Hypothesis annotations_are_no_children :
  forall t keys k, VisitorKeys t = Some keys -> k ∈ keys ->
    k ∉ ["parentNode"; "x-verbatim-property"; "metadata"].

Local Abbreviation reach := (Tree.reach VisitorKeys).
Local Abbreviation child_of := (Tree.child_of VisitorKeys).
Local Abbreviation reserved :=
  ["parentNode"; "x-verbatim-property"; "metadata"].
Local Abbreviation annotate := (NodeUtils.annotate Precedence_Primary).
Local Abbreviation annotated := (annotated_store Precedence_Primary).

Local Ltac not_reserved :=
  rewrite !not_elem_of_cons; repeat split; try done; apply not_elem_of_nil.

Lemma type_is_no_annotation : "type" ∉ reserved.
Proof. not_reserved. Qed.

Lemma raw_kept : "raw" ∉ reserved.
Proof. not_reserved. Qed.

Lemma annotate_run (l : loc) (q : val) (h : heap) :
  is_obj h l -> annotate (VRef l) q h = Ok (VRef l) (annotated h l q).
Proof.
  intros Hl. unfold NodeUtils.annotate, annotated_store.
  unfold NodeGuards.isLiteralNode, NodeGuards.has_type, NodeMetadata.set.
  norm.
  rewrite (bind_Ok _ _ _ _ _ (ParentLinker.parentizeNode_run _ _ _ Hl)).
  set (h1 := set_field h l "parentNode" (parent_for l q)).
  assert (is_obj h1 l) as Hl1 by by apply is_obj_set_field.
  norm. rewrite (bind_Ok _ _ _ _ _ (get_field _ _ "type" Hl1)). norm.
  unfold h1 at 1. rewrite field_set_field_ne by done.
  change (match field h l "type" with
          | VStr s => bool_decide (s = NodeType.Literal)
          | _ => false
          end) with (is_literal_type (field h l "type")).
  destruct (is_literal_type (field h l "type")).
  - unfold NodeUtils.addXVerbatimPropertyTo. norm.
    rewrite (bind_Ok _ _ _ _ _ (get_field _ _ "raw" Hl1)).
    unfold h1 at 1. rewrite field_set_field_ne by done.
    norm. rewrite bind_alloc. norm.
    erewrite bind_Ok by by apply set_field_run, is_obj_alloc.
    norm. rewrite bind_alloc. norm.
    erewrite bind_Ok
      by by apply set_field_run, is_obj_alloc, is_obj_set_field,
                  is_obj_alloc.
    done.
  - norm. rewrite bind_alloc. norm.
    erewrite bind_Ok by by apply set_field_run, is_obj_alloc.
    done.
Qed.

Lemma annotate_touch (l : loc) (q : val) (h : heap) :
  is_obj h l ->
  exists h', annotate (VRef l) q h = Ok (VRef l) h'
             /\ touch reserved l h h'.
Proof.
  intros Hl. eexists. split; [by apply annotate_run|].
  unfold annotated_store.
  set (h1 := set_field h l "parentNode" (parent_for l q)).
  assert (touch reserved l h h1) as T1.
  { apply set_field_touch. by left. }
  eapply touch_trans;
    [|apply set_field_touch; by right; right; left].
  eapply touch_trans; [|apply touch_alloc].
  destruct (is_literal_type (field h l "type")); [|done].
  eapply touch_trans; [|apply set_field_touch; by right; left].
  eapply touch_trans; [done|apply touch_alloc].
Qed.

Lemma annotate_effect (l : loc) (q : val) (h : heap) :
  is_obj h l -> effect (annotate (VRef l) q) h = annotated h l q.
Proof. intros Hl. unfold effect. by rewrite annotate_run. Qed.

Lemma annotated_parent (l : loc) (q : val) (h : heap) :
  is_obj h l -> field (annotated h l q) l "parentNode" = parent_for l q.
Proof.
  intros Hl. unfold annotated_store.
  set (h1 := set_field h l "parentNode" (parent_for l q)).
  assert (is_obj h1 l) as Hl1 by by apply is_obj_set_field.
  assert (field h1 l "parentNode" = parent_for l q) as Hp
    by by apply field_set_field.
  rewrite field_set_field_ne by done.
  destruct (is_literal_type (field h l "type")).
  - rewrite field_alloc by by apply is_obj_set_field, is_obj_alloc.
    rewrite field_set_field_ne by done. by rewrite field_alloc.
  - by rewrite field_alloc.
Qed.

Lemma annotated_metadata (l : loc) (q : val) (h : heap) :
  is_obj h l ->
  exists m,
    field (annotated h l q) l "metadata" = VRef m
    /\ annotated h l q !! m = Some (OObj [("ignoredNode", VBool false)])
    /\ length h <= m.
Proof.
  intros Hl. unfold annotated_store.
  set (h1 := set_field h l "parentNode" (parent_for l q)).
  assert (is_obj h1 l) as Hl1 by by apply is_obj_set_field.
  assert (length h1 = length h) as Hlen by apply set_field_length.
  set (h2 := if is_literal_type (field h l "type") then _ else h1).
  assert (is_obj h2 l /\ length h <= length h2) as [Hl2 Hlen2].
  { unfold h2. destruct (is_literal_type (field h l "type")).
    - split; [by apply is_obj_set_field, is_obj_alloc|].
      rewrite set_field_length, length_app. lia.
    - split; [done|lia]. }
  exists (length h2). split; [|split; [|done]].
  - apply field_set_field. by apply is_obj_alloc.
  - rewrite set_field_other; [apply lookup_alloc|].
    apply is_obj_lt in Hl. lia.
Qed.

Lemma annotated_verbatim (l : loc) (q : val) (h : heap) :
  is_obj h l ->
  is_literal_type (field h l "type") = true ->
  exists a,
    field (annotated h l q) l "x-verbatim-property" = VRef a
    /\ annotated h l q !! a
       = Some (OObj [("content", field h l "raw");
                     ("precedence", Precedence_Primary)])
    /\ length h <= a.
Proof.
  intros Hl Hlit. unfold annotated_store. rewrite Hlit.
  set (h1 := set_field h l "parentNode" (parent_for l q)).
  assert (is_obj h1 l) as Hl1 by by apply is_obj_set_field.
  assert (length h1 = length h) as Hlen by apply set_field_length.
  pose proof (is_obj_lt _ _ Hl).
  exists (length h1). split; [|split; [|lia]].
  - rewrite field_set_field_ne by done.
    rewrite field_alloc by by apply is_obj_set_field, is_obj_alloc.
    apply field_set_field. by apply is_obj_alloc.
  - rewrite set_field_other by lia.
    apply lookup_alloc_old.
    rewrite set_field_other by lia. apply lookup_alloc.
Qed.

Lemma skel_field (h h' : heap) (l : loc) (k : string) :
  skel reserved h h' -> k ∉ reserved -> is_obj h l ->
  field h' l k = field h l k.
Proof.
  intros Hsk Hk [ps Hl]. destruct (Hsk _ _ Hl) as (o' & Hl' & K).
  unfold field. rewrite Hl, Hl'. destruct o'; try done.
  simpl in K. by rewrite K.
Qed.

(** What the walk of the conversion leaves, for a parsed tree whose
    visits are [ps]. *)
Lemma annotated_all (fuel : nat) (h : heap) (r : loc)
    (ps : list (loc * val)) :
  Tree.visits VisitorKeys fuel h (VRef r) VNull = Some ps ->
  NoDup ps.*1 ->
  let h' := run_visits annotate h ps in
  estraverse.visit VisitorKeys fuel annotate (VRef r) VNull h = Ok tt h'
  /\ skel reserved h h'
  /\ (forall c q, (c, q) ∈ ps ->
        Tree.parent_of h' c = parent_for c q
        /\ (exists m,
              field h' c "metadata" = VRef m
              /\ h' !! m = Some (OObj [("ignoredNode", VBool false)]))
        /\ (is_literal_type (field h c "type") = true ->
            exists a,
              field h' c "x-verbatim-property" = VRef a
              /\ h' !! a
                 = Some (OObj [("content", field h c "raw");
                               ("precedence", Precedence_Primary)]))).
Proof.
  intros Hv Hnd h'.
  pose proof (WalkProofs.visits_is_obj _ _ _ _ _ _ Hv) as Hobj.
  assert (Forall (fun cq => is_obj h cq.1 /\ cq.1 < length h) ps) as Hall.
  { eapply Forall_impl; [done|]. intros cq Hc.
    split; [done|by apply is_obj_lt]. }
  split.
  { apply (WalkProofs.visit_run VisitorKeys reserved);
      [apply annotations_are_no_children|apply type_is_no_annotation
      |apply annotate_touch|done]. }
  split.
  { apply WalkProofs.skel_run; [apply annotate_touch|done]. }
  intros c q Hin.
  pose proof (proj1 (Forall_forall _ _) Hall _ Hin) as [Hc Hclt].
  simpl in Hc, Hclt.
  set (Q := fun h1 =>
       Tree.parent_of h1 c = parent_for c q
       /\ (exists m,
             field h1 c "metadata" = VRef m
             /\ h1 !! m = Some (OObj [("ignoredNode", VBool false)])
             /\ length h <= m)
       /\ (is_literal_type (field h c "type") = true ->
           exists a,
             field h1 c "x-verbatim-property" = VRef a
             /\ h1 !! a
                = Some (OObj [("content", field h c "raw");
                              ("precedence", Precedence_Primary)])
             /\ length h <= a)).
  cut (Q h').
  { intros (Hp & (m & Hm & Hcell & _) & Hlit).
    split; [done|]. split; [by eauto|].
    intros Ht. destruct (Hlit Ht) as (a & Ha & Hcella & _). by eauto. }
  apply (WalkProofs.run_visits_post reserved) with (N := length h)
    (c := c) (q := q); [| | |done..].
  - apply annotate_touch.
  - intros c' h1 h2 Hne Hc' Hlen [_ Hother]
      (Hp & (m & Hm & Hcell & HNm) & Hlit).
    assert (h2 !! c = h1 !! c) as Hsame by (apply Hother; [done|lia]).
    assert (forall k, field h2 c k = field h1 c k) as Hf.
    { intros k. unfold field. by rewrite Hsame. }
    split; [by unfold Tree.parent_of; rewrite Hf|].
    split.
    + exists m. rewrite Hf. split; [done|]. split; [|done].
      rewrite Hother; [done|lia|by eapply lookup_lt_Some].
    + intros Ht. destruct (Hlit Ht) as (a & Ha & Hcella & HNa).
      exists a. rewrite Hf. split; [done|]. split; [|done].
      rewrite Hother; [done|lia|by eapply lookup_lt_Some].
  - intros h1 Hsk1 Hlen.
    assert (is_obj h1 c) as Hc1 by by eapply WalkProofs.skel_is_obj.
    rewrite annotate_effect by done.
    split; [by apply annotated_parent|].
    split.
    + destruct (annotated_metadata c q h1 Hc1) as (m & ? & ? & ?).
      exists m. repeat split; [done..|lia].
    + intros Ht.
      rewrite <- (skel_field _ _ _ "type" Hsk1 type_is_no_annotation Hc) in Ht.
      destruct (annotated_verbatim c q h1 Hc1 Ht) as (a & ? & Hcell & ?).
      exists a. rewrite (skel_field _ _ _ "raw" Hsk1 raw_kept Hc) in Hcell.
      repeat split; [done..|lia].
Qed.

(** C8.  When the parser gives a tree for the source text, the
    conversion enters each node of it once and returns the [body] of the
    parsed program, the parser's own sequence, with its entries as the
    parser left them.  After it, the root is its own parent link and
    every other node has the node that holds it; every node has the
    metadata [{ ignoredNode: false }]; every literal node has a verbatim
    annotation whose content is the [raw] text that the parser recorded
    for it, at the primary precedence; no other field of a node has
    changed.  (The child-key table of the engine lists none of the three
    annotation fields.) *)
Theorem text_to_nodes_annotated (fuel : nat) (code : string)
    (h h1 : heap) (r : loc)
    (Hparse : espree_parse code h = Ok (VRef r) h1)
    (Htree : Tree.is_tree VisitorKeys fuel h1 r) :
  exists h2 ps,
    NodeUtils.convertCodeToStructure Precedence_Primary VisitorKeys
      espree_parse fuel code h
    = Ok (field h1 r "body") h2
    /\ Tree.visits VisitorKeys fuel h1 (VRef r) VNull = Some ps
    /\ NoDup ps.*1
    /\ h2 = run_visits annotate h1 ps
    /\ Tree.parent_of h2 r = VRef r
    /\ (forall p n, reach h2 r p -> child_of h2 p n ->
          Tree.parent_of h2 n = VRef p)
    /\ (forall n, reach h2 r n ->
          exists m,
            field h2 n "metadata" = VRef m
            /\ h2 !! m = Some (OObj [("ignoredNode", VBool false)]))
    /\ (forall n, reach h2 r n ->
          field h2 n "type" = VStr NodeType.Literal ->
          exists a,
            field h2 n "x-verbatim-property" = VRef a
            /\ h2 !! a
               = Some (OObj [("content", field h1 n "raw");
                             ("precedence", Precedence_Primary)]))
    /\ (forall n k, is_obj h1 n -> k ∉ reserved ->
          field h2 n k = field h1 n k)
    /\ (forall a es, h1 !! a = Some (OArr es) ->
          h2 !! a = Some (OArr es)).
Proof.
  destruct Htree as (ps & Hv & Hnd).
  destruct (annotated_all _ _ _ _ Hv Hnd) as (Hrun & Hsk & Hpost).
  pose proof (WalkProofs.visits_is_obj _ _ _ _ _ _ Hv) as Hobj.
  destruct (WalkProofs.visits_head _ _ _ _ _ _ Hv) as [ps' Hps].
  assert (is_obj h1 r) as Hr.
  { rewrite Hps in Hobj. by apply Forall_cons in Hobj as [? _]. }
  assert (forall n, reach (run_visits annotate h1 ps) r n ->
                    exists q, (n, q) ∈ ps) as Hin.
  { intros n Hn.
    eapply (WalkProofs.visits_reach_in VisitorKeys reserved);
      [apply annotations_are_no_children|apply type_is_no_annotation|done..]. }
  eexists _, ps. split.
  { unfold NodeUtils.convertCodeToStructure, estraverse.replace.
    rewrite (bind_Ok _ _ _ _ _ Hparse). norm.
    rewrite (bind_Ok _ _ _ _ _ Hrun).
    rewrite get_field by by eapply WalkProofs.skel_is_obj.
    by rewrite (skel_field _ _ _ "body" Hsk) by (try done; not_reserved). }
  split; [done|]. split; [done|]. split; [done|].
  split.
  { destruct (Hpost r VNull) as (Hp & _); [rewrite Hps; left|done]. }
  split.
  { intros p n Hp Hn. eapply (Hpost n (VRef p)).
    eapply (WalkProofs.visits_child_of VisitorKeys reserved);
      [apply annotations_are_no_children|apply type_is_no_annotation|done..]. }
  split.
  { intros n [q Hq]%Hin. by destruct (Hpost n q Hq) as (_ & ? & _). }
  split.
  { intros n [q Hq]%Hin Ht.
    destruct (Hpost n q Hq) as (_ & _ & Hlit). apply Hlit.
    assert (is_obj h1 n) as Hn
      by by apply (proj1 (Forall_forall _ _) Hobj) in Hq.
    rewrite <- (skel_field _ _ _ "type" Hsk type_is_no_annotation Hn), Ht.
    by apply bool_decide_eq_true_2. }
  split.
  { intros n k Hn Hk. by apply skel_field. }
  intros a es Ha. by destruct (Hsk _ _ Ha) as (o' & ? & ->).
Qed.

(** C10.  When the parser throws a syntax error for the source text, the
    conversion throws that same error, at whatever depth it is run: it
    has no result, and so no nodes. *)
Theorem syntax_error_propagated (code msg : string) (h : heap)
    (Hinvalid : espree_parse code h = Throw (SyntaxError msg))
    (fuel : nat) :
  NodeUtils.convertCodeToStructure Precedence_Primary VisitorKeys
    espree_parse fuel code h
  = Throw (SyntaxError msg).
Proof.
  unfold NodeUtils.convertCodeToStructure, bind. by rewrite Hinvalid.
Qed.
End Converter.
End Converter.

(** ** Reading a tree *)

Module UnfoldProofs.

Lemma unfold_props_ext (f g : val -> option (shape * list loc))
    (ps : list (string * val)) :
  (forall v, f v = g v) -> unfold_props f ps = unfold_props g ps.
Proof.
  intros Hfg. induction ps as [|[k v] ps IH]; simpl; [done|].
  by rewrite Hfg, IH.
Qed.

Lemma unfold_elems_ext (f g : val -> option (shape * list loc))
    (es : list val) :
  (forall v, f v = g v) -> unfold_elems f es = unfold_elems g es.
Proof.
  intros Hfg. induction es as [|v es IH]; simpl; [done|].
  by rewrite Hfg, IH.
Qed.

Lemma unfold_props_cons (f : val -> option (shape * list loc))
    (k : string) (v : val) (ps : list (string * val))
    (ss : list (string * shape)) (ls : list loc) :
  k <> "parentNode" ->
  unfold_props f ((k, v) :: ps) = Some (ss, ls) ->
  exists s lsv ss' ls',
    f v = Some (s, lsv) /\ unfold_props f ps = Some (ss', ls')
    /\ ss = (k, s) :: ss' /\ ls = lsv ++ ls'.
Proof.
  intros Hk. simpl. rewrite decide_False by done.
  destruct (f v) as [[s lsv]|]; [|done].
  destruct (unfold_props f ps) as [[ss' ls']|]; [|done].
  intros [= <- <-]. eauto 10.
Qed.

Lemma unfold_props_impl (f g : val -> option (shape * list loc))
    (ps : list (string * val)) (ss : list (string * shape))
    (ls : list loc) :
  unfold_props f ps = Some (ss, ls) ->
  (forall k v s lsv,
      (k, v) ∈ ps -> f v = Some (s, lsv) ->
      (forall x, x ∈ lsv -> x ∈ ls) -> g v = Some (s, lsv)) ->
  unfold_props g ps = Some (ss, ls).
Proof.
  revert ss ls. induction ps as [|[k v] ps IH]; intros ss ls; [done|].
  simpl. case_decide.
  - intros Hf Hfg. apply IH; [done|]. intros k' v' s lsv Hin.
    apply (Hfg k'). by right.
  - destruct (f v) as [[s lsv]|] eqn:Hv; [|done].
    destruct (unfold_props f ps) as [[ss' ls']|] eqn:Hps; [|done].
    intros [= <- <-] Hfg.
    rewrite (Hfg k v s lsv); [|by left|done|set_solver].
    rewrite (IH ss' ls'); [done..|].
    intros k' v' s' lsv' Hin Hv' Hsub.
    apply (Hfg k' v'); [by right|done|set_solver].
Qed.

Lemma unfold_elems_impl (f g : val -> option (shape * list loc))
    (es : list val) (ss : list shape) (ls : list loc) :
  unfold_elems f es = Some (ss, ls) ->
  (forall v s lsv,
      v ∈ es -> f v = Some (s, lsv) ->
      (forall x, x ∈ lsv -> x ∈ ls) -> g v = Some (s, lsv)) ->
  unfold_elems g es = Some (ss, ls).
Proof.
  revert ss ls. induction es as [|v es IH]; intros ss ls; [done|].
  simpl.
  destruct (f v) as [[s lsv]|] eqn:Hv; [|done].
  destruct (unfold_elems f es) as [[ss' ls']|] eqn:Hes; [|done].
  intros [= <- <-] Hfg.
  rewrite (Hfg v s lsv); [|by left|done|set_solver].
  rewrite (IH ss' ls'); [done..|].
  intros v' s' lsv' Hin Hv' Hsub.
  apply (Hfg v'); [by right|done|set_solver].
Qed.

Lemma unfold_mono (n m : nat) (h : heap) (v : val)
    (r : shape * list loc) :
  n <= m -> unfold n h v = Some r -> unfold m h v = Some r.
Proof.
  revert m v r. induction n as [|n IH]; intros m v r Hnm.
  - by destruct v, m.
  - destruct v as [| | | | |l]; try (by destruct m).
    destruct m as [|m]; [lia|]. simpl.
    destruct (h !! l) as [[ps|es|src]|]; try done.
    + destruct (unfold_props _ ps) as [[ss ls]|] eqn:Hps; [|done].
      intros [= <-].
      erewrite unfold_props_impl; [done..|].
      intros k v s lsv _ Hv _. apply IH; [lia|done].
    + destruct (unfold_elems _ es) as [[ss ls]|] eqn:Hes; [|done].
      intros [= <-].
      erewrite unfold_elems_impl; [done..|].
      intros v s lsv _ Hv _. apply IH; [lia|done].
Qed.

(** The cells that a reading depends on: those it lists, and the
    regular expressions. *)
Lemma unfold_frame (n : nat) (h h2 : heap) (v : val) (s : shape)
    (ls : list loc) :
  unfold n h v = Some (s, ls) ->
  (forall x o, h !! x = Some o ->
               x ∈ ls \/ (exists src, o = ORegExp src) ->
               h2 !! x = Some o) ->
  unfold n h2 v = Some (s, ls).
Proof.
  revert v s ls. induction n as [|n IH]; intros v s ls.
  - by destruct v.
  - destruct v as [| | | | |l]; try done. simpl.
    destruct (h !! l) as [[ps|es|src]|] eqn:Hl; try done.
    + destruct (unfold_props _ ps) as [[ss ls']|] eqn:Hps; [|done].
      intros [= <- <-] Hsame.
      rewrite (Hsame l (OObj ps)); [|done|left; by left].
      erewrite unfold_props_impl; [done..|].
      intros k v s lsv _ Hv Hsub. apply IH; [done|].
      intros x o Hx [Hin|Hre]; apply Hsame; try done; [|by right].
      left. right. by apply Hsub.
    + destruct (unfold_elems _ es) as [[ss ls']|] eqn:Hes; [|done].
      intros [= <- <-] Hsame.
      rewrite (Hsame l (OArr es)); [|done|left; set_solver].
      erewrite unfold_elems_impl; [done..|].
      intros v s lsv _ Hv Hsub. apply IH; [done|].
      intros x o Hx [Hin|Hre]; apply Hsame; try done; [|by right].
      left. apply elem_of_app. left. by apply Hsub.
    + intros [= <- <-] Hsame.
      rewrite (Hsame l (ORegExp src)); [done..|]. right. by eauto.
Qed.

Lemma unfold_prefix (n : nat) (h h' : heap) (v : val)
    (r : shape * list loc) :
  h `prefix_of` h' -> unfold n h v = Some r -> unfold n h' v = Some r.
Proof.
  intros Hpre Hv. destruct r as [s ls].
  eapply unfold_frame; [done|]. intros x o Hx _.
  by eapply prefix_lookup_Some.
Qed.

Lemma unfold_inv (n : nat) (h : heap) (v : val) (s : shape)
    (ls : list loc) :
  unfold n h v = Some (s, ls) ->
  match v with
  | VUndef => s = SUndef /\ ls = []
  | VNull => s = SNull /\ ls = []
  | VBool b => s = SBool b /\ ls = []
  | VNum x => s = SNum x /\ ls = []
  | VStr t => s = SStr t /\ ls = []
  | VRef l =>
      exists n', n = S n' /\
        match h !! l with
        | Some (OObj ps) =>
            exists ss ls0,
              unfold_props (unfold n' h) ps = Some (ss, ls0)
              /\ s = SObj ss /\ ls = l :: ls0
        | Some (OArr es) =>
            exists ss ls0,
              unfold_elems (unfold n' h) es = Some (ss, ls0)
              /\ s = SArr ss /\ ls = ls0 ++ [l]
        | Some (ORegExp _) => s = SRegExp l /\ ls = []
        | None => False
        end
  end.
Proof.
  destruct v as [| | | | |l]; try (destruct n; by intros [= <- <-]).
  destruct n as [|n]; [done|]. simpl. intros Hv. exists n. split; [done|].
  destruct (h !! l) as [[ps|es|src]|]; [| | |done].
  - destruct (unfold_props _ ps) as [[ss ls0]|]; [|done].
    injection Hv as <- <-. eauto.
  - destruct (unfold_elems _ es) as [[ss ls0]|]; [|done].
    injection Hv as <- <-. eauto.
  - by injection Hv as <- <-.
Qed.

Lemma unfold_props_cells (f : val -> option (shape * list loc))
    (ps : list (string * val)) (ss : list (string * shape))
    (ls : list loc) (x : loc) :
  unfold_props f ps = Some (ss, ls) -> x ∈ ls ->
  exists v s lsv, v ∈ ps.*2 /\ f v = Some (s, lsv) /\ x ∈ lsv.
Proof.
  revert ss ls. induction ps as [|[k v] ps IH]; intros ss ls.
  { intros [= <- <-] ?%elem_of_nil. done. }
  simpl. case_decide.
  - intros Hps Hx. destruct (IH _ _ Hps Hx) as (v' & s & lsv & ? & ? & ?).
    exists v', s, lsv. split; [by right|done].
  - destruct (f v) as [[s lsv]|] eqn:Hv; [|done].
    destruct (unfold_props f ps) as [[ss' ls']|] eqn:Hps; [|done].
    intros [= <- <-] [Hx|Hx]%elem_of_app.
    + exists v, s, lsv. split; [by left|done].
    + destruct (IH _ _ eq_refl Hx) as (v' & s' & lsv' & ? & ? & ?).
      exists v', s', lsv'. split; [by right|done].
Qed.

Lemma unfold_elems_cells (f : val -> option (shape * list loc))
    (es : list val) (ss : list shape) (ls : list loc) (x : loc) :
  unfold_elems f es = Some (ss, ls) -> x ∈ ls ->
  exists v s lsv, v ∈ es /\ f v = Some (s, lsv) /\ x ∈ lsv.
Proof.
  revert ss ls. induction es as [|v es IH]; intros ss ls.
  { intros [= <- <-] ?%elem_of_nil. done. }
  simpl.
  destruct (f v) as [[s lsv]|] eqn:Hv; [|done].
  destruct (unfold_elems f es) as [[ss' ls']|] eqn:Hes; [|done].
  intros [= <- <-] [Hx|Hx]%elem_of_app.
  - exists v, s, lsv. split; [by left|done].
  - destruct (IH _ _ eq_refl Hx) as (v' & s' & lsv' & ? & ? & ?).
    exists v', s', lsv'. split; [by right|done].
Qed.

(** The cells of a reading hold objects and arrays. *)
Lemma unfold_cells (n : nat) (h : heap) (v : val) (s : shape)
    (ls : list loc) (x : loc) :
  unfold n h v = Some (s, ls) -> x ∈ ls ->
  exists o, h !! x = Some o /\ forall src, o <> ORegExp src.
Proof.
  revert v s ls. induction n as [|n IH]; intros v s ls Hv Hx.
  { destruct v; simplify_eq/=; by apply elem_of_nil in Hx. }
  apply unfold_inv in Hv.
  destruct v as [| | | | |l];
    try (destruct Hv as (_ & ->); by apply elem_of_nil in Hx).
  destruct Hv as (n' & [= <-] & Hv).
  destruct (h !! l) as [[ps|es|src]|] eqn:Hl; [| | |done].
  - destruct Hv as (ss & ls0 & Hps & _ & ->).
    apply elem_of_cons in Hx as [->|Hx]; [by eauto|].
    destruct (unfold_props_cells _ _ _ _ _ Hps Hx) as (v & s' & lsv & _ & ? & ?).
    by eapply IH.
  - destruct Hv as (ss & ls0 & Hes & _ & ->).
    apply elem_of_app in Hx as [Hx|Hx].
    2:{ apply list_elem_of_singleton in Hx as ->. by eauto. }
    destruct (unfold_elems_cells _ _ _ _ _ Hes Hx) as (v & s' & lsv & _ & ? & ?).
    by eapply IH.
  - destruct Hv as (_ & ->). by apply elem_of_nil in Hx.
Qed.

Lemma unfold_props_set_parent (f : val -> option (shape * list loc))
    (x : val) (ps : list (string * val)) :
  unfold_props f (set_assoc "parentNode" x ps) = unfold_props f ps.
Proof.
  induction ps as [|[k v] ps IH]; simpl; [done|].
  case_decide as Hk; simpl.
  - by rewrite ?decide_True.
  - by rewrite decide_False, IH.
Qed.

(** A reading does not see the parent links. *)
Lemma unfold_set_parent (n : nat) (h : heap) (l : loc) (x v : val) :
  unfold n (set_field h l "parentNode" x) v = unfold n h v.
Proof.
  revert v. induction n as [|n IH]; intros v; [done|].
  destruct v as [| | | | |l']; try done. simpl.
  pose proof (unfold_props_ext
                (unfold n (set_field h l "parentNode" x)) (unfold n h))
    as Eps.
  pose proof (unfold_elems_ext
                (unfold n (set_field h l "parentNode" x)) (unfold n h))
    as Ees.
  destruct (decide (l' = l)) as [->|Hne].
  - destruct (h !! l) as [[ps|es|src]|] eqn:Hl.
    + rewrite (set_field_same _ _ _ _ _ Hl), unfold_props_set_parent.
      by rewrite Eps.
    + unfold set_field at 1. rewrite Hl, Hl. by rewrite Ees.
    + unfold set_field. by rewrite Hl, Hl.
    + unfold set_field. by rewrite Hl, Hl.
  - rewrite set_field_other by done.
    destruct (h !! l') as [[ps|es|src]|] eqn:Hl'; try done.
    + by rewrite Eps.
    + by rewrite Ees.
Qed.
End UnfoldProofs.

(** ** The cloner *)

Lemma assoc_app {A} (k : string) (ps qs : list (string * A)) :
  assoc k (ps ++ qs) = match assoc k ps with
                       | Some v => Some v
                       | None => assoc k qs
                       end.
Proof.
  induction ps as [|[k' v] ps IH]; simpl; [done|]. by case_decide.
Qed.

Lemma set_assoc_fresh {A} (k : string) (x : A) (ps : list (string * A)) :
  assoc k ps = None -> set_assoc k x ps = ps ++ [(k, x)].
Proof.
  induction ps as [|[k' v] ps IH]; simpl; [done|].
  case_decide; [done|]. intros H1. by rewrite IH.
Qed.

Lemma assoc_None_keys {A} (k : string) (ps : list (string * A)) :
  k ∉ ps.*1 -> assoc k ps = None.
Proof.
  induction ps as [|[k' v] ps IH]; simpl; [done|].
  rewrite not_elem_of_cons. intros [Hne Hk].
  rewrite decide_False by done. by apply IH.
Qed.

Lemma seq_join (a b c : nat) :
  a <= b -> b <= c -> seq a (b - a) ++ seq b (c - b) = seq a (c - a).
Proof.
  intros. replace (c - a) with ((b - a) + (c - b)) by lia.
  rewrite seq_app. do 2 f_equal. lia.
Qed.

Lemma seq_snoc (a b : nat) :
  a <= b -> seq a (b - a) ++ [b] = seq a (b + 1 - a).
Proof.
  intros. rewrite <- (seq_join a b (b + 1)) by lia.
  by replace (b + 1 - b) with 1 by lia.
Qed.

Lemma prefix_insert_ge (h0 h : heap) (i : nat) (o : obj) :
  h0 `prefix_of` h -> length h0 <= i -> h0 `prefix_of` <[i := o]> h.
Proof.
  intros [k ->] Hi. rewrite insert_app_r_alt by done. by apply prefix_app_r.
Qed.

Lemma prefix_lookup_lt (h0 h : heap) (x : loc) :
  h0 `prefix_of` h -> x < length h0 -> h !! x = h0 !! x.
Proof. intros [k ->] Hx. by apply lookup_app_l. Qed.

Lemma prefix_alloc (h : heap) (o : obj) : h `prefix_of` h ++ [o].
Proof. by apply prefix_app_r. Qed.

Module ClonerProofs.

Lemma cloneable_SObj (ps : list (string * shape)) :
  cloneable (SObj ps)
  = bool_decide (NoDup ps.*1)
    && forallb (fun kv => field_cloneable kv.2) ps.
Proof.
  simpl. f_equal. induction ps as [|[k v] ps IH]; [done|].
  simpl. by rewrite IH.
Qed.

Lemma unfold_props_keys (f : val -> option (shape * list loc))
    (ps : list (string * val)) (ss : list (string * shape))
    (ls : list loc) (k : string) (v : val) :
  unfold_props f ps = Some (ss, ls) ->
  (k, v) ∈ ps -> k <> "parentNode" -> k ∈ ss.*1.
Proof.
  revert ss ls. induction ps as [|[k' v'] ps IH]; intros ss ls.
  { by intros _ ?%elem_of_nil. }
  simpl. case_decide as Hk.
  - intros Hps [[= -> ->]|Hin]%elem_of_cons Hne; [done|]. by eapply IH.
  - destruct (f v') as [[s lsv]|]; [|done].
    destruct (unfold_props f ps) as [[ss' ls']|] eqn:Hps; [|done].
    intros [= <- <-] [[= -> ->]|Hin]%elem_of_cons Hne; [by left|].
    right. by eapply IH.
Qed.

Lemma unfold_props_assoc (f : val -> option (shape * list loc))
    (ps : list (string * val)) (ss : list (string * shape))
    (ls : list loc) (k : string) (v : val) :
  unfold_props f ps = Some (ss, ls) -> NoDup ss.*1 ->
  (k, v) ∈ ps -> k <> "parentNode" -> assoc k ps = Some v.
Proof.
  revert ss ls. induction ps as [|[k' v'] ps IH]; intros ss ls.
  { by intros _ _ ?%elem_of_nil. }
  simpl. case_decide as Hk.
  - intros Hps Hnd [[= -> ->]|Hin]%elem_of_cons Hne; [done|].
    rewrite decide_False by congruence. by eapply IH.
  - destruct (f v') as [[s lsv]|]; [|done].
    destruct (unfold_props f ps) as [[ss' ls']|] eqn:Hps; [|done].
    intros [= <- <-] [Hk' Hnd]%NoDup_cons [[= -> ->]|Hin]%elem_of_cons Hne.
    + by rewrite decide_True.
    + rewrite decide_False; [by eapply IH|].
      intros ->. apply Hk'. by eapply unfold_props_keys.
Qed.

Lemma unfold_props_app (f : val -> option (shape * list loc))
    (ps qs : list (string * val)) (sp sq : list (string * shape))
    (lp lq : list loc) :
  unfold_props f ps = Some (sp, lp) ->
  unfold_props f qs = Some (sq, lq) ->
  unfold_props f (ps ++ qs) = Some (sp ++ sq, lp ++ lq).
Proof.
  revert sp lp. induction ps as [|[k v] ps IH]; intros sp lp.
  { by intros [= <- <-]. }
  simpl. case_decide; [by apply IH|].
  destruct (f v) as [[s lsv]|]; [|done].
  destruct (unfold_props f ps) as [[ss' ls']|] eqn:Hps; [|done].
  intros [= <- <-] Hq. rewrite (IH _ _ eq_refl Hq).
  by rewrite <- app_assoc.
Qed.

Lemma fresh_no_parent_trans (h h1 h2 : heap) :
  h `prefix_of` h1 -> h1 `prefix_of` h2 ->
  fresh_no_parent h h1 -> fresh_no_parent h1 h2 -> fresh_no_parent h h2.
Proof.
  intros P1 P2 F1 F2 x ps Hx Hcell.
  destruct (decide (x < length h1)) as [Hlt|Hge].
  - apply (F1 x); [done|]. by rewrite <- (prefix_lookup_lt _ _ _ P2 Hlt).
  - apply (F2 x); [lia|done].
Qed.

Lemma fresh_no_parent_refl (h : heap) : fresh_no_parent h h.
Proof. intros x ps Hx Hcell. apply lookup_lt_Some in Hcell. lia. Qed.

Lemma copies_elems (copy : val -> M val) (n : nat) :
  copies node_cloneable copy n ->
  forall es h ss ls,
    unfold_elems (unfold n h) es = Some (ss, ls) ->
    forallb node_cloneable ss = true ->
    exists rs h',
      map_each copy es h = Ok rs h'
      /\ h `prefix_of` h'
      /\ unfold_elems (unfold n h') rs
         = Some (ss, seq (length h) (length h' - length h))
      /\ fresh_no_parent h h'.
Proof.
  intros Hcopy. induction es as [|e es IH]; intros h ss ls.
  { intros [= <- <-] _. exists [], h. rewrite Nat.sub_diag.
    split; [done|]. split; [done|]. split; [done|].
    apply fresh_no_parent_refl. }
  simpl. destruct (unfold n h e) as [[s lse]|] eqn:He; [|done].
  destruct (unfold_elems _ es) as [[ss' ls']|] eqn:Hes; [|done].
  intros [= <- <-] [Hs Hss]%andb_prop.
  destruct (Hcopy _ _ _ _ He Hs) as (e' & h1 & Hrun & P1 & He' & F1).
  assert (unfold_elems (unfold n h1) es = Some (ss', ls')) as Hes1.
  { eapply UnfoldProofs.unfold_elems_impl; [done|].
    intros v s' lsv _ Hv _. by eapply UnfoldProofs.unfold_prefix. }
  destruct (IH _ _ _ Hes1 Hss) as (rs & h2 & Hrun2 & P2 & Hrs & F2).
  exists (e' :: rs), h2.
  rewrite (bind_Ok _ _ _ _ _ Hrun), (bind_Ok _ _ _ _ _ Hrun2).
  split; [done|]. split; [by etrans|].
  split; [|by eapply fresh_no_parent_trans].
  simpl. rewrite (UnfoldProofs.unfold_prefix _ _ _ _ _ P2 He'), Hrs.
  pose proof (prefix_length _ _ P1). pose proof (prefix_length _ _ P2).
  by rewrite seq_join.
Qed.

Lemma copies_value (copy : val -> M val) (n : nat) :
  copies node_cloneable copy n ->
  (forall n', n = S n' -> copies node_cloneable copy n') ->
  copies field_cloneable (NodeUtils.clonedValue copy) n.
Proof.
  intros Hn Hpred h v s ls Hv Hok.
  assert (forall s0, unfold n h v = Some (s0, []) ->
            NodeUtils.clonedValue copy v h = Ok v h ->
            exists v' h',
              NodeUtils.clonedValue copy v h = Ok v' h'
              /\ h `prefix_of` h'
              /\ unfold n h' v'
                 = Some (s0, seq (length h) (length h' - length h))
              /\ fresh_no_parent h h') as Hsame.
  { intros s0 Hs0 Hrun. exists v, h. rewrite Nat.sub_diag.
    split; [done|]. split; [done|]. split; [done|].
    apply fresh_no_parent_refl. }
  destruct v as [| | | | |l].
  1-5: destruct n; simplify_eq/=; by apply Hsame.
  destruct n as [|n]; [done|]. simpl in Hv.
  destruct (h !! l) as [[ps|es|src]|] eqn:Hl; [| | |done].
  - (* a structured value *)
    destruct (unfold_props _ ps) as [[ss ls']|] eqn:Hps; [|done].
    injection Hv as <- <-.
    destruct (Hn h (VRef l) (SObj ss) (l :: ls')) as (v' & h' & Hrun & ?);
      [by simpl; rewrite Hl, Hps|done|].
    exists v', h'. split; [|done].
    unfold NodeUtils.clonedValue, bind, isRegExp, isArray. simpl.
    by repeat (rewrite Hl; simpl).
  - (* a sequence *)
    destruct (unfold_elems _ es) as [[ss ls']|] eqn:Hes; [|done].
    injection Hv as <- <-. simpl in Hok.
    destruct (copies_elems copy n (Hpred n eq_refl) _ _ _ _ Hes Hok)
      as (rs & h1 & Hrun & P1 & Hrs & F1).
    exists (VRef (length h1)), (h1 ++ [OArr rs]).
    pose proof (prefix_length _ _ P1) as Hlen.
    split.
    { unfold NodeUtils.clonedValue, bind, isRegExp, isArray. simpl.
      repeat (rewrite Hl; simpl).
      unfold array_map, array_elems, bind. rewrite Hl.
      by rewrite Hrun. }
    split; [by etrans; [|apply prefix_alloc]|].
    split.
    { simpl. rewrite lookup_alloc.
      erewrite UnfoldProofs.unfold_elems_impl; [|done|].
      - rewrite length_app. simpl. by rewrite seq_snoc.
      - intros v s lsv _ Hv _.
        eapply UnfoldProofs.unfold_prefix; [apply prefix_alloc|done]. }
    intros x ps Hx Hcell.
    destruct (decide (x < length h1)) as [Hlt|Hge].
    + apply (F1 x); [done|]. by rewrite lookup_app_l in Hcell.
    + apply lookup_lt_Some in Hcell as Hlt. rewrite length_app in Hlt.
      simpl in Hlt. replace x with (length h1) in Hcell by lia.
      by rewrite lookup_alloc in Hcell.
  - (* a regular expression *)
    injection Hv as <- <-. apply Hsame; [by simpl; rewrite Hl|].
    unfold NodeUtils.clonedValue, bind, isRegExp. simpl. by rewrite Hl.
Qed.

Section Loop.
Variable copy : val -> M val.
Variable n : nat.
Hypothesis copy_value :
  copies field_cloneable (NodeUtils.clonedValue copy) n.
Variable h0 : heap.
Variable l : loc.
Variable ps : list (string * val).
Hypothesis source : h0 !! l = Some (OObj ps).

Local Abbreviation N := (length h0).

(** The body of the loop over the keys of the node in cell [l], with
    the copy in cell [N]. *)
Local Abbreviation body :=
  (fun property : string =>
     if decide (property = "parentNode") then ret tt
     else
       let* value := get (VRef l) property in
       let* cloned := NodeUtils.clonedValue copy value in
       set (VRef N) property cloned).

Lemma clone_loop (ps2 : list (string * val)) :
  forall hc acc ss1 k1 ss2 ls2,
    h0 `prefix_of` hc ->
    hc !! N = Some (OObj acc) ->
    length hc = N + 1 + k1 ->
    unfold_props (unfold n hc) acc = Some (ss1, seq (N + 1) k1) ->
    assoc "parentNode" acc = None ->
    (forall k, k ∈ ss2.*1 -> assoc k acc = None) ->
    (forall k v, (k, v) ∈ ps2 -> k <> "parentNode" ->
                 assoc k ps = Some v) ->
    NoDup ss2.*1 ->
    unfold_props (unfold n h0) ps2 = Some (ss2, ls2) ->
    forallb (fun kv => field_cloneable kv.2) ss2 = true ->
    fresh_no_parent h0 hc ->
    exists h' acc' k,
      forEach body ps2.*1 hc = Ok tt h'
      /\ h0 `prefix_of` h'
      /\ h' !! N = Some (OObj acc')
      /\ length h' = N + 1 + k
      /\ unfold_props (unfold n h') acc' = Some (ss1 ++ ss2, seq (N + 1) k)
      /\ fresh_no_parent h0 h'.
Proof.
  induction ps2 as [|[k v] ps2 IH];
    intros hc acc ss1 k1 ss2 ls2 Hpre Hcopy Hlen Hacc Hnp Hfresh Hget
      Hnd Hps2 Hok Hfp.
  { injection Hps2 as <- <-. exists hc, acc, k1.
    by rewrite app_nil_r. }
  simpl in Hps2. cbn [fmap list_fmap forEach fst].
  case_decide as Hk.
  { (* the parent link is left out *)
    norm. eapply IH; try done.
    intros k' v' Hin. apply Hget. by right. }
  destruct (unfold n h0 v) as [[sv lsv]|] eqn:Hv; [|done].
  destruct (unfold_props _ ps2) as [[ss2' ls2']|] eqn:Hrest; [|done].
  injection Hps2 as <- <-.
  apply andb_prop in Hok as [Hokv Hok]. simpl in Hokv.
  apply NoDup_cons in Hnd as [Hknew Hnd].
  assert (hc !! l = Some (OObj ps)) as Hsrc
    by by eapply prefix_lookup_Some.
  pose proof (UnfoldProofs.unfold_prefix _ _ _ _ _ Hpre Hv) as Hv'.
  destruct (copy_value _ _ _ _ Hv' Hokv)
    as (v' & hc1 & Hrun & P1 & Hv1 & F1).
  pose proof (prefix_length _ _ P1) as Hlen1.
  assert (hc1 !! N = Some (OObj acc)) as Hcopy1
    by by eapply prefix_lookup_Some.
  assert (set_assoc k v' acc = acc ++ [(k, v')]) as Hset.
  { apply set_assoc_fresh, Hfresh. by left. }
  set (hc2 := <[N := OObj (acc ++ [(k, v')])]> hc1).
  assert (forall x o, hc1 !! x = Some o -> x <> N -> hc2 !! x = Some o)
    as Hother.
  { intros x o Hx Hne. unfold hc2. by rewrite list_lookup_insert_ne. }
  destruct (IH hc2 (acc ++ [(k, v')]) (ss1 ++ [(k, sv)])
              (k1 + (length hc1 - length hc)) ss2' ls2')
    as (h' & acc' & k' & Hloop & ? & ? & ? & Hacc' & ?).
  - apply prefix_insert_ge; [by etrans|done].
  - unfold hc2. apply list_lookup_insert_eq. lia.
  - unfold hc2. rewrite length_insert. lia.
  - replace (seq (N + 1) (k1 + (length hc1 - length hc)))
      with (seq (N + 1) k1
            ++ (seq (length hc) (length hc1 - length hc) ++ [])).
    2:{ rewrite app_nil_r, seq_app. do 2 f_equal. lia. }
    apply unfold_props_app.
    + eapply UnfoldProofs.unfold_props_impl; [done|].
      intros kf vf sf lsf _ Hf Hsub.
      eapply UnfoldProofs.unfold_frame; [done|].
      intros x o Hx Hor. apply Hother; [by eapply prefix_lookup_Some|].
      destruct Hor as [Hin|[src ->]]; [|congruence].
      apply Hsub, elem_of_seq in Hin. lia.
    + simpl. rewrite decide_False by done.
      erewrite UnfoldProofs.unfold_frame; [done|done|].
      intros x o Hx Hor. apply Hother; [done|].
      destruct Hor as [Hin|[src ->]]; [|congruence].
      apply elem_of_seq in Hin. lia.
  - rewrite assoc_app, Hnp. simpl. by rewrite decide_False.
  - intros k2 Hk2. rewrite assoc_app, Hfresh by by right.
    simpl. rewrite decide_False; [done|]. by intros ->.
  - intros k2 v2 Hin. apply Hget. by right.
  - done.
  - done.
  - done.
  - intros x qs Hx Hcell. destruct (decide (x = N)) as [->|Hne].
    + unfold hc2 in Hcell. rewrite list_lookup_insert_eq in Hcell by lia.
      injection Hcell as <-. rewrite assoc_app, Hnp. simpl.
      by rewrite decide_False.
    + unfold hc2 in Hcell. rewrite list_lookup_insert_ne in Hcell by done.
      destruct (decide (x < length hc)) as [Hlt|Hge].
      * apply (Hfp x); [done|].
        by rewrite <- (prefix_lookup_lt _ _ _ P1 Hlt).
      * apply (F1 x); [lia|done].
  - exists h', acc', k'. split; [|by rewrite <- app_assoc in Hacc'].
    norm.
    rewrite (bind_Ok _ _ _ _ _ (get_cell _ _ _ _ Hsrc)).
    rewrite (Hget k v) by (by left || done). cbn [default from_option id].
    norm. rewrite (bind_Ok _ _ _ _ _ Hrun).
    rewrite (bind_Ok _ _ _ _ _ (set_cell _ _ _ _ _ Hcopy1)).
    by rewrite Hset.
Qed.
End Loop.

Lemma object_keys_cell (h : heap) (l : loc) (ps : list (string * val)) :
  h !! l = Some (OObj ps) -> object_keys (VRef l) h = Ok ps.*1 h.
Proof. intros Hl. unfold object_keys, own_props. by rewrite Hl. Qed.

(** The recursive copy: a node, or [null], read down to depth [n], is
    copied by a run of depth [m] whenever [n <= m]. *)
Lemma cloneRecursive_copies (n : nat) :
  forall m, n <= m -> copies node_cloneable (NodeUtils.cloneRecursive m) n.
Proof.
  induction n as [n IH] using lt_wf_ind. intros m Hm h v s ls Hv Hok.
  destruct v as [| | | | |l].
  1,3-5: destruct n; simplify_eq/=.
  { (* null *)
    assert (s = SNull /\ ls = []) as [-> ->]
      by (destruct n; by simplify_eq/=).
    exists VNull, h. rewrite Nat.sub_diag.
    split; [by destruct m|]. split; [done|].
    split; [by destruct n|]. apply fresh_no_parent_refl. }
  destruct n as [|n]; [done|]. destruct m as [|m]; [lia|].
  simpl in Hv.
  destruct (h !! l) as [[ps|es|src]|] eqn:Hl; [| | |done].
  2:{ destruct (unfold_elems _ es) as [[ss ls']|]; by simplify_eq/=. }
  2:{ by simplify_eq/=. }
  destruct (unfold_props _ ps) as [[ss ls']|] eqn:Hps; [|done].
  injection Hv as <- <-. simpl in Hok.
  change (cloneable (SObj ss) = true) in Hok.
  rewrite cloneable_SObj in Hok.
  apply andb_prop in Hok as [Hnd%bool_decide_eq_true Hok].
  assert (copies field_cloneable
            (NodeUtils.clonedValue (NodeUtils.cloneRecursive m)) n)
    as Hvalue.
  { apply copies_value.
    - apply IH; lia.
    - intros n' ->. apply IH; lia. }
  destruct (clone_loop _ _ Hvalue h l ps Hl ps (h ++ [OObj []]) [] [] 0
              ss ls')
    as (h' & acc' & k & Hloop & Hpre & Hcopy & Hlen & Hacc & Hfp).
  - apply prefix_alloc.
  - apply lookup_alloc.
  - rewrite length_app. simpl. lia.
  - done.
  - done.
  - done.
  - intros k v Hin Hne. by eapply unfold_props_assoc.
  - done.
  - done.
  - done.
  - intros x qs Hx Hcell. apply lookup_lt_Some in Hcell as Hlt.
    rewrite length_app in Hlt. simpl in Hlt.
    replace x with (length h) in Hcell by lia.
    rewrite lookup_alloc in Hcell. by injection Hcell as <-.
  - exists (VRef (length h)), h'. split.
    { cbn [NodeUtils.cloneRecursive]. rewrite bind_alloc. norm.
      erewrite bind_Ok
        by by apply object_keys_cell, lookup_alloc_old.
      norm. by rewrite (bind_Ok _ _ _ _ _ Hloop). }
    split; [done|]. split; [|done].
    simpl. rewrite Hcopy, Hacc. simpl.
    replace (length h' - length h) with (S k) by lia.
    simpl. by rewrite Nat.add_1_r.
Qed.

Lemma assoc_None_elem {A} (k : string) (ps : list (string * A)) :
  assoc k ps = None -> forall kv, kv ∈ ps -> kv.1 <> k.
Proof.
  induction ps as [|[k' v] ps IH]; simpl.
  { by intros _ kv ?%elem_of_nil. }
  case_decide; [done|]. intros Hps kv [->|Hin]%elem_of_cons; [done|].
  by apply IH.
Qed.

Lemma readings_elems (R : val -> val -> Prop)
    (f g : val -> option (shape * list loc)) (es : list val) :
  forall es' ss ls ls',
    unfold_elems f es = Some (ss, ls) ->
    unfold_elems g es' = Some (ss, ls') ->
    (forall e e' s le le',
        f e = Some (s, le) -> g e' = Some (s, le') ->
        (forall x, x ∈ le' -> x ∈ ls') -> R e e') ->
    Forall2 R es es'.
Proof.
  induction es as [|e es IH]; intros es' ss ls ls'.
  { intros [= <- <-]. destruct es' as [|e' es']; [done|]. simpl.
    destruct (g e') as [[??]|]; [|done].
    by destruct (unfold_elems g es') as [[??]|]. }
  simpl. destruct (f e) as [[s le]|] eqn:He; [|done].
  destruct (unfold_elems f es) as [[ss0 ls0]|] eqn:Hes; [|done].
  intros [= <- <-]. destruct es' as [|e' es']; [done|]. simpl.
  destruct (g e') as [[s' le']|] eqn:He'; [|done].
  destruct (unfold_elems g es') as [[ss0' ls0']|] eqn:Hes'; [|done].
  intros [= -> -> <-] HR. constructor.
  - eapply HR; [done..|]. set_solver.
  - eapply IH; [done..|]. intros e1 e1' s1 l1 l1' ? ? Hsub.
    eapply HR; [done..|]. set_solver.
Qed.

Lemma readings_props (R : val -> val -> Prop)
    (f g : val -> option (shape * list loc)) (ps : list (string * val)) :
  forall ps' ss ls ls',
    unfold_props f ps = Some (ss, ls) ->
    unfold_props g ps' = Some (ss, ls') ->
    (forall kv, kv ∈ ps' -> kv.1 <> "parentNode") ->
    (forall e e' s le le',
        f e = Some (s, le) -> g e' = Some (s, le') ->
        (forall x, x ∈ le' -> x ∈ ls') -> R e e') ->
    Forall2 (fun kv kv' => kv.1 = kv'.1 /\ R kv.2 kv'.2)
      (filter (fun kv => kv.1 <> "parentNode") ps) ps'.
Proof.
  induction ps as [|[k v] ps IH]; intros ps' ss ls ls'.
  { intros [= <- <-]. destruct ps' as [|[k' v'] ps']; [done|]. simpl.
    intros Hps' Hnp. rewrite decide_False in Hps'
      by (apply (Hnp (k', v')); by left).
    destruct (g v') as [[??]|]; [|done].
    by destruct (unfold_props g ps') as [[??]|]. }
  simpl. rewrite filter_cons. simpl. case_decide as Hk.
  { rewrite decide_False by by intros []. by apply IH. }
  rewrite decide_True by done.
  destruct (f v) as [[s le]|] eqn:Hv; [|done].
  destruct (unfold_props f ps) as [[ss0 ls0]|] eqn:Hps; [|done].
  intros [= <- <-]. destruct ps' as [|[k' v'] ps']; [done|]. simpl.
  intros Hps' Hnp. rewrite decide_False in Hps'
    by (apply (Hnp (k', v')); by left).
  destruct (g v') as [[s' le']|] eqn:Hv'; [|done].
  destruct (unfold_props g ps') as [[ss0' ls0']|] eqn:Hps0'; [|done].
  injection Hps' as -> -> -> <-. intros HR. constructor.
  - split; [done|]. eapply HR; [done..|]. set_solver.
  - eapply IH; [done..| |].
    + intros kv Hin. apply Hnp. by right.
    + intros e1 e1' s1 l1 l1' ? ? Hsub. eapply HR; [done..|]. set_solver.
Qed.

(** Two values that read alike, the second through new cells only, are
    an original and its copy. *)
Lemma reading_value (n : nat) (h : heap) (v : val) (s : shape)
    (ls : list loc) :
  unfold n h v = Some (s, ls) ->
  match s with
  | SUndef => v = VUndef
  | SNull => v = VNull
  | SBool b => v = VBool b
  | SNum x => v = VNum x
  | SStr t => v = VStr t
  | SRegExp l => v = VRef l /\ exists src, h !! l = Some (ORegExp src)
  | SArr ss =>
      exists l es ls0 n',
        v = VRef l /\ h !! l = Some (OArr es) /\ n = S n'
        /\ unfold_elems (unfold n' h) es = Some (ss, ls0)
        /\ ls = ls0 ++ [l]
  | SObj ss =>
      exists l ps ls0 n',
        v = VRef l /\ h !! l = Some (OObj ps) /\ n = S n'
        /\ unfold_props (unfold n' h) ps = Some (ss, ls0)
        /\ ls = l :: ls0
  end.
Proof.
  intros Hv%UnfoldProofs.unfold_inv.
  destruct v as [| | | | |l]; try (by destruct Hv as [-> _]).
  destruct Hv as (n' & -> & Hv).
  destruct (h !! l) as [[ps|es|src]|] eqn:Hl; [| | |done].
  - destruct Hv as (ss & ls0 & Hps & -> & ->). eauto 10.
  - destruct Hv as (ss & ls0 & Hps & -> & ->). eauto 10.
  - destruct Hv as (-> & _). eauto.
Qed.

(** Two values that read alike, the second through new cells only, are
    an original and its copy. *)
Lemma copied_of_readings (n : nat) (h h' : heap) :
  fresh_no_parent h h' ->
  forall v v' s ls ls',
    unfold n h v = Some (s, ls) ->
    unfold n h' v' = Some (s, ls') ->
    (forall x, x ∈ ls' -> length h <= x) ->
    copied h h' v v'.
Proof.
  intros Hfp. induction n as [|n IH]; intros v v' s ls ls' Hv Hv' Hnew.
  { destruct v, v'; simplify_eq/=; try by apply copied_scalar.
    apply copied_null. }
  apply reading_value in Hv, Hv'.
  destruct s as [| |b|x|t|r|ss|ss]; simplify_eq;
    try (by apply copied_scalar); try apply copied_null.
  - (* a regular expression *)
    destruct Hv as (-> & src & Hr), Hv' as (-> & _).
    by eapply copied_regexp.
  - (* a sequence *)
    destruct Hv as (l & es & ls0 & n1 & -> & Hl & [= <-] & Hes & ->).
    destruct Hv' as (l' & es' & ls0' & n1 & -> & Hl' & [= <-] & Hes' & ->).
    assert (length h <= l') as Hfresh by (apply Hnew; set_solver).
    eapply copied_sequence; [done|by apply lookup_ge_None|done|].
    eapply readings_elems; [done..|].
    intros e e' s le le' He He' Hsub. eapply IH; [done..|].
    intros x Hx. apply Hnew. apply elem_of_app. left. by apply Hsub.
  - (* a structured value *)
    destruct Hv as (l & ps & ls0 & n1 & -> & Hl & [= <-] & Hps & ->).
    destruct Hv' as (l' & ps' & ls0' & n1 & -> & Hl' & [= <-] & Hps' & ->).
    assert (length h <= l') as Hfresh by (apply Hnew; by left).
    eapply copied_structured; [done|by apply lookup_ge_None|done|].
    eapply readings_props; [done..| |].
    + apply assoc_None_elem. by eapply Hfp.
    + intros e e' s le le' He He' Hsub. eapply IH; [done..|].
      intros x Hx. apply Hnew. right. by apply Hsub.
Qed.

(** What the recursive copy of a node gives, for the use of the two
    theorems on the cloner. *)
Lemma cloneRecursive_node (fuel n : nat) (h : heap) (l : loc) (s : shape)
    (ls : list loc) :
  unfold n h (VRef l) = Some (s, ls) ->
  is_obj h l ->
  cloneable s = true ->
  n <= fuel ->
  exists l' h',
    NodeUtils.cloneRecursive fuel (VRef l) h = Ok (VRef l') h'
    /\ h `prefix_of` h'
    /\ unfold n h' (VRef l')
       = Some (s, seq (length h) (length h' - length h))
    /\ fresh_no_parent h h'
    /\ is_obj h' l'.
Proof.
  intros Hv [ps Hl] Hok Hfuel.
  pose proof (reading_value _ _ _ _ _ Hv) as Hs.
  destruct s as [| | | | |r|ss|ss]; try done.
  { destruct Hs as ([= <-] & src & Hr). congruence. }
  destruct (cloneRecursive_copies n fuel Hfuel h (VRef l) _ _ Hv Hok)
    as (v' & h' & Hrun & Hpre & Hv' & Hfp).
  pose proof (reading_value _ _ _ _ _ Hv')
    as (l' & ps' & ls0 & n' & -> & Hl' & _).
  exists l', h'. repeat split; try done. by exists ps'.
Qed.

(** Where every sequence of a node holds nodes or [null], the copy of
    the node follows the copy rule, field by field and without the
    parent link: [null] and regular expressions by reference, sequences
    element by element, structured values recursively, scalars by value.
    The copy reads as the original does, and the two are independent:
    overwriting any object or sequence of the copy leaves the original
    as it reads, and overwriting any object or sequence of the original
    leaves the copy as it reads. *)
Theorem clone_copies_fields (fuel n : nat) (h : heap) (l : loc)
    (s : shape) (ls : list loc)
    (Hnode : unfold n h (VRef l) = Some (s, ls))
    (Hobj : is_obj h l)
    (Htree : cloneable s = true)
    (Hfuel : n <= fuel) :
  exists l' h' ls',
    NodeUtils.cloneRecursive fuel (VRef l) h = Ok (VRef l') h'
    /\ copied h h' (VRef l) (VRef l')
    /\ h `prefix_of` h'
    /\ unfold n h' (VRef l) = Some (s, ls)
    /\ unfold n h' (VRef l') = Some (s, ls')
    /\ (forall x o, x ∈ ls' ->
          unfold n (<[x := o]> h') (VRef l) = Some (s, ls))
    /\ (forall x o, x ∈ ls ->
          unfold n (<[x := o]> h') (VRef l') = Some (s, ls')).
Proof.
  destruct (cloneRecursive_node _ _ _ _ _ _ Hnode Hobj Htree Hfuel)
    as (l' & h' & Hrun & Hpre & Hv' & Hfp & _).
  pose proof (UnfoldProofs.unfold_prefix _ _ _ _ _ Hpre Hnode) as Hv.
  assert (forall x, x ∈ seq (length h) (length h' - length h) ->
                    length h <= x) as Hnew.
  { intros x Hx%elem_of_seq. lia. }
  assert (forall x, x ∈ ls -> x < length h) as Hold.
  { intros x Hx.
    destruct (UnfoldProofs.unfold_cells _ _ _ _ _ _ Hnode Hx) as (o & Ho & _).
    by eapply lookup_lt_Some. }
  exists l', h', (seq (length h) (length h' - length h)).
  split; [done|].
  split; [by eapply copied_of_readings|].
  split; [done|]. split; [done|]. split; [done|].
  split.
  - intros x o Hx. eapply UnfoldProofs.unfold_frame; [done|].
    intros y o' Hy Hor. rewrite list_lookup_insert_ne; [done|].
    intros ->. destruct Hor as [Hin|[src ->]].
    + apply Hold in Hin. apply Hnew in Hx. lia.
    + destruct (UnfoldProofs.unfold_cells _ _ _ _ _ _ Hv' Hx)
        as (o' & Ho' & Hne).
      rewrite Hy in Ho'. injection Ho' as <-. by eapply Hne.
  - intros x o Hx. eapply UnfoldProofs.unfold_frame; [done|].
    intros y o' Hy Hor. rewrite list_lookup_insert_ne; [done|].
    intros ->. destruct Hor as [Hin|[src ->]].
    + apply Hold in Hx. apply Hnew in Hin. lia.
    + destruct (UnfoldProofs.unfold_cells _ _ _ _ _ _ Hv Hx)
        as (o' & Ho' & Hne).
      rewrite Hy in Ho'. injection Ho' as <-. by eapply Hne.
Qed.
End ClonerProofs.

(** ** The walk of a tree that is read from the store *)

Lemma concat_mjoin {A} (ls : list (list A)) : concat ls = mjoin ls.
Proof. induction ls as [|l ls IH]; simpl; [done|]. by rewrite IH. Qed.

Lemma submseteq_NoDup {A} (l k : list A) : l ⊆+ k -> NoDup k -> NoDup l.
Proof.
  intros [k' Hk]%submseteq_Permutation Hnd. rewrite Hk in Hnd.
  by apply NoDup_app in Hnd as [? _].
Qed.

Lemma Forall2_concat {A B} (R : A -> B -> Prop) (xss : list (list A))
    (yss : list (list B)) :
  Forall2 (Forall2 R) xss yss -> Forall2 R (concat xss) (concat yss).
Proof.
  induction 1 as [|xs ys xss yss H1 H2 IH]; simpl; [done|].
  by apply Forall2_app.
Qed.

Module WalkReading.

(** The cells of the fields that a list of keys selects lie, with
    multiplicity, among the cells of all fields. *)
Lemma submseteq_by_keys (f : val -> option (shape * list loc))
    (props : list (string * val)) :
  forall ss lss (kps : list (string * list loc)),
    unfold_props f props = Some (ss, lss) ->
    NoDup kps.*1 ->
    (forall k P, (k, P) ∈ kps ->
       k <> "parentNode"
       /\ match assoc k props with
          | Some v => exists sv lsv, f v = Some (sv, lsv) /\ P ⊆+ lsv
          | None => P = []
          end) ->
    concat kps.*2 ⊆+ lss.
Proof.
  induction props as [|[k0 v0] props IH]; intros ss lss kps Hps Hnd Hk.
  { injection Hps as <- <-. apply submseteq_nil_r.
    rewrite concat_mjoin. apply join_nil_2, Forall_forall.
    intros P (kP & -> & Hin)%list_elem_of_fmap. destruct kP as [k P].
    by destruct (Hk _ _ Hin) as [_ ->]. }
  simpl in Hps. case_decide as Hk0.
  { apply (IH ss lss); [done..|]. intros k P Hin.
    destruct (Hk _ _ Hin) as [Hne HP]. split; [done|].
    simpl in HP. by rewrite decide_False in HP by congruence. }
  destruct (f v0) as [[s0 l0]|] eqn:Hv0; [|done].
  destruct (unfold_props f props) as [[ss' lss']|] eqn:Hrest; [|done].
  injection Hps as <- <-.
  destruct (decide (k0 ∈ kps.*1)) as [Hin|Hout].
  - apply list_elem_of_fmap in Hin as ([k P0] & Heq & Hin).
    simpl in Heq. subst k.
    pose proof Hin as [kps0 Hperm]%elem_of_Permutation.
    rewrite concat_mjoin, Hperm. rewrite Hperm in Hnd.
    simpl in Hnd. apply NoDup_cons in Hnd as [Hk0' Hnd].
    simpl. rewrite <- concat_mjoin. apply submseteq_app.
    + destruct (Hk _ _ Hin) as [_ HP]. simpl in HP.
      rewrite decide_True in HP by done.
      destruct HP as (sv & lsv & Hf & HP). rewrite Hv0 in Hf.
      by injection Hf as <- <-.
    + apply (IH ss' lss'); [done..|]. intros k P Hin'.
      destruct (Hk k P) as [Hne HP]; [rewrite Hperm; by right|].
      split; [done|]. simpl in HP. rewrite decide_False in HP; [done|].
      intros <-. apply Hk0'. apply list_elem_of_fmap. by exists (k0, P).
  - apply submseteq_inserts_l. apply (IH ss' lss'); [done..|].
    intros k P Hin. destruct (Hk _ _ Hin) as [Hne HP]. split; [done|].
    simpl in HP. rewrite decide_False in HP; [done|].
    intros <-. apply Hout. apply list_elem_of_fmap. by exists (k0, P).
Qed.

Lemma unfold_props_lookup (f : val -> option (shape * list loc))
    (props : list (string * val)) (k : string) :
  forall ss lss,
    unfold_props f props = Some (ss, lss) ->
    k <> "parentNode" ->
    match assoc k props with
    | Some v => exists sv lsv, f v = Some (sv, lsv) /\ assoc k ss = Some sv
    | None => assoc k ss = None
    end.
Proof.
  induction props as [|[k0 v0] props IH]; intros ss lss Hps Hk.
  { by injection Hps as <- <-. }
  simpl in Hps. simpl. case_decide as Hk0.
  { rewrite decide_False by congruence. by eapply IH. }
  destruct (f v0) as [[s0 l0]|] eqn:Hv0; [|done].
  destruct (unfold_props f props) as [[ss' lss']|] eqn:Hrest; [|done].
  injection Hps as <- <-. simpl. case_decide; [by eauto|].
  by eapply IH.
Qed.

Lemma assoc_Some_elem {A} (k : string) (v : A) (ps : list (string * A)) :
  assoc k ps = Some v -> (k, v) ∈ ps.
Proof.
  induction ps as [|[k' v'] ps IH]; simpl; [done|].
  case_decide; [intros [= ->]; subst; by left|]. intros. right. by apply IH.
Qed.

Lemma isNode_reading (n : nat) (h : heap) (v : val) (s : shape)
    (ls : list loc) :
  unfold n h v = Some (s, ls) ->
  estraverse.isNode v h = Ok (is_node_shape s) h.
Proof.
  intros Hv. pose proof (ClonerProofs.reading_value _ _ _ _ _ Hv) as Hs.
  destruct s as [| |b|x|t|r|ss|ss]; simplify_eq; try done.
  - destruct Hs as (-> & src & Hr).
    unfold estraverse.isNode, bind, get, own_props. by rewrite Hr.
  - destruct Hs as (l & es & ls0 & n' & -> & Hl & _).
    unfold estraverse.isNode, bind, get, own_props. rewrite Hl.
    by rewrite (assoc_elems_type es).
  - destruct Hs as (l & ps & ls0 & n' & -> & Hl & -> & Hps & ->).
    unfold estraverse.isNode.
    rewrite (bind_Ok _ _ _ _ _ (get_cell _ _ _ _ Hl)).
    pose proof (unfold_props_lookup _ _ "type" _ _ Hps) as Ht.
    simpl. destruct (assoc "type" ps) as [v0|].
    + destruct Ht as (sv & lsv & Hv0 & ->); [done|].
      apply ClonerProofs.reading_value in Hv0.
      destruct sv; simplify_eq; try done.
      * by destruct Hv0 as (-> & _).
      * by destruct Hv0 as (? & ? & ? & ? & -> & _).
      * by destruct Hv0 as (? & ? & ? & ? & -> & _).
    + by rewrite Ht.
Qed.

Lemma node_or_nothing_reading (n : nat) (h : heap) (v : val) (s : shape)
    (ls : list loc) :
  unfold n h v = Some (s, ls) ->
  estraverse.node_or_nothing v h
  = Ok (if is_node_shape s then [v] else []) h.
Proof.
  intros Hv. unfold estraverse.node_or_nothing.
  destruct (truthy v) eqn:Ht.
  - by rewrite (bind_Ok _ _ _ _ _ (isNode_reading _ _ _ _ _ Hv)).
  - apply ClonerProofs.reading_value in Hv.
    destruct s; simplify_eq; try done.
    destruct Hv as (? & ? & ? & ? & Heq & _). by subst.
Qed.

Section Walkable.
Variable VisitorKeys : string -> option (list string).
Hypothesis parent_is_no_child :
  forall t keys, VisitorKeys t = Some keys -> "parentNode" ∉ keys.
Hypothesis keys_distinct :
  forall t keys, VisitorKeys t = Some keys -> NoDup keys.

Local Abbreviation walkable := (Tree.walkable VisitorKeys).
Local Abbreviation walk_field := (Tree.walk_field VisitorKeys).
Local Abbreviation visits := (Tree.visits VisitorKeys).

Lemma walkable_SObj (ss : list (string * shape)) :
  walkable (SObj ss) = true ->
  exists t keys,
    assoc "type" ss = Some (SStr t)
    /\ VisitorKeys t = Some keys
    /\ forall k sv, (k, sv) ∈ ss -> k ∈ keys -> walk_field sv = true.
Proof.
  simpl. destruct (assoc "type" ss) as [[| | | |t| | |]|]; try done.
  destruct (VisitorKeys t) as [keys|] eqn:Hkeys; [|done].
  intros Hall. exists t, keys. split; [done|]. split; [done|].
  intros k sv Hin Hk.
  rewrite forallb_forall in Hall.
  apply list_elem_of_In, Hall in Hin. simpl in Hin.
  rewrite bool_decide_eq_true_2 in Hin by done. by destruct sv.
Qed.

Variable h : heap.
Variable m n : nat.
Hypothesis walk_below :
  forall v s ls q,
    unfold n h v = Some (s, ls) ->
    is_node_shape s = true -> walkable s = true ->
    exists ps, visits m h v q = Some ps /\ ps.*1 ⊆+ ls.

Lemma candidate_visits (v q : val) (s : shape) (ls : list loc) :
  unfold n h v = Some (s, ls) ->
  (if is_node_shape s then walkable s else true) = true ->
  exists cs pss,
    estraverse.node_or_nothing v h = Ok cs h
    /\ Forall2 (fun c psc => visits m h c q = Some psc) cs pss
    /\ (concat pss).*1 ⊆+ ls.
Proof.
  intros Hv Hs. rewrite (node_or_nothing_reading _ _ _ _ _ Hv).
  destruct (is_node_shape s) eqn:Hnode.
  - destruct (walk_below v s ls q Hv Hnode Hs) as (ps & Hps & Hsub).
    exists [v], [ps]. split; [done|]. split; [by repeat constructor|].
    simpl. by rewrite app_nil_r.
  - exists [], []. split; [done|]. split; [done|].
    apply submseteq_nil_l.
Qed.

Lemma elements_visits (q : val) (es : list val) :
  forall ss ls,
    unfold_elems (unfold n h) es = Some (ss, ls) ->
    forallb (fun e => if is_node_shape e then walkable e else true) ss
    = true ->
    exists css pss,
      map_each estraverse.node_or_nothing es h = Ok css h
      /\ Forall2 (fun c psc => visits m h c q = Some psc)
           (concat css) pss
      /\ (concat pss).*1 ⊆+ ls.
Proof.
  induction es as [|e es IH]; intros ss ls.
  { intros [= <- <-] _. exists [], []. by repeat split. }
  simpl. destruct (unfold n h e) as [[s le]|] eqn:He; [|done].
  destruct (unfold_elems _ es) as [[ss' ls']|] eqn:Hes; [|done].
  intros [= <- <-] [Hs Hss]%andb_prop.
  destruct (candidate_visits e q s le He Hs) as (cs & pss1 & Hrun & HR & Hsub).
  destruct (IH _ _ eq_refl Hss) as (css & pss2 & Hrun2 & HR2 & Hsub2).
  exists (cs :: css), (pss1 ++ pss2).
  rewrite (bind_Ok _ _ _ _ _ Hrun), (bind_Ok _ _ _ _ _ Hrun2).
  split; [done|]. split; [by apply Forall2_app|].
  rewrite concat_app, fmap_app. by apply submseteq_app.
Qed.

Lemma key_visits (l : loc) (props : list (string * val))
    (ss : list (string * shape)) (lss : list loc) (k : string) :
  h !! l = Some (OObj props) ->
  unfold_props (unfold n h) props = Some (ss, lss) ->
  k <> "parentNode" ->
  (forall sv, (k, sv) ∈ ss -> walk_field sv = true) ->
  exists cs pss,
    estraverse.key_children (VRef l) k h = Ok cs h
    /\ Forall2 (fun c psc => visits m h c (VRef l) = Some psc) cs pss
    /\ match assoc k props with
       | Some v =>
           exists sv lsv,
             unfold n h v = Some (sv, lsv) /\ (concat pss).*1 ⊆+ lsv
       | None => (concat pss).*1 = []
       end.
Proof.
  intros Hl Hps Hk Hwalk. unfold estraverse.key_children.
  rewrite (bind_Ok _ _ _ _ _ (get_cell _ _ _ _ Hl)).
  pose proof (unfold_props_lookup _ _ k _ _ Hps Hk) as Hlook.
  destruct (assoc k props) as [v|]; simpl.
  2:{ exists [], []. by repeat split. }
  destruct Hlook as (sv & lsv & Hv & Hsv).
  apply assoc_Some_elem, Hwalk in Hsv.
  destruct (truthy v) eqn:Ht.
  2:{ exists [], []. split; [done|]. split; [done|].
      exists sv, lsv. split; [done|]. apply submseteq_nil_l. }
  pose proof (ClonerProofs.reading_value _ _ _ _ _ Hv) as Hs.
  destruct sv as [| |b|x|t|r|ses|css].
  7:{ destruct Hs as (a & es & ls0 & n' & -> & Ha & Hn & Hes & ->).
      assert (isArray (VRef a) h = Ok true h) as Harr
        by (unfold isArray; by rewrite Ha).
      rewrite (bind_Ok _ _ _ _ _ Harr).
      unfold array_elems at 1. unfold bind at 1. rewrite Ha.
      assert (unfold_elems (unfold n h) es = Some (ses, ls0))
        as Hes'.
      { eapply UnfoldProofs.unfold_elems_impl; [done|].
        intros e s le _ He _.
        eapply UnfoldProofs.unfold_mono; [|done]. lia. }
      destruct (elements_visits (VRef l) es _ _ Hes' Hsv)
        as (css & pss & Hrun & HR & Hsub).
      exists (concat css), pss. rewrite (bind_Ok _ _ _ _ _ Hrun).
      split; [done|]. split; [done|].
      eexists _, _. split; [done|]. by apply submseteq_inserts_r. }
  all: assert (isArray v h = Ok false h) as Harr by
    (first [ by subst v
           | destruct Hs as (-> & src & Hr); unfold isArray;
             by rewrite Hr
           | destruct Hs as (c & cps & ls0 & n' & -> & Hc & _);
             unfold isArray; by rewrite Hc ]).
  all: rewrite (bind_Ok _ _ _ _ _ Harr).
  all: destruct (candidate_visits _ (VRef l) _ _ Hv Hsv)
         as (cs & pss & ? & ? & ?); exists cs, pss; by eauto 10.
Qed.

Lemma keys_visits (l : loc) (props : list (string * val))
    (ss : list (string * shape)) (lss : list loc) (keys : list string) :
  h !! l = Some (OObj props) ->
  unfold_props (unfold n h) props = Some (ss, lss) ->
  "parentNode" ∉ keys ->
  (forall k sv, (k, sv) ∈ ss -> k ∈ keys -> walk_field sv = true) ->
  exists css pss (kps : list (string * list loc)),
    map_each (estraverse.key_children (VRef l)) keys h = Ok css h
    /\ Forall2 (fun c psc => visits m h c (VRef l) = Some psc)
         (concat css) pss
    /\ kps.*1 = keys
    /\ (concat pss).*1 = concat kps.*2
    /\ forall k P, (k, P) ∈ kps ->
         k <> "parentNode"
         /\ match assoc k props with
            | Some v =>
                exists sv lsv,
                  unfold n h v = Some (sv, lsv) /\ P ⊆+ lsv
            | None => P = []
            end.
Proof.
  intros Hl Hps. induction keys as [|k keys IH]; intros Hnp Hwalk.
  { exists [], [], []. split; [done|]. split; [done|].
    split; [done|]. split; [done|].
    intros k0 P Hin. by apply elem_of_nil in Hin. }
  apply not_elem_of_cons in Hnp as [Hk Hnp].
  destruct (key_visits l props ss lss k Hl Hps (not_eq_sym Hk))
    as (cs & pss1 & Hrun1 & HR1 & Hcond).
  { intros sv Hin. apply (Hwalk k); [done|by left]. }
  destruct IH as (css & pss2 & kps & Hrun2 & HR2 & Hkeys & Hflat & Hall);
    [done|..].
  { intros k' sv Hin Hk'. apply (Hwalk k'); [done|by right]. }
  exists (cs :: css), (pss1 ++ pss2), ((k, (concat pss1).*1) :: kps).
  cbn [map_each].
  rewrite (bind_Ok _ _ _ _ _ Hrun1), (bind_Ok _ _ _ _ _ Hrun2).
  split; [done|]. split; [by apply Forall2_app|].
  split; [by rewrite fmap_cons, Hkeys|].
  split; [by rewrite fmap_cons, concat_app, fmap_app, Hflat|].
  intros k' P [[= -> ->]|Hin]%elem_of_cons; [|by apply Hall].
  split; [done|]. by destruct (assoc k props).
Qed.
End Walkable.
End WalkReading.

Module Cloner.
Section Cloner.
Variable VisitorKeys : string -> option (list string).
Hypothesis parent_is_no_child :
  forall t keys, VisitorKeys t = Some keys -> "parentNode" ∉ keys.
Hypothesis keys_distinct :
  forall t keys, VisitorKeys t = Some keys -> NoDup keys.

Local Abbreviation walkable := (Tree.walkable VisitorKeys).
Local Abbreviation visits := (Tree.visits VisitorKeys).
Local Abbreviation reach := (Tree.reach VisitorKeys).
Local Abbreviation child_of := (Tree.child_of VisitorKeys).

(** The engine can walk a node that reads as a walkable shape, and the
    nodes it visits are cells of the reading, each at most as often as
    the reading has it. *)
Lemma reading_visits (n : nat) :
  forall m, n <= m ->
  forall h v s ls q,
    unfold n h v = Some (s, ls) ->
    is_node_shape s = true -> walkable s = true ->
    exists ps, visits m h v q = Some ps /\ ps.*1 ⊆+ ls.
Proof.
  induction n as [|n IH]; intros m Hm h v s ls q Hv Hnode Hwalk;
    pose proof (ClonerProofs.reading_value _ _ _ _ _ Hv) as Hs;
    destruct s as [| | | | | | |ss]; try done;
    destruct Hs as (l & props & ls0 & n' & -> & Hl & Hn & Hps & ->);
    [done|].
  injection Hn as <-. destruct m as [|m]; [lia|].
  destruct (WalkReading.walkable_SObj _ _ Hwalk)
    as (t & keys & Ht & Hkeys & Hfields).
  destruct (WalkReading.keys_visits VisitorKeys h m n
              (fun v s ls q => IH m ltac:(lia) h v s ls q)
              l props ss ls0 keys Hl Hps)
    as (css & pss & kps & Hrun & HR & Hk & Hflat & Hall);
    [by eapply parent_is_no_child|done|].
  exists ((l, q) :: concat pss). split.
  - apply WalkProofs.visits_S_intro with (cs := concat css); [|done].
    unfold estraverse.children.
    rewrite (bind_Ok _ _ _ _ _ (get_cell _ _ _ _ Hl)).
    pose proof (WalkReading.unfold_props_lookup _ _ "type" _ _ Hps)
      as Hlook.
    destruct (assoc "type" props) as [v0|].
    + destruct Hlook as (sv & lsv & Hv0 & Hsv); [done|].
      rewrite Ht in Hsv. injection Hsv as <-.
      apply ClonerProofs.reading_value in Hv0 as ->. simpl.
      by rewrite Hkeys, (bind_Ok _ _ _ _ _ Hrun).
    + rewrite Hlook in Ht; done.
  - rewrite fmap_cons. simpl. apply submseteq_skip. rewrite Hflat.
    eapply WalkReading.submseteq_by_keys; [done| |done].
    rewrite Hk. by eapply keys_distinct.
Qed.

Lemma parentize_effect_unfold (n : nat) (h : heap) (l : loc) (q v : val) :
  unfold n (effect (NodeUtils.parentizeNode (VRef l) q) h) v
  = unfold n h v.
Proof.
  unfold effect, NodeUtils.parentizeNode, bind, set.
  destruct (h !! l) as [[ps|es|src]|] eqn:Hl; try done.
  pose proof (UnfoldProofs.unfold_set_parent n h l
                (if truthy q then q else VRef l) v) as H.
  unfold set_field in H. by rewrite Hl in H.
Qed.

Lemma parentize_run_unfold (n : nat) (ps : list (loc * val)) (v : val) :
  forall h,
    unfold n (run_visits NodeUtils.parentizeNode h ps) v = unfold n h v.
Proof.
  induction ps as [|[c q] ps IH]; intros h; [done|].
  simpl. by rewrite IH, parentize_effect_unfold.
Qed.

Lemma parentize_run_prefix (h0 : heap) (ps : list (loc * val)) :
  forall h,
    h0 `prefix_of` h ->
    Forall (fun cq => length h0 <= cq.1) ps ->
    h0 `prefix_of` (run_visits NodeUtils.parentizeNode h ps).
Proof.
  induction ps as [|[c q] ps IH]; intros h Hpre Hall; [done|].
  apply Forall_cons in Hall as [Hc Hall]. simpl in *. apply IH; [|done].
  unfold effect, NodeUtils.parentizeNode, bind, set.
  destruct (h !! c) as [[qs|es|src]|] eqn:Hl; try done.
  by apply prefix_insert_ge.
Qed.

(** Where every sequence of a tree holds nodes or [null], the clone
    of the tree reads as the tree does, parent links apart; it is made
    of objects and sequences that the tree did not have, each its own;
    the tree itself is left as it was; and the parent links of the clone
    are those of its own structure: the root of the clone is its own
    parent link, every node of the clone is a new object, and every
    other node of the clone has as its parent link the node of the clone
    that holds it.  (The child-key table of the engine does not list
    [parentNode] and lists no key twice for a type.) *)
Theorem clone_correct (fuel n : nat) (h : heap) (l : loc) (s : shape)
    (ls : list loc)
    (Hnode : unfold n h (VRef l) = Some (s, ls))
    (Htree : Tree.syntax_tree VisitorKeys s = true)
    (Hfuel : n <= fuel) :
  exists l' h' ls',
    NodeUtils.clone VisitorKeys fuel (VRef l) h = Ok (VRef l') h'
    /\ unfold n h' (VRef l') = Some (s, ls')
    /\ unfold n h' (VRef l) = Some (s, ls)
    /\ h `prefix_of` h'
    /\ (forall x, x ∈ ls' -> (x ∉ ls) /\ h !! x = None)
    /\ NoDup ls'
    /\ Tree.parent_of h' l' = VRef l'
    /\ (forall x, reach h' l' x -> x ∈ ls')
    /\ (forall x, reach h' l' x -> x <> l' ->
          exists p, reach h' l' p /\ child_of h' p x
                    /\ Tree.parent_of h' x = VRef p)
    /\ (forall p x, reach h' l' p -> child_of h' p x ->
          Tree.parent_of h' x = VRef p).
Proof.
  apply andb_prop in Htree as [Hclone Hwalk].
  assert (is_node_shape s = true /\ is_obj h l) as [Hshape Hobj].
  { pose proof (ClonerProofs.reading_value _ _ _ _ _ Hnode) as Hs.
    destruct s as [| | | | | | |ss]; try done.
    destruct (WalkReading.walkable_SObj _ _ Hwalk) as (t & keys & Ht & _).
    destruct Hs as (l0 & props & ls0 & n' & [= <-] & Hl & _).
    split; [by simpl; rewrite Ht|by exists props]. }
  destruct (ClonerProofs.cloneRecursive_node _ _ _ _ _ _
              Hnode Hobj Hclone Hfuel)
    as (l' & h1 & Hrun & Hpre & Hv1 & Hfp & Hobj').
  set (ls' := seq (length h) (length h1 - length h)) in *.
  destruct (reading_visits n fuel Hfuel h1 (VRef l') s ls' VNull
              Hv1 Hshape Hwalk) as (ps & Hps & Hsub).
  assert (NoDup ps.*1) as Hnd
    by (eapply submseteq_NoDup; [done|apply NoDup_seq]).
  destruct (ParentLinker.linked VisitorKeys parent_is_no_child
              fuel h1 l' ps Hps Hnd) as (Hlink & Hsk & Hroot & Hlinks).
  set (h2 := run_visits NodeUtils.parentizeNode h1 ps) in *.
  assert (forall x, x ∈ ls' -> length h <= x) as Hnew.
  { intros x Hx%elem_of_seq. lia. }
  assert (h `prefix_of` h2) as Hpre2.
  { apply parentize_run_prefix; [done|]. apply Forall_forall.
    intros [c q] Hin. apply Hnew. eapply elem_of_submseteq; [|done].
    apply list_elem_of_fmap. by exists (c, q). }
  exists l', h2, ls'.
  split.
  { unfold NodeUtils.clone. by rewrite (bind_Ok _ _ _ _ _ Hrun). }
  split; [by unfold h2; rewrite parentize_run_unfold|].
  split; [by eapply UnfoldProofs.unfold_prefix|].
  split; [done|].
  split.
  { intros x Hx. pose proof (Hnew x Hx). split.
    - intros Hin.
      destruct (UnfoldProofs.unfold_cells _ _ _ _ _ _ Hnode Hin)
        as (o & Ho%lookup_lt_Some & _). lia.
    - by apply lookup_ge_None. }
  split; [apply NoDup_seq|].
  split; [done|].
  split.
  { intros x Hx.
    destruct (WalkProofs.visits_reach_in VisitorKeys ["parentNode"]
                (ParentLinker.child_keys_kept VisitorKeys
                   parent_is_no_child)
                ParentLinker.type_is_no_parent_link h1 h2 l' x fuel VNull ps
                Hsk Hps Hx) as [q Hq].
    eapply elem_of_submseteq; [|done].
    apply list_elem_of_fmap. by exists (x, q). }
  split; [|done].
  intros x Hx Hne. apply rtc_inv_r in Hx as [->|(p & Hp & Hpx)]; [done|].
  exists p. eauto.
Qed.
End Cloner.
End Cloner.

(** * The sample program *)

(** ** Its child-key table *)

Lemma sample_keys_elem (t : string) (keys : list string) :
  sample_keys t = Some keys -> (t, keys) ∈ sample_keys_table.
Proof. apply WalkReading.assoc_Some_elem. Qed.

Lemma sample_keys_checked :
  Forall (fun tk : string * list string =>
            NoDup tk.2
            /\ Forall (fun k => k ∉ ["parentNode"; "x-verbatim-property";
                                     "metadata"]) tk.2)
    sample_keys_table.
Proof.
  apply (bool_decide_unpack _). vm_compute. exact I.
Qed.

Lemma sample_keys_distinct (t : string) (keys : list string) :
  sample_keys t = Some keys -> NoDup keys.
Proof.
  intros Hin%sample_keys_elem.
  by destruct (proj1 (Forall_forall _ _) sample_keys_checked _ Hin).
Qed.

Lemma sample_keys_no_annotation (t : string) (keys : list string)
    (k : string) :
  sample_keys t = Some keys -> k ∈ keys ->
  k ∉ ["parentNode"; "x-verbatim-property"; "metadata"].
Proof.
  intros Hin%sample_keys_elem Hk.
  destruct (proj1 (Forall_forall _ _) sample_keys_checked _ Hin) as [_ Hall].
  by apply (proj1 (Forall_forall _ _) Hall).
Qed.

Lemma sample_keys_no_parent (t : string) (keys : list string) :
  sample_keys t = Some keys -> "parentNode" ∉ keys.
Proof.
  intros Hkeys Hin.
  apply (sample_keys_no_annotation _ _ _ Hkeys Hin). by left.
Qed.

Lemma sample_parsed_tree :
  Tree.is_tree sample_keys 6 sample_parsed sample_root.
Proof.
  eexists. split; [vm_compute; reflexivity|].
  by apply (bool_decide_unpack _).
Qed.

(** ** Its literal, and a node with a range *)

(** C3.  The text of the sample holds the literal [0x1F].  The
    conversion gives its node the verbatim content ["0x1F"], as claimed.
    The nodes-to-text conversion calls the generator with the option
    [sourceMapWithCode] alone, and a call without the verbatim option
    returns the generator's own text whatever annotation the node has: a
    generator that derives the text of a literal from its value emits
    ["31"] for this node, and ["0x1F"] only when the call names the
    annotation field. *)
Theorem literal_text_not_verbatim :
  NodeUtils.convertCodeToStructure sample_primary sample_keys sample_parse
    6 sample_code [] = Ok (VRef 6) sample_store
  /\ field sample_store 2 "type" = VStr NodeType.Literal
  /\ field sample_store 2 "value" = VNum 31%float
  /\ field sample_store 2 "x-verbatim-property" = VRef 13
  /\ field sample_store 13 "content" = VStr "0x1F"
  /\ sample_sequences !! 15 = Some (OArr [VRef 2])
  /\ (forall generate_plain node h,
        NodeUtils.escodegen_generate generate_plain code_options node h
        = generate_plain node h)
  /\ NodeUtils.convertStructureToCode sample_value_text (VRef 15)
       sample_sequences = Ok "31" sample_sequences
  /\ NodeUtils.escodegen_generate sample_value_text verbatim_options
       (VRef 2) sample_sequences = Ok "0x1F" sample_sequences.
Proof.
  split; [vm_compute; reflexivity|].
  repeat split.
Qed.

(** C4.  The copy of the identifier node with the range [[0, 5]].  The
    elements of a sequence go through the clone operation itself,
    [value.map(cloneRecursive)], which copies the own fields of what it
    is given: a number has none, and its copy is an object without
    fields, where a number that is the value of a field is copied by
    value.  The copy does not follow the copy rule, and does not read
    as the original. *)
Theorem sequence_of_numbers_copied_as_objects :
  NodeUtils.cloneRecursive 3 (VRef 1) sample_ranged
  = Ok (VRef 2) sample_ranged_copy
  /\ unfold 3 sample_ranged_copy (VRef 1)
     = Some (SObj [("type", SStr "Identifier"); ("name", SStr "x");
                   ("range", SArr [SNum 0%float; SNum 5%float])],
             [1; 0])
  /\ unfold 3 sample_ranged_copy (VRef 2)
     = Some (SObj [("type", SStr "Identifier"); ("name", SStr "x");
                   ("range", SArr [SObj []; SObj []])],
             [2; 3; 4; 5])
  /\ ~ copied sample_ranged sample_ranged_copy (VRef 1) (VRef 2).
Proof.
  split; [reflexivity|]. split; [reflexivity|]. split; [reflexivity|].
  intros Hcopied.
  inversion Hcopied as [|l src Hl|l l' es es' Hl|l l' ps ps' Hl Hl' Hc Hall|];
    simplify_eq; try done.
  injection Hl as <-. simpl in Hall.
  apply Forall2_cons_inv_l in Hall as ([k' v'] & ps1 & _ & Hall & ->).
  apply Forall2_cons_inv_l in Hall as ([k2 v2] & ps2 & _ & Hall & ->).
  apply Forall2_cons_inv_l in Hall as ([k3 v3] & ps3 & [_ Hrange] & Hall & ->).
  apply Forall2_nil_inv_l in Hall as ->.
  injection Hc as _ _ _ _ <-. simpl in Hrange.
  inversion Hrange as [|r src Hr|r r' es es' Hr Hr' Hes Hels| |];
    simplify_eq; try done.
  injection Hr as <-. injection Hes as <-.
  apply Forall2_cons in Hels as [Hzero _].
  inversion Hzero.
Qed.

(** C1.  The clone of the identifier node with the range [[0, 5]], a
    tree of one node that the walk accepts: the clone holds
    [[{}, {}]] for the range, and does not read as the node does. *)
Theorem clone_of_ranged_node_differs :
  Tree.is_tree sample_keys 3 sample_ranged 1
  /\ NodeUtils.clone sample_keys 3 (VRef 1) sample_ranged
     = Ok (VRef 2) sample_ranged_clone
  /\ unfold 3 sample_ranged_clone (VRef 1)
     = Some (SObj [("type", SStr "Identifier"); ("name", SStr "x");
                   ("range", SArr [SNum 0%float; SNum 5%float])],
             [1; 0])
  /\ unfold 3 sample_ranged_clone (VRef 2)
     = Some (SObj [("type", SStr "Identifier"); ("name", SStr "x");
                   ("range", SArr [SObj []; SObj []])],
             [2; 3; 4; 5])
  /\ fst <$> unfold 3 sample_ranged_clone (VRef 2)
     <> fst <$> unfold 3 sample_ranged_clone (VRef 1).
Proof.
  split.
  { exists [(1, VNull)]. split; [reflexivity|].
    by apply (bool_decide_unpack _). }
  split; [vm_compute; reflexivity|].
  split; [reflexivity|]. split; [reflexivity|].
  by intros [=].
Qed.

(** ** The theorems at the sample program *)

Lemma clone_correct_sample :
  unfold 8 sample_store (VRef sample_root) = Some (sample_shape, sample_cells)
  /\ Tree.syntax_tree sample_keys sample_shape = true
  /\ 8 <= 9
  /\ exists l' h' ls',
      NodeUtils.clone sample_keys 9 (VRef sample_root) sample_store
      = Ok (VRef l') h'
      /\ unfold 8 h' (VRef l') = Some (sample_shape, ls')
      /\ unfold 8 h' (VRef sample_root) = Some (sample_shape, sample_cells)
      /\ sample_store `prefix_of` h'
      /\ (forall x, x ∈ ls' ->
            (x ∉ sample_cells) /\ sample_store !! x = None)
      /\ NoDup ls'
      /\ Tree.parent_of h' l' = VRef l'
      /\ (forall x, Tree.reach sample_keys h' l' x -> x ∈ ls')
      /\ (forall x, Tree.reach sample_keys h' l' x -> x <> l' ->
            exists p, Tree.reach sample_keys h' l' p
                      /\ Tree.child_of sample_keys h' p x
                      /\ Tree.parent_of h' x = VRef p)
      /\ (forall p x, Tree.reach sample_keys h' l' p ->
            Tree.child_of sample_keys h' p x ->
            Tree.parent_of h' x = VRef p).
Proof.
  assert (unfold 8 sample_store (VRef sample_root)
          = Some (sample_shape, sample_cells)) as Hnode
    by (vm_compute; reflexivity).
  assert (Tree.syntax_tree sample_keys sample_shape = true) as Htree
    by (vm_compute; reflexivity).
  assert (8 <= 9) as Hfuel by lia.
  split; [exact Hnode|]. split; [exact Htree|]. split; [exact Hfuel|].
  exact (Cloner.clone_correct sample_keys sample_keys_no_parent
           sample_keys_distinct 9 8 sample_store sample_root sample_shape
           sample_cells Hnode Htree Hfuel).
Defined.

Lemma parent_links_correct_sample :
  Tree.is_tree sample_keys 6 sample_parsed sample_root
  /\ exists h',
      NodeUtils.parentizeAst sample_keys 6 (VRef sample_root) sample_parsed
      = Ok (VRef sample_root) h'
      /\ Tree.parent_of h' sample_root = VRef sample_root
      /\ (forall n, Tree.reach sample_keys h' sample_root n ->
            n <> sample_root ->
            exists p, Tree.reach sample_keys h' sample_root p
                      /\ Tree.child_of sample_keys h' p n
                      /\ Tree.parent_of h' n = VRef p)
      /\ (forall p n, Tree.reach sample_keys h' sample_root p ->
            Tree.child_of sample_keys h' p n ->
            Tree.parent_of h' n = VRef p).
Proof.
  split; [exact sample_parsed_tree|].
  exact (ParentLinker.parent_links_correct sample_keys sample_keys_no_parent
           6 sample_parsed sample_root sample_parsed_tree).
Defined.

Lemma clone_copies_fields_sample :
  unfold 8 sample_store (VRef sample_root) = Some (sample_shape, sample_cells)
  /\ is_obj sample_store sample_root
  /\ cloneable sample_shape = true
  /\ 8 <= 9
  /\ exists l' h' ls',
      NodeUtils.cloneRecursive 9 (VRef sample_root) sample_store
      = Ok (VRef l') h'
      /\ copied sample_store h' (VRef sample_root) (VRef l')
      /\ sample_store `prefix_of` h'
      /\ unfold 8 h' (VRef sample_root) = Some (sample_shape, sample_cells)
      /\ unfold 8 h' (VRef l') = Some (sample_shape, ls')
      /\ (forall x o, x ∈ ls' ->
            unfold 8 (<[x := o]> h') (VRef sample_root)
            = Some (sample_shape, sample_cells))
      /\ (forall x o, x ∈ sample_cells ->
            unfold 8 (<[x := o]> h') (VRef l') = Some (sample_shape, ls')).
Proof.
  assert (unfold 8 sample_store (VRef sample_root)
          = Some (sample_shape, sample_cells)) as Hnode
    by (vm_compute; reflexivity).
  assert (is_obj sample_store sample_root) as Hobj
    by (eexists; vm_compute; reflexivity).
  assert (cloneable sample_shape = true) as Htree
    by (vm_compute; reflexivity).
  assert (8 <= 9) as Hfuel by lia.
  split; [exact Hnode|]. split; [exact Hobj|]. split; [exact Htree|].
  split; [exact Hfuel|].
  exact (ClonerProofs.clone_copies_fields 9 8 sample_store sample_root
           sample_shape sample_cells Hnode Hobj Htree Hfuel).
Defined.

Lemma text_to_nodes_annotated_sample :
  sample_parse sample_code [] = Ok (VRef sample_root) sample_parsed
  /\ Tree.is_tree sample_keys 6 sample_parsed sample_root
  /\ exists h2 ps,
      NodeUtils.convertCodeToStructure sample_primary sample_keys
        sample_parse 6 sample_code []
      = Ok (field sample_parsed sample_root "body") h2
      /\ Tree.visits sample_keys 6 sample_parsed (VRef sample_root) VNull
         = Some ps
      /\ NoDup ps.*1
      /\ h2 = run_visits (NodeUtils.annotate sample_primary) sample_parsed ps
      /\ Tree.parent_of h2 sample_root = VRef sample_root
      /\ (forall p n, Tree.reach sample_keys h2 sample_root p ->
            Tree.child_of sample_keys h2 p n ->
            Tree.parent_of h2 n = VRef p)
      /\ (forall n, Tree.reach sample_keys h2 sample_root n ->
            exists m,
              field h2 n "metadata" = VRef m
              /\ h2 !! m = Some (OObj [("ignoredNode", VBool false)]))
      /\ (forall n, Tree.reach sample_keys h2 sample_root n ->
            field h2 n "type" = VStr NodeType.Literal ->
            exists a,
              field h2 n "x-verbatim-property" = VRef a
              /\ h2 !! a
                 = Some (OObj [("content", field sample_parsed n "raw");
                               ("precedence", sample_primary)]))
      /\ (forall n k, is_obj sample_parsed n ->
            k ∉ ["parentNode"; "x-verbatim-property"; "metadata"] ->
            field h2 n k = field sample_parsed n k)
      /\ (forall a es, sample_parsed !! a = Some (OArr es) ->
            h2 !! a = Some (OArr es)).
Proof.
  assert (sample_parse sample_code [] = Ok (VRef sample_root) sample_parsed)
    as Hparse by (vm_compute; reflexivity).
  split; [exact Hparse|]. split; [exact sample_parsed_tree|].
  exact (Converter.text_to_nodes_annotated sample_primary sample_keys
           sample_parse sample_keys_no_annotation 6 sample_code []
           sample_parsed sample_root Hparse sample_parsed_tree).
Defined.

Lemma unary_argument_unwrapped_sample :
  unary_chain sample_negation_store sample_negation sample_identifier
  /\ (exists fuel, forall fuel', fuel <= fuel' ->
        NodeUtils.getUnaryExpressionArgumentNode fuel' sample_negation
          sample_negation_store
        = Ok sample_identifier sample_negation_store)
  /\ NodeGuards.isUnaryExpressionNode sample_identifier sample_negation_store
     = Ok false sample_negation_store
  /\ (forall h0, exists x n h1,
        triple_negation h0 = Ok (x, n) h1
        /\ NodeUtils.getUnaryExpressionArgumentNode 3 n h1 = Ok (VRef x) h1
        /\ field h1 x "type" = VStr NodeType.Identifier
        /\ field h1 x "name" = VStr "x").
Proof.
  assert (unary_chain sample_negation_store sample_negation
            sample_identifier) as Hchain.
  { apply unary_chain_next with (a := VRef 5); [reflexivity..|].
    apply unary_chain_next with (a := VRef 3); [reflexivity..|].
    apply unary_chain_end; reflexivity. }
  split; [exact Hchain|].
  exact (NodeUtilsProofs.unary_argument_unwrapped sample_negation_store
           sample_negation sample_identifier Hchain).
Defined.

Lemma syntax_error_propagated_sample :
  sample_parse "[!x, 0x1F" [] = Throw (SyntaxError "Unexpected token")
  /\ NodeUtils.convertCodeToStructure sample_primary sample_keys
       sample_parse 6 "[!x, 0x1F" []
     = Throw (SyntaxError "Unexpected token").
Proof.
  assert (sample_parse "[!x, 0x1F" []
          = Throw (SyntaxError "Unexpected token")) as Hinvalid
    by (vm_compute; reflexivity).
  split; [exact Hinvalid|].
  exact (Converter.syntax_error_propagated sample_primary sample_keys
           sample_parse "[!x, 0x1F" "Unexpected token" [] Hinvalid 6).
Defined.

(** * Further properties of the code *)

(** ** The factory and the store *)

(** Run a constructor of the factory step by step. *)
Ltac factory_steps :=
  unfold NodeFactory.run_call, NodeFactory.programNode,
    NodeFactory.arrayExpressionNode, NodeFactory.assignmentExpressionNode,
    NodeFactory.binaryExpressionNode, NodeFactory.blockStatementNode,
    NodeFactory.breakStatement, NodeFactory.callExpressionNode,
    NodeFactory.continueStatement, NodeFactory.expressionStatementNode,
    NodeFactory.functionDeclarationNode, NodeFactory.functionExpressionNode,
    NodeFactory.ifStatementNode, NodeFactory.identifierNode,
    NodeFactory.literalNode, NodeFactory.logicalExpressionNode,
    NodeFactory.memberExpressionNode, NodeFactory.methodDefinitionNode,
    NodeFactory.objectExpressionNode, NodeFactory.propertyNode,
    NodeFactory.returnStatementNode, NodeFactory.switchStatementNode,
    NodeFactory.switchCaseNode, NodeFactory.unaryExpressionNode,
    NodeFactory.updateExpressionNode, NodeFactory.variableDeclarationNode,
    NodeFactory.variableDeclaratorNode, NodeFactory.whileStatementNode,
    NodeFactory.metadata_literal, NodeFactory.or_empty_array,
    NodeFactory.spread, bind, ret, alloc.

Lemma prefix_alloc_more (h0 h : heap) (o : obj) :
  h0 `prefix_of` h -> h0 `prefix_of` (h ++ [o]).
Proof. intros. by apply prefix_app_r. Qed.

Lemma fresh_of_prefix (h0 h : heap) :
  h0 `prefix_of` h -> h0 !! length h = None.
Proof. intros Hp. apply lookup_ge_None. by apply prefix_length. Qed.

Module NodeFactoryStore.
Section Store.
Variable Precedence_Primary : val.
Variable Number_toString : float -> string.
Local Abbreviation run_call :=
  (NodeFactory.run_call Precedence_Primary Number_toString).

Local Ltac fresh_pair :=
  eexists _, _, _; split; [reflexivity|];
  split; [repeat apply prefix_alloc_more; done|];
  split; [apply fresh_of_prefix; repeat apply prefix_alloc_more; done|];
  split; [unfold field; rewrite lookup_alloc; eval_assoc; reflexivity|];
  apply fresh_of_prefix; repeat apply prefix_alloc_more; done.

(** X1.  A constructor of the factory only adds objects to the store:
    every object that was there, its arguments included, stays as it
    was, and the node it returns and the metadata record of that node
    are new objects, which no earlier node can share. *)
Theorem factory_allocates_only (c : NodeFactory.factory_call) (h : heap) :
  exists l m h',
    run_call c h = Ok (VRef l) h'
    /\ h `prefix_of` h'
    /\ h !! l = None
    /\ field h' l "metadata" = VRef m
    /\ h !! m = None.
Proof.
  destruct c; factory_steps.
  all: try (destruct body; fresh_pair; fail).
  all: try (destruct elements; fresh_pair; fail).
  all: try (destruct args; fresh_pair; fail).
  all: try (destruct declarations; fresh_pair; fail).
  all: try (fresh_pair; fail).
  - destruct (truthy alternate) eqn:Halt.
    + unfold own_props. rewrite lookup_alloc. cbn [default app]. fresh_pair.
    + rewrite falsy_spreads_nothing by done. cbn [app]. fresh_pair.
Qed.

Local Abbreviation ifStatementNode := NodeFactory.ifStatementNode.

(** X2.  The if-statement node has an [alternate] field exactly when
    the given alternate is truthy, placed between [consequent] and
    [metadata]: [null], like [undefined] and the other falsy values,
    gives a node without the field, not a field holding [null]. *)
Theorem if_alternate_iff_truthy (test consequent alternate : val)
    (h : heap) :
  exists l m ps h',
    ifStatementNode test consequent alternate h = Ok (VRef l) h'
    /\ h' !! l = Some (OObj ps)
    /\ ps = [("type", VStr NodeType.IfStatement); ("test", test);
             ("consequent", consequent)]
            ++ (if truthy alternate then [("alternate", alternate)] else [])
            ++ [("metadata", VRef m)]
    /\ assoc "alternate" ps
       = (if truthy alternate then Some alternate else None).
Proof.
  factory_steps. destruct (truthy alternate) eqn:Halt.
  - unfold own_props. rewrite lookup_alloc. cbn [default app].
    eexists _, _, _, _. split; [reflexivity|].
    split; [apply lookup_alloc|]. split; [reflexivity|]. by eval_assoc.
  - rewrite falsy_spreads_nothing by done. cbn [app].
    eexists _, _, _, _. split; [reflexivity|].
    split; [apply lookup_alloc|]. split; [reflexivity|]. by eval_assoc.
Qed.

(** X3.  The five constructors whose sequence parameter has the default
    [[]] (program, array expression, block statement, call expression,
    variable declaration) give the node a new empty sequence of its own
    when the argument is left out, and otherwise store the given value
    itself, without copying it. *)
Theorem factory_sequence_arguments (callee : val)
    (kind : option declaration_kind) (h : heap) :
  Forall (fun fk : (val -> M val) * string =>
            (exists l b h',
                fk.1 VUndef h = Ok (VRef l) h'
                /\ field h' l fk.2 = VRef b
                /\ h !! b = None
                /\ h' !! b = Some (OArr []))
            /\ (forall a, a <> VUndef ->
                  exists l h',
                    fk.1 a h = Ok (VRef l) h'
                    /\ field h' l fk.2 = a
                    /\ h `prefix_of` h'))
    [(NodeFactory.programNode, "body");
     (NodeFactory.arrayExpressionNode, "elements");
     (NodeFactory.blockStatementNode, "body");
     (NodeFactory.callExpressionNode callee, "arguments");
     (fun declarations =>
        NodeFactory.variableDeclarationNode declarations kind,
      "declarations")].
Proof.
  repeat apply Forall_cons_2; try apply Forall_nil_2.
  all: cbn [fst snd]; split;
    [ factory_steps; eexists _, _, _; split; [reflexivity|];
      split; [unfold field; rewrite lookup_alloc; by eval_assoc|];
      split; [apply lookup_fresh|];
      apply lookup_alloc_old, lookup_alloc_old, lookup_alloc
    | intros a Ha; factory_steps; destruct a; try done;
      (eexists _, _; split; [reflexivity|];
       split; [unfold field; rewrite lookup_alloc; by eval_assoc|];
       repeat apply prefix_alloc_more; done) ].
Qed.

(** X15.  The function-declaration constructor builds its [id] with the
    identifier constructor: the [id] is a new identifier node of the
    given name with a metadata record of its own, distinct from the
    declaration and from the declaration's metadata record. *)
Theorem function_declaration_id (functionName : string)
    (params body : val) (h : heap) :
  exists l i m mi h',
    NodeFactory.functionDeclarationNode functionName params body h
    = Ok (VRef l) h'
    /\ field h' l "id" = VRef i
    /\ field h' l "metadata" = VRef m
    /\ h' !! i = Some (OObj [("type", VStr NodeType.Identifier);
                             ("name", VStr functionName);
                             ("metadata", VRef mi)])
    /\ h' !! mi = Some (OObj [("ignoredNode", VBool false)])
    /\ h !! i = None /\ h !! mi = None
    /\ i <> l /\ mi <> m.
Proof.
  factory_steps. eexists _, _, _, _, _. split; [reflexivity|].
  split; [unfold field; rewrite lookup_alloc; by eval_assoc|].
  split; [unfold field; rewrite lookup_alloc; by eval_assoc|].
  split; [apply lookup_alloc_old, lookup_alloc_old, lookup_alloc|].
  split; [apply lookup_alloc_old, lookup_alloc_old, lookup_alloc_old,
            lookup_alloc|].
  split; [apply fresh_of_prefix, prefix_alloc_more; done|].
  split; [apply lookup_fresh|].
  split; rewrite !length_app; simpl; lia.
Qed.
End Store.
End NodeFactoryStore.

(** ** Reading a store that has grown *)

Lemma own_props_prefix (h h' : heap) (v : val) (ps : list (string * val)) :
  h `prefix_of` h' -> own_props h v = Some ps -> own_props h' v = Some ps.
Proof.
  intros Hp. destruct v as [| | | | |l]; simpl; try done.
  destruct (h !! l) as [o|] eqn:Hl; [|done].
  by rewrite (prefix_lookup_Some _ _ _ _ Hl Hp).
Qed.

Lemma get_prefix (h h' : heap) (v x : val) (k : string) :
  h `prefix_of` h' -> get v k h = Ok x h -> get v k h' = Ok x h'.
Proof.
  intros Hp. unfold get.
  destruct (own_props h v) as [ps|] eqn:E; [|done].
  rewrite (own_props_prefix _ _ _ _ Hp E). by intros [= ->].
Qed.

Lemma has_type_prefix (t : string) (h h' : heap) (v : val) (b : bool) :
  h `prefix_of` h' ->
  NodeGuards.has_type t v h = Ok b h -> NodeGuards.has_type t v h' = Ok b h'.
Proof.
  intros Hp. unfold NodeGuards.has_type, bind, get.
  destruct (own_props h v) as [ps|] eqn:E; [|done].
  rewrite (own_props_prefix _ _ _ _ Hp E). by intros [= ->].
Qed.

(** ** Unary expressions of the factory *)

Module UnaryChains.

Lemma unwrap_prefix (fuel : nat) (h h' : heap) (u a : val) :
  h `prefix_of` h' ->
  NodeUtils.getUnaryExpressionArgumentNode fuel u h = Ok a h ->
  NodeUtils.getUnaryExpressionArgumentNode fuel u h' = Ok a h'.
Proof.
  intros Hp. revert u. induction fuel as [|fuel IH]; intros u; [done|].
  simpl. unfold bind at 1.
  destruct (get u "argument" h) as [x hx| |] eqn:Hg; try done.
  pose proof (reads_get _ _ _ _ _ Hg) as ->.
  rewrite (bind_Ok _ _ _ _ _ (get_prefix _ _ _ _ _ Hp Hg)).
  unfold bind at 1.
  destruct (NodeGuards.isUnaryExpressionNode x h) as [b hb| |] eqn:Hb;
    try done.
  pose proof (reads_has_type _ _ _ _ _ Hb) as ->.
  rewrite (bind_Ok _ _ _ _ _ (has_type_prefix _ _ _ _ _ Hp Hb)).
  destruct b; [apply IH|]. unfold ret. by intros [= ->].
Qed.

(** X4.  Nest any operand that is not a unary expression under one or
    more unary operators with the factory: what is built is a unary
    expression, a new object, and the unwrapper gives the operand back,
    whatever the operators and however many, once its depth exceeds the
    number of inner operators. *)
Theorem unary_nest_unwrapped (operator : string) (operators : list string)
    (a : val) (h : heap)
    (Hplain : NodeGuards.isUnaryExpressionNode a h = Ok false h) :
  exists u h',
    unary_nest (operator :: operators) a h = Ok (VRef u) h'
    /\ h `prefix_of` h'
    /\ h !! u = None
    /\ NodeGuards.isUnaryExpressionNode (VRef u) h' = Ok true h'
    /\ forall fuel, length operators < fuel ->
         NodeUtils.getUnaryExpressionArgumentNode fuel (VRef u) h'
         = Ok a h'.
Proof.
  revert operator. induction operators as [|op ops IH]; intros operator.
  - cbn [unary_nest]. rewrite bind_ret.
    unfold NodeFactory.unaryExpressionNode, NodeFactory.metadata_literal.
    rewrite bind_alloc. unfold alloc.
    eexists _, _. split; [reflexivity|].
    split; [repeat apply prefix_alloc_more; done|].
    split; [apply fresh_of_prefix; by apply prefix_alloc_more|].
    split.
    { unfold NodeGuards.isUnaryExpressionNode.
      erewrite NodeUtilsProofs.has_type_cell by apply lookup_alloc. eval_assoc.
      by eval_guard. }
    intros [|fuel] Hf; [simpl in Hf; lia|].
    cbn [NodeUtils.getUnaryExpressionArgumentNode].
    erewrite bind_Ok by (apply get_cell, lookup_alloc). eval_assoc.
    erewrite bind_Ok
      by (eapply has_type_prefix; [|exact Hplain];
          repeat apply prefix_alloc_more; done).
    reflexivity.
  - destruct (IH op) as (u & h1 & Hrun & Hp & Hu & Hb & Hget).
    change (unary_nest (operator :: op :: ops) a)
      with (let* inner := unary_nest (op :: ops) a in
            NodeFactory.unaryExpressionNode operator inner).
    rewrite (bind_Ok _ _ _ _ _ Hrun).
    unfold NodeFactory.unaryExpressionNode, NodeFactory.metadata_literal.
    rewrite bind_alloc. unfold alloc.
    eexists _, _. split; [reflexivity|].
    assert (h1 `prefix_of`
              (h1 ++ [OObj [("ignoredNode", VBool false)]]) ++
              [OObj [("type", VStr NodeType.UnaryExpression);
                     ("operator", VStr operator); ("argument", VRef u);
                     ("prefix", VBool true);
                     ("metadata", VRef (length h1))]]) as Hp1
      by (repeat apply prefix_alloc_more; done).
    split; [by etrans|].
    split.
    { apply lookup_ge_None. apply prefix_length in Hp.
      rewrite length_app. simpl. lia. }
    split.
    { unfold NodeGuards.isUnaryExpressionNode.
      erewrite NodeUtilsProofs.has_type_cell by apply lookup_alloc. eval_assoc.
      by eval_guard. }
    intros [|fuel] Hf; [simpl in Hf; lia|].
    cbn [NodeUtils.getUnaryExpressionArgumentNode].
    erewrite bind_Ok by (apply get_cell, lookup_alloc). eval_assoc.
    erewrite bind_Ok by (eapply has_type_prefix; [exact Hp1|exact Hb]).
    eapply unwrap_prefix; [exact Hp1|]. apply Hget. simpl in Hf. lia.
Qed.
End UnaryChains.



(** ** The text of a sequence of nodes *)

Lemma append_empty_r (s : string) : s +:+ EmptyString = s.
Proof.
  induction s as [|c s IH]; [done|].
  change (String c (s +:+ EmptyString) = String c s). by rewrite IH.
Qed.

Lemma append_assoc (s t u : string) : (s +:+ t) +:+ u = s +:+ (t +:+ u).
Proof.
  induction s as [|c s IH]; [done|].
  change (String c ((s +:+ t) +:+ u) = String c (s +:+ (t +:+ u))).
  by rewrite IH.
Qed.

Lemma bind_ext {A B} (m : M A) (f g : A -> M B) (h : heap) :
  (forall a h', f a h' = g a h') -> bind m f h = bind m g h.
Proof. intros E. unfold bind. by destruct (m h). Qed.

Module TextOfNodes.
Section Text.
Variable generate_plain : val -> M string.
Local Abbreviation generate :=
  (NodeUtils.escodegen_generate generate_plain code_options).
Local Abbreviation generate_all := (NodeUtils.generate_all generate_plain).
Local Abbreviation convertStructureToCode :=
  (NodeUtils.convertStructureToCode generate_plain).

Lemma generate_all_app (xs ys : list val) (code : string) (h : heap) :
  generate_all code (xs ++ ys) h
  = (let* text := generate_all code xs in generate_all text ys) h.
Proof.
  revert code h. induction xs as [|x xs IH]; intros code h; [done|].
  cbn [app NodeUtils.generate_all]. rewrite bind_bind.
  apply bind_ext. intros text h'. apply IH.
Qed.

Lemma generate_all_from (xs : list val) (code : string) (h : heap) :
  generate_all code xs h
  = (let* text := generate_all EmptyString xs in ret (code +:+ text)) h.
Proof.
  revert code h. induction xs as [|x xs IH]; intros code h.
  - simpl. unfold bind, ret. by rewrite append_empty_r.
  - cbn [NodeUtils.generate_all]. rewrite bind_bind.
    apply bind_ext. intros t h1.
    rewrite IH. unfold bind at 2. rewrite (IH (EmptyString +:+ t)).
    unfold bind, ret.
    destruct (generate_all EmptyString xs h1); try done.
    by rewrite append_assoc.
Qed.

(** X5.  The text of a sequence is the text of its first part followed
    by the text of the rest, the second generated in the store that the
    first leaves, whatever the generator does; the text of the empty
    sequence is empty, and the generator is not run for it. *)
Theorem structure_text_concatenated (h h1 h2 : heap) (a1 a2 a3 : loc)
    (xs ys : list val) (t1 t2 : string)
    (Hxs : h !! a1 = Some (OArr xs))
    (Hys : h1 !! a2 = Some (OArr ys))
    (Hall : h !! a3 = Some (OArr (xs ++ ys)))
    (Hfirst : convertStructureToCode (VRef a1) h = Ok t1 h1)
    (Hsecond : convertStructureToCode (VRef a2) h1 = Ok t2 h2) :
  convertStructureToCode (VRef a3) h = Ok (t1 +:+ t2) h2
  /\ (forall a0 h0, h0 !! a0 = Some (OArr []) ->
        convertStructureToCode (VRef a0) h0 = Ok EmptyString h0).
Proof.
  split.
  - unfold NodeUtils.convertStructureToCode, array_elems, bind in *.
    rewrite Hxs in Hfirst. rewrite Hys in Hsecond. rewrite Hall.
    rewrite generate_all_app. unfold bind. rewrite Hfirst.
    rewrite generate_all_from. unfold bind, ret. by rewrite Hsecond.
  - intros a0 h0 Hempty.
    unfold NodeUtils.convertStructureToCode, array_elems, bind.
    by rewrite Hempty.
Qed.

(** X6.  When the generator throws on a node of the sequence, the
    nodes-to-text conversion throws that error and gives no text, not
    even that of the nodes before; given a value that is not a sequence
    it throws a type error. *)
Theorem structure_text_failure (h h1 : heap) (a : loc)
    (xs ys : list val) (y : val) (t : string) (e : error)
    (Hnodes : h !! a = Some (OArr (xs ++ y :: ys)))
    (Hbefore : generate_all EmptyString xs h = Ok t h1)
    (Hfails : generate y h1 = Throw e) :
  convertStructureToCode (VRef a) h = Throw e
  /\ (forall v h0, isArray v h0 = Ok false h0 ->
        convertStructureToCode v h0 = Throw TypeError).
Proof.
  split.
  - unfold NodeUtils.convertStructureToCode, array_elems, bind.
    rewrite Hnodes, generate_all_app. unfold bind. rewrite Hbefore.
    cbn [NodeUtils.generate_all]. unfold bind. by rewrite Hfails.
  - intros v h0 Hother.
    unfold NodeUtils.convertStructureToCode, array_elems, bind.
    unfold isArray in Hother.
    destruct v as [| | | | |l]; try done.
    by destruct (h0 !! l) as [[]|].
Qed.
End Text.
End TextOfNodes.


(** ** Linking a linked tree *)

Lemma set_assoc_same {A} (k : string) (x : A) (ps : list (string * A)) :
  assoc k ps = Some x -> set_assoc k x ps = ps.
Proof.
  induction ps as [|[k' v] ps IH]; simpl; [done|].
  case_decide; [by intros [= ->]; subst|]. intros E. by rewrite IH.
Qed.

Lemma set_field_fixed (h : heap) (l : loc) (k : string) (x : val) :
  field h l k = x -> x <> VUndef -> set_field h l k x = h.
Proof.
  unfold field, set_field. destruct (h !! l) as [[ps| |]|] eqn:Hl; try done.
  destruct (assoc k ps) as [y|] eqn:E; simpl; [|congruence].
  intros -> _. rewrite (set_assoc_same _ _ _ E). by apply list_insert_id.
Qed.

Lemma parent_for_defined (l : loc) (q : val) : parent_for l q <> VUndef.
Proof.
  unfold parent_for. destruct (truthy q) eqn:E; [|done]. by intros ->.
Qed.

Module Relinking.
Section Relinking.
Variable VisitorKeys : string -> option (list string).
Hypothesis parent_is_no_child :
  forall t keys, VisitorKeys t = Some keys -> "parentNode" ∉ keys.

Local Abbreviation reach := (Tree.reach VisitorKeys).
Local Abbreviation child_of := (Tree.child_of VisitorKeys).
Local Abbreviation visits := (Tree.visits VisitorKeys).
Local Abbreviation parentizeAst := (NodeUtils.parentizeAst VisitorKeys).
Local Abbreviation run := (run_visits NodeUtils.parentizeNode).

(** Where a visit comes from: the root, or a child of a node of the
    tree, visited with that node as its parent. *)
Lemma visits_origin (n : nat) (h : heap) (r : loc) (p0 : val)
    (ps : list (loc * val)) (c : loc) (q : val) :
  visits n h (VRef r) p0 = Some ps -> (c, q) ∈ ps ->
  (c = r /\ q = p0)
  \/ exists p, q = VRef p /\ reach h r p /\ child_of h p c.
Proof.
  revert r p0 ps. induction n as [|n IH]; intros r p0 ps; [done|].
  intros (l & cs & pss & [= <-] & E & Hm & ->)%WalkProofs.visits_S Hin.
  apply elem_of_cons in Hin as [[= -> ->]|Hin]; [by left|]. right.
  apply elem_of_concat in Hin as (psc & Hin & Hpsc).
  apply list_elem_of_lookup in Hpsc as [i Hi].
  destruct (Forall2_lookup_r _ _ _ _ _ Hm Hi) as (v & Hv & Hvis).
  destruct v as [| | | | |c0]; try (by destruct n).
  assert (child_of h r c0) as Hchild.
  { exists cs. split; [done|]. by eapply list_elem_of_lookup_2. }
  destruct (IH _ _ _ Hvis Hin) as [[-> ->]|(p & -> & Hp & Hc)].
  - exists r. split; [done|]. split; [apply rtc_refl|done].
  - exists p. split; [done|]. split; [by eapply rtc_l|done].
Qed.

Lemma visits_reached (n : nat) (h : heap) (r : loc) (p0 : val)
    (ps : list (loc * val)) (c : loc) :
  visits n h (VRef r) p0 = Some ps -> c ∈ ps.*1 -> reach h r c.
Proof.
  intros Hv ([c' q] & -> & Hin)%list_elem_of_fmap.
  destruct (visits_origin _ _ _ _ _ _ _ Hv Hin)
    as [[-> _]|(p & _ & Hp & Hc)]; [apply rtc_refl|].
  by eapply rtc_r.
Qed.

(** A walk that finds every parent link in place leaves the store as
    it is. *)
Lemma run_fixed (ps : list (loc * val)) (h : heap) :
  Forall (fun cq => is_obj h cq.1
                    /\ Tree.parent_of h cq.1 = parent_for cq.1 cq.2) ps ->
  run h ps = h.
Proof.
  induction ps as [|[c q] ps IH]; [done|].
  intros [[Hc Hp] Hall]%Forall_cons. simpl in *.
  rewrite ParentLinker.parentizeNode_effect by done.
  rewrite set_field_fixed; [by apply IH|done|apply parent_for_defined].
Qed.

(** What the walk of the linker changes: no cell is added, and the
    cells of the nodes it does not visit stay as they are. *)
Lemma run_cells (ps : list (loc * val)) (h : heap) :
  Forall (fun cq => is_obj h cq.1) ps ->
  length (run h ps) = length h
  /\ forall l, l ∉ ps.*1 -> run h ps !! l = h !! l.
Proof.
  revert h. induction ps as [|[c q] ps IH]; intros h; [done|].
  intros [Hc Hall]%Forall_cons. simpl in *.
  rewrite ParentLinker.parentizeNode_effect by done.
  destruct (IH (set_field h c "parentNode" (parent_for c q))) as [Hlen Hout].
  { eapply Forall_impl; [done|]. intros cq. apply is_obj_set_field. }
  split; [by rewrite Hlen, set_field_length|].
  intros l [Hne Hl]%not_elem_of_cons.
  by rewrite Hout, set_field_other.
Qed.

Lemma linked_fixed (fuel : nat) (h : heap) (r : loc)
    (ps : list (loc * val)) :
  visits fuel h (VRef r) VNull = Some ps ->
  Tree.parent_of h r = VRef r ->
  (forall p n, reach h r p -> child_of h p n ->
     Tree.parent_of h n = VRef p) ->
  parentizeAst fuel (VRef r) h = Ok (VRef r) h.
Proof.
  intros Hwalk Hroot Hlinks.
  assert (run h ps = h) as Hfix.
  { apply run_fixed, Forall_forall. intros [c q] Hin. split.
    - by apply (proj1 (Forall_forall _ _)
                  (WalkProofs.visits_is_obj _ _ _ _ _ _ Hwalk)) in Hin.
    - destruct (visits_origin _ _ _ _ _ _ _ Hwalk Hin)
        as [[-> ->]|(p & -> & Hp & Hc)]; simpl; [done|].
      by apply Hlinks. }
  assert (estraverse.visit VisitorKeys fuel NodeUtils.parentizeNode
            (VRef r) VNull h = Ok tt (run h ps)) as Hrun.
  { apply (WalkProofs.visit_run VisitorKeys ["parentNode"]);
      [apply (ParentLinker.child_keys_kept _ parent_is_no_child)
      |apply ParentLinker.type_is_no_parent_link
      |apply ParentLinker.parentizeNode_touch|done]. }
  rewrite Hfix in Hrun.
  unfold NodeUtils.parentizeAst, estraverse.replace.
  by rewrite (bind_Ok _ _ _ _ _ Hrun).
Qed.

(** X7.  On a tree whose parent links are in place (the root its own,
    every child that of the node that holds it) the parent linker
    changes nothing at all, and neither does [parentizeNode] at any of
    the visits. *)
Theorem linked_tree_unchanged (fuel : nat) (h : heap) (r : loc)
    (ps : list (loc * val))
    (Hwalk : visits fuel h (VRef r) VNull = Some ps)
    (Hroot : Tree.parent_of h r = VRef r)
    (Hlinks : forall p n, reach h r p -> child_of h p n ->
                Tree.parent_of h n = VRef p) :
  parentizeAst fuel (VRef r) h = Ok (VRef r) h
  /\ forall c q, (c, q) ∈ ps ->
       NodeUtils.parentizeNode (VRef c) q h = Ok (VRef c) h.
Proof.
  split; [by eapply linked_fixed|].
  intros c q Hin.
  assert (is_obj h c) as Hc
    by by apply (proj1 (Forall_forall _ _)
                   (WalkProofs.visits_is_obj _ _ _ _ _ _ Hwalk)) in Hin.
  rewrite ParentLinker.parentizeNode_run by done.
  rewrite set_field_fixed; [done| |apply parent_for_defined].
  destruct (visits_origin _ _ _ _ _ _ _ Hwalk Hin)
    as [[-> ->]|(p & -> & Hp & Hc')]; simpl; [done|].
  by apply Hlinks.
Qed.

(** X8.  The parent linker is idempotent: run on the tree it has just
    linked, it leaves the store as it is. *)
Theorem relinking_changes_nothing (fuel : nat) (h : heap) (r : loc)
    (Htree : Tree.is_tree VisitorKeys fuel h r) :
  exists h',
    parentizeAst fuel (VRef r) h = Ok (VRef r) h'
    /\ parentizeAst fuel (VRef r) h' = Ok (VRef r) h'.
Proof.
  destruct Htree as (ps & Hv & Hnd).
  destruct (ParentLinker.linked _ parent_is_no_child _ _ _ _ Hv Hnd)
    as (Hrun & Hsk & Hroot & Hlinks).
  eexists. split; [done|].
  apply linked_fixed with (ps := ps); [|done..].
  eapply (WalkProofs.skel_visits VisitorKeys ["parentNode"]);
    [apply (ParentLinker.child_keys_kept _ parent_is_no_child)
    |apply ParentLinker.type_is_no_parent_link|done..].
Qed.

(** X9.  The parent linker works in place: it adds no object, leaves
    every object outside the tree as it was, changes no field other than
    [parentNode], and leaves every sequence as it was. *)
Theorem linking_in_place (fuel : nat) (h : heap) (r : loc)
    (Htree : Tree.is_tree VisitorKeys fuel h r) :
  exists h',
    parentizeAst fuel (VRef r) h = Ok (VRef r) h'
    /\ length h' = length h
    /\ (forall l, ~ reach h r l -> h' !! l = h !! l)
    /\ (forall l k, k <> "parentNode" -> field h' l k = field h l k)
    /\ (forall l es, h !! l = Some (OArr es) <-> h' !! l = Some (OArr es)).
Proof.
  destruct Htree as (ps & Hv & Hnd).
  destruct (ParentLinker.linked _ parent_is_no_child _ _ _ _ Hv Hnd)
    as (Hrun & Hsk & _).
  destruct (run_cells ps h (WalkProofs.visits_is_obj _ _ _ _ _ _ Hv))
    as [Hlen Hout].
  set (h' := run h ps) in *.
  assert (forall l o, h !! l = Some o ->
            exists o', h' !! l = Some o' /\ kept ["parentNode"] o o')
    as Hkept by done.
  exists h'. split; [done|]. split; [done|].
  split.
  { intros l Hl. apply Hout. intros Hin. apply Hl.
    by eapply visits_reached. }
  split.
  { intros l k Hk. unfold field.
    destruct (h !! l) as [o|] eqn:Hl.
    - destruct (Hkept _ _ Hl) as (o' & -> & K).
      destruct o as [qs| |], o' as [qs'| |]; simpl in K; try done.
      rewrite K; [done|]. by intros ->%list_elem_of_singleton.
    - apply lookup_ge_None in Hl. rewrite <- Hlen in Hl.
      apply lookup_ge_None in Hl. by rewrite Hl. }
  intros l es. split.
  - intros Hl. by destruct (Hkept _ _ Hl) as (o' & -> & ->).
  - intros Hl'. destruct (h !! l) as [o|] eqn:Hl.
    + destruct (Hkept _ _ Hl) as (o' & Ho' & K).
      rewrite Hl' in Ho'. injection Ho' as <-.
      destruct o; simpl in K; congruence.
    + apply lookup_ge_None in Hl. rewrite <- Hlen in Hl.
      apply lookup_ge_None in Hl. congruence.
Qed.
End Relinking.
End Relinking.


(** ** The recursive copy on any value *)

Lemma is_Some_assoc_set_assoc {A} (k k' : string) (x : A)
    (ps : list (string * A)) :
  is_Some (assoc k (set_assoc k' x ps)) <-> k = k' \/ is_Some (assoc k ps).
Proof.
  destruct (decide (k = k')) as [->|Hne].
  - rewrite assoc_set_assoc_eq. split; [by left|by eauto].
  - rewrite assoc_set_assoc_ne by done. split; [by right|by intros [|]].
Qed.

Lemma assoc_is_Some_keys {A} (k : string) (ps : list (string * A)) :
  is_Some (assoc k ps) <-> k ∈ ps.*1.
Proof.
  induction ps as [|[k' v] ps IH]; simpl.
  - split; [by intros [? [=]]|by intros ?%elem_of_nil].
  - case_decide; subst.
    + split; [left|by eauto].
    + rewrite IH. rewrite elem_of_cons. intuition congruence.
Qed.

Lemma bind_Ok_inv {A B} (m : M A) (f : A -> M B) (h h' : heap) (b : B) :
  bind m f h = Ok b h' -> exists a h1, m h = Ok a h1 /\ f a h1 = Ok b h'.
Proof. unfold bind. destruct (m h) as [a h1| |]; [by eauto|done..]. Qed.

Module CopySafety.

Lemma map_each_grows (copy : val -> M val) (es rs : list val)
    (h h' : heap) :
  grows copy -> map_each copy es h = Ok rs h' -> h `prefix_of` h'.
Proof.
  intros Hc. revert rs h. induction es as [|e es IH]; intros rs h.
  - by intros [= _ ->].
  - simpl. unfold bind at 1.
    destruct (copy e h) as [r h1| |] eqn:E; try done.
    unfold bind at 1.
    destruct (map_each copy es h1) as [rs' h2| |] eqn:E'; try done.
    intros [= _ <-]. etrans; [by eapply Hc|by eapply IH].
Qed.

Lemma clonedValue_grows (copy : val -> M val) :
  grows copy -> grows (NodeUtils.clonedValue copy).
Proof.
  intros Hc v h v' h'. unfold NodeUtils.clonedValue, bind at 1.
  destruct (isRegExp v h) as [b hb| |] eqn:Hb; try done.
  pose proof (reads_isRegExp _ _ _ _ Hb) as ->.
  destruct (is_null v || b); [by intros [= _ ->]|].
  unfold bind at 1.
  destruct (isArray v h) as [arr ha| |] eqn:Ha; try done.
  pose proof (reads_isArray _ _ _ _ Ha) as ->.
  destruct arr.
  - unfold array_map, bind at 1.
    destruct (array_elems v h) as [es he| |] eqn:He; try done.
    pose proof (reads_array_elems _ _ _ _ He) as ->.
    unfold bind at 1.
    destruct (map_each copy es h) as [rs h1| |] eqn:Hm; try done.
    intros [= _ <-]. apply prefix_app_r. by eapply map_each_grows.
  - destruct (typeof_object v); [apply Hc|by intros [= _ ->]].
Qed.

Section Loop.
Variable copy : val -> M val.
Hypothesis copy_grows : grows copy.
Variable node : val.
Variable h0 : heap.

Local Abbreviation N := (length h0).
Local Abbreviation body :=
  (fun property : string =>
     if decide (property = "parentNode") then ret tt
     else
       let* value := get node property in
       let* cloned := NodeUtils.clonedValue copy value in
       set (VRef N) property cloned).

Lemma loop_grows (keys : list string) :
  forall hc acc h',
    h0 `prefix_of` hc ->
    hc !! N = Some (OObj acc) ->
    forEach body keys hc = Ok tt h' ->
    h0 `prefix_of` h'
    /\ exists acc',
         h' !! N = Some (OObj acc')
         /\ forall k, is_Some (assoc k acc')
                      <-> is_Some (assoc k acc)
                          \/ (k ∈ keys /\ k <> "parentNode").
Proof.
  induction keys as [|key keys IH]; intros hc acc h' Hp Hacc.
  - intros [= <-]. split; [done|]. exists acc. split; [done|].
    intros k. rewrite elem_of_nil. tauto.
  - cbn [forEach]. intros ([] & h1 & Hb & Hrest)%bind_Ok_inv.
    assert (h0 `prefix_of` h1
            /\ exists acc1,
                 h1 !! N = Some (OObj acc1)
                 /\ forall k, is_Some (assoc k acc1)
                              <-> is_Some (assoc k acc)
                                  \/ (k = key /\ k <> "parentNode"))
      as (Hp1 & acc1 & Hacc1 & Hkeys1).
    { revert Hb. case_decide as Hkey.
      - intros [= <-]. split; [done|]. exists acc. split; [done|].
        intros k. intuition congruence.
      - intros (value & hg & Hg & (cloned & h2 & Hv & Hset)%bind_Ok_inv)
                 %bind_Ok_inv.
        pose proof (reads_get _ _ _ _ _ Hg) as ->. revert Hset.
        pose proof (clonedValue_grows _ copy_grows _ _ _ _ Hv) as Hp2.
        pose proof (prefix_lookup_Some _ _ _ _ Hacc Hp2) as Hacc2.
        rewrite (set_cell _ _ _ _ _ Hacc2). intros [= <-].
        split; [apply prefix_insert_ge; [by etrans|done]|].
        eexists. split.
        { apply list_lookup_insert_eq. by eapply lookup_lt_Some. }
        intros k. rewrite is_Some_assoc_set_assoc. intuition congruence. }
    destruct (IH _ _ _ Hp1 Hacc1 Hrest) as (Hp' & acc' & Hacc' & Hkeys').
    split; [done|]. exists acc'. split; [done|].
    intros k. rewrite Hkeys', Hkeys1, elem_of_cons. intuition congruence.
Qed.
End Loop.

Lemma cloneRecursive_S (fuel : nat) (v : val) (h : heap) :
  v <> VNull ->
  NodeUtils.cloneRecursive (S fuel) v h
  = (let* copy := alloc (OObj []) in
     let* keys := object_keys v in
     forEach (fun property =>
       if decide (property = "parentNode") then ret tt
       else
         let* value := get v property in
         let* cloned :=
           NodeUtils.clonedValue (NodeUtils.cloneRecursive fuel) value in
         set copy property cloned) keys ;;;
     ret copy) h.
Proof. by destruct v. Qed.

Lemma cloneRecursive_null (fuel : nat) (h : heap) :
  NodeUtils.cloneRecursive fuel VNull h = Ok VNull h.
Proof. by destruct fuel. Qed.

Lemma object_keys_Ok (v : val) (h h' : heap) (keys : list string) :
  object_keys v h = Ok keys h' ->
  h' = h /\ exists qs, own_props h v = Some qs /\ keys = qs.*1.
Proof.
  unfold object_keys. destruct (own_props h v) as [qs|]; [|done].
  intros [= <- <-]. eauto.
Qed.

(** What a run of the clone operation on a value other than [null]
    leaves. *)
Lemma cloneRecursive_run (fuel : nat) (v v' : val) (h h' : heap) :
  grows (NodeUtils.cloneRecursive fuel) ->
  v <> VNull ->
  NodeUtils.cloneRecursive (S fuel) v h = Ok v' h' ->
  h `prefix_of` h'
  /\ v' = VRef (length h)
  /\ exists qs ps,
       own_props (h ++ [OObj []]) v = Some qs
       /\ h' !! length h = Some (OObj ps)
       /\ forall k, is_Some (assoc k ps)
                    <-> k ∈ qs.*1 /\ k <> "parentNode".
Proof.
  intros Hg Hv. rewrite cloneRecursive_S by done. rewrite bind_alloc.
  intros (keys & hk & (-> & qs & Hqs & ->)%object_keys_Ok
          & ([] & h2 & Hloop & [= <- <-])%bind_Ok_inv)%bind_Ok_inv.
  eapply (loop_grows _ Hg _ h) in Hloop as (Hp & ps & Hps & Hkeys);
    [|apply prefix_alloc|apply lookup_alloc].
  split; [done|]. split; [done|]. exists qs, ps.
  split; [done|]. split; [done|].
  intros k. rewrite Hkeys. split; [|by right].
  by intros [[? [=]]|?].
Qed.

Lemma cloneRecursive_grows (fuel : nat) :
  grows (NodeUtils.cloneRecursive fuel).
Proof.
  induction fuel as [|fuel IH]; intros v h v' h'.
  - destruct v; try done. by intros [= _ ->].
  - assert (v = VNull \/ v <> VNull) as [->|Hv]
      by (destruct v; by eauto).
    + rewrite cloneRecursive_null. by intros [= _ ->].
    + by intros (? & _)%cloneRecursive_run.
Qed.

(** X11.  Whenever the recursive copy returns, for whatever value, a
    syntax tree or not, every object that was in the store is as it was;
    for [null] the result is [null] and nothing is stored; for any other
    value the result is a new object whose own keys are those of the
    value without [parentNode]. *)
Theorem cloneRecursive_keeps_store (fuel : nat) (v v' : val) (h h' : heap)
    (Hrun : NodeUtils.cloneRecursive fuel v h = Ok v' h') :
  h `prefix_of` h'
  /\ (v = VNull -> v' = VNull /\ h' = h)
  /\ (v <> VNull ->
      v' = VRef (length h)
      /\ exists ps,
           h' !! length h = Some (OObj ps)
           /\ assoc "parentNode" ps = None
           /\ forall qs k, own_props h v = Some qs ->
                (k ∈ ps.*1 <-> k ∈ qs.*1 /\ k <> "parentNode")).
Proof.
  split; [by eapply cloneRecursive_grows|].
  split.
  { intros ->. rewrite cloneRecursive_null in Hrun. by simplify_eq. }
  intros Hv.
  assert (exists fuel', fuel = S fuel') as [fuel' ->].
  { destruct fuel; [by destruct v|by eauto]. }
  apply cloneRecursive_run in Hrun
      as (_ & -> & qs0 & ps & Hq & Hps & Hkeys);
    [|apply cloneRecursive_grows|done].
  split; [done|]. exists ps. split; [done|].
  split.
  { destruct (assoc "parentNode" ps) eqn:Ha; [|done].
    by destruct (proj1 (Hkeys "parentNode")) as [_ ?]. }
  intros qs k Hqs.
  rewrite (own_props_prefix _ _ _ _ (prefix_alloc h (OObj [])) Hqs) in Hq.
  injection Hq as <-.
  by rewrite <- assoc_is_Some_keys, Hkeys.
Qed.
End CopySafety.

(** ** Conversion, clone and linker together *)

Module Compositions.
Section Compositions.
Variable Precedence_Primary : val.
Variable VisitorKeys : string -> option (list string).
Variable espree_parse : string -> M val.
Hypothesis annotations_are_no_children :
  forall t keys k, VisitorKeys t = Some keys -> k ∈ keys ->
    k ∉ ["parentNode"; "x-verbatim-property"; "metadata"].
Hypothesis keys_distinct :
  forall t keys, VisitorKeys t = Some keys -> NoDup keys.

Local Abbreviation reserved :=
  ["parentNode"; "x-verbatim-property"; "metadata"].

Lemma parent_is_no_child_key (t : string) (keys : list string) :
  VisitorKeys t = Some keys -> "parentNode" ∉ keys.
Proof.
  intros Ht Hin. apply (annotations_are_no_children _ _ _ Ht Hin). by left.
Qed.

(** X10.  The text-to-nodes conversion leaves the parsed program linked
    as the parent linker would: running the linker on the program after
    the conversion changes nothing. *)
Theorem converted_tree_is_linked (fuel : nat) (code : string)
    (h h1 : heap) (r : loc)
    (Hparse : espree_parse code h = Ok (VRef r) h1)
    (Htree : Tree.is_tree VisitorKeys fuel h1 r) :
  exists body h2,
    NodeUtils.convertCodeToStructure Precedence_Primary VisitorKeys
      espree_parse fuel code h = Ok body h2
    /\ NodeUtils.parentizeAst VisitorKeys fuel (VRef r) h2
       = Ok (VRef r) h2.
Proof.
  destruct Htree as (ps & Hv & Hnd).
  destruct (Converter.annotated_all Precedence_Primary VisitorKeys
              annotations_are_no_children _ _ _ _ Hv Hnd)
    as (Hrun & Hsk & Hpost).
  set (h2 := run_visits (NodeUtils.annotate Precedence_Primary) h1 ps) in *.
  pose proof (WalkProofs.visits_is_obj _ _ _ _ _ _ Hv) as Hobj.
  destruct (WalkProofs.visits_head _ _ _ _ _ _ Hv) as [ps' Hps].
  assert (is_obj h1 r) as Hr.
  { rewrite Hps in Hobj. by apply Forall_cons in Hobj as [? _]. }
  assert (Tree.visits VisitorKeys fuel h2 (VRef r) VNull = Some ps) as Hv2.
  { eapply (WalkProofs.skel_visits VisitorKeys reserved);
      [apply annotations_are_no_children
      |apply Converter.type_is_no_annotation|done..]. }
  exists (field h2 r "body"), h2. split.
  { unfold NodeUtils.convertCodeToStructure, estraverse.replace.
    rewrite (bind_Ok _ _ _ _ _ Hparse). norm.
    rewrite (bind_Ok _ _ _ _ _ Hrun).
    apply get_field. by eapply WalkProofs.skel_is_obj. }
  apply (Relinking.linked_fixed VisitorKeys parent_is_no_child_key)
    with (ps := ps); [done| |].
  - destruct (Hpost r VNull) as (Hp & _); [rewrite Hps; left|done].
  - intros p n Hp Hn. apply (Hpost n (VRef p)).
    eapply (WalkProofs.visits_child_of VisitorKeys reserved);
      [apply annotations_are_no_children
      |apply Converter.type_is_no_annotation|done..].
Qed.

Local Abbreviation clone := (NodeUtils.clone VisitorKeys).

(** The clone of a tree whose sequences hold nodes or [null], as it
    reads. *)
Lemma clone_reading (fuel n : nat) (h : heap) (l : loc) (s : shape)
    (ls : list loc) :
  unfold n h (VRef l) = Some (s, ls) ->
  Tree.syntax_tree VisitorKeys s = true ->
  n <= fuel ->
  exists l' h' ls',
    clone fuel (VRef l) h = Ok (VRef l') h'
    /\ h `prefix_of` h'
    /\ unfold n h' (VRef l') = Some (s, ls')
    /\ forall x, x ∈ ls' -> length h <= x.
Proof.
  intros Hnode [Hclone Hwalk]%andb_prop Hfuel.
  assert (is_node_shape s = true /\ is_obj h l) as [Hshape Hobj].
  { pose proof (ClonerProofs.reading_value _ _ _ _ _ Hnode) as Hs.
    destruct s as [| | | | | | |ss]; try done.
    destruct (WalkReading.walkable_SObj _ _ Hwalk) as (t & keys & Ht & _).
    destruct Hs as (l0 & props & ls0 & n' & [= <-] & Hl & _).
    split; [by simpl; rewrite Ht|by exists props]. }
  destruct (ClonerProofs.cloneRecursive_node _ _ _ _ _ _
              Hnode Hobj Hclone Hfuel)
    as (l' & h1 & Hrun & Hpre & Hv1 & Hfp & Hobj').
  set (ls' := seq (length h) (length h1 - length h)) in *.
  destruct (Cloner.reading_visits VisitorKeys parent_is_no_child_key
              keys_distinct n fuel Hfuel h1 (VRef l') s ls' VNull
              Hv1 Hshape Hwalk) as (ps & Hps & Hsub).
  assert (NoDup ps.*1) as Hnd
    by (eapply submseteq_NoDup; [done|apply NoDup_seq]).
  destruct (ParentLinker.linked VisitorKeys parent_is_no_child_key
              fuel h1 l' ps Hps Hnd) as (Hlink & _).
  assert (forall x, x ∈ ls' -> length h <= x) as Hnew.
  { intros x Hx%elem_of_seq. lia. }
  exists l', (run_visits NodeUtils.parentizeNode h1 ps), ls'.
  split.
  { unfold NodeUtils.clone. by rewrite (bind_Ok _ _ _ _ _ Hrun). }
  split.
  { apply Cloner.parentize_run_prefix; [done|]. apply Forall_forall.
    intros [c q] Hin. apply Hnew. eapply elem_of_submseteq; [|done].
    apply list_elem_of_fmap. by exists (c, q). }
  split; [by rewrite Cloner.parentize_run_unfold|done].
Qed.

(** X12.  Where every sequence of a tree holds nodes or [null] and the
    engine knows the type of every node, the clone of the clone of the
    tree reads as the tree does, and after both clones the three trees
    read the same and no plain object or sequence of one is one of
    another.  Regular-expression objects are not among the cells of a
    reading: the copy takes them by reference, and the three trees share
    them. *)
Theorem clone_of_clone (fuel n : nat) (h : heap) (l : loc) (s : shape)
    (ls : list loc)
    (Hnode : unfold n h (VRef l) = Some (s, ls))
    (Htree : Tree.syntax_tree VisitorKeys s = true)
    (Hfuel : n <= fuel) :
  exists l1 h1 l2 h2 ls1 ls2,
    clone fuel (VRef l) h = Ok (VRef l1) h1
    /\ clone fuel (VRef l1) h1 = Ok (VRef l2) h2
    /\ unfold n h2 (VRef l) = Some (s, ls)
    /\ unfold n h2 (VRef l1) = Some (s, ls1)
    /\ unfold n h2 (VRef l2) = Some (s, ls2)
    /\ (forall x, x ∈ ls1 -> x ∉ ls)
    /\ (forall x, x ∈ ls2 -> (x ∉ ls) /\ (x ∉ ls1)).
Proof.
  destruct (clone_reading _ _ _ _ _ _ Hnode Htree Hfuel)
    as (l1 & h1 & ls1 & Hrun1 & Hp1 & Hv1 & Hnew1).
  destruct (clone_reading _ _ _ _ _ _ Hv1 Htree Hfuel)
    as (l2 & h2 & ls2 & Hrun2 & Hp2 & Hv2 & Hnew2).
  assert (forall x, x ∈ ls -> x < length h) as Hold.
  { intros x Hx.
    destruct (UnfoldProofs.unfold_cells _ _ _ _ _ _ Hnode Hx)
      as (o & Ho & _). by eapply lookup_lt_Some. }
  assert (forall x, x ∈ ls1 -> x < length h1) as Hold1.
  { intros x Hx.
    destruct (UnfoldProofs.unfold_cells _ _ _ _ _ _ Hv1 Hx)
      as (o & Ho & _). by eapply lookup_lt_Some. }
  pose proof (prefix_length _ _ Hp1) as Hlen.
  exists l1, h1, l2, h2, ls1, ls2.
  split; [done|]. split; [done|].
  split.
  { eapply UnfoldProofs.unfold_prefix; [done|].
    by eapply UnfoldProofs.unfold_prefix. }
  split; [by eapply UnfoldProofs.unfold_prefix|].
  split; [done|].
  split.
  - intros x Hx Hin. apply Hnew1 in Hx. apply Hold in Hin. lia.
  - intros x Hx. apply Hnew2 in Hx.
    split; intros Hin; [apply Hold in Hin|apply Hold1 in Hin]; lia.
Qed.
End Compositions.
End Compositions.

(** ** Literals of the parser and of the factory *)

Module LiteralNodes.
Section Literal.
Variable Precedence_Primary : val.
Variable Number_toString : float -> string.

Local Abbreviation literalNode :=
  (NodeFactory.literalNode Precedence_Primary Number_toString).
Local Abbreviation annotate := (NodeUtils.annotate Precedence_Primary).

(** X13.  The conversion annotates a parsed literal as the factory
    builds one: a literal node with value [v] and raw text [r], once
    entered by the conversion, has the [type], [value] and [raw] of
    [literalNode(v, r)], a verbatim annotation equal to the factory's
    and a metadata record equal to the factory's. *)
Theorem annotated_literal_as_factory (value : literal_value)
    (raw : string) (q : val) (h : heap) (l : loc)
    (Hobj : is_obj h l)
    (Htype : field h l "type" = VStr NodeType.Literal)
    (Hvalue : field h l "value" = NodeFactory.literal_val value)
    (Hraw : field h l "raw" = VStr raw) :
  exists l' h1 h2 a1 a2 m1 m2,
    literalNode value (Some raw) h = Ok (VRef l') h1
    /\ annotate (VRef l) q h = Ok (VRef l) h2
    /\ field h2 l "type" = field h1 l' "type"
    /\ field h2 l "value" = field h1 l' "value"
    /\ field h2 l "raw" = field h1 l' "raw"
    /\ field h1 l' "x-verbatim-property" = VRef a1
    /\ field h2 l "x-verbatim-property" = VRef a2
    /\ h2 !! a2 = h1 !! a1
    /\ h1 !! a1 = Some (OObj [("content", VStr raw);
                              ("precedence", Precedence_Primary)])
    /\ field h1 l' "metadata" = VRef m1
    /\ field h2 l "metadata" = VRef m2
    /\ h2 !! m2 = h1 !! m1
    /\ h1 !! m1 = Some (OObj [("ignoredNode", VBool false)]).
Proof.
  assert (is_literal_type (field h l "type") = true) as Hlit
    by (rewrite Htype; by apply bool_decide_eq_true_2).
  destruct (Converter.annotated_verbatim Precedence_Primary l q h Hobj Hlit)
    as (a2 & Ha2 & Hcell2 & _).
  destruct (Converter.annotated_metadata Precedence_Primary l q h Hobj)
    as (m2 & Hm2 & Hmeta2 & _).
  destruct (Converter.annotate_touch Precedence_Primary l q h Hobj)
    as (h2 & Hrun & Hsk%WalkProofs.touch_skel).
  rewrite (Converter.annotate_run Precedence_Primary l q h Hobj) in Hrun.
  injection Hrun as <-.
  assert (forall k, k ∉ ["parentNode"; "x-verbatim-property"; "metadata"] ->
            field (annotated_store Precedence_Primary h l q) l k
            = field h l k) as Hkeep
    by (intros k Hk; by apply Converter.skel_field).
  set (verbatim := OObj [("content", VStr raw);
                         ("precedence", Precedence_Primary)]).
  set (metadata := OObj [("ignoredNode", VBool false)]).
  set (h0 := (h ++ [verbatim]) ++ [metadata]).
  set (node := OObj [("type", VStr NodeType.Literal);
                     ("value", NodeFactory.literal_val value);
                     ("raw", VStr raw);
                     ("x-verbatim-property", VRef (length h));
                     ("metadata", VRef (length (h ++ [verbatim])))]).
  assert (forall k, field (h0 ++ [node]) (length h0) k
                    = default VUndef
                        (assoc k [("type", VStr NodeType.Literal);
                                  ("value", NodeFactory.literal_val value);
                                  ("raw", VStr raw);
                                  ("x-verbatim-property", VRef (length h));
                                  ("metadata",
                                   VRef (length (h ++ [verbatim])))]))
    as Hnew by (intros k; unfold field; by rewrite lookup_alloc).
  exists (length h0), (h0 ++ [node]),
    (annotated_store Precedence_Primary h l q),
    (length h), a2, (length (h ++ [verbatim])), m2.
  split; [reflexivity|].
  split; [by apply Converter.annotate_run|].
  rewrite !Hnew. eval_assoc.
  rewrite (Hkeep "type"), (Hkeep "value"), (Hkeep "raw"),
    Htype, Hvalue, Hcell2, Hmeta2, Hraw
    by (rewrite !not_elem_of_cons; repeat split; try done;
        apply not_elem_of_nil).
  assert ((h0 ++ [node]) !! length h = Some verbatim) as Hv
    by apply lookup_alloc_old, lookup_alloc_old, lookup_alloc.
  assert ((h0 ++ [node]) !! length (h ++ [verbatim]) = Some metadata) as Hm
    by apply lookup_alloc_old, lookup_alloc.
  by rewrite Hv, Hm.
Qed.
End Literal.
End LiteralNodes.

(** ** The statements that the conversion returns *)

Lemma map_each_elem {A B} (f : A -> M B) (xs : list A) (ys : list B)
    (h h' : heap) (x : A) :
  (forall x, reads (f x)) ->
  map_each f xs h = Ok ys h' ->
  x ∈ xs ->
  exists y, f x h = Ok y h /\ y ∈ ys.
Proof.
  intros Hf. revert ys. induction xs as [|x0 xs IH]; intros ys.
  { by intros _ ?%elem_of_nil. }
  simpl. intros (y0 & h0 & E0 & (ys' & h1 & E1 & [= <- <-])%bind_Ok_inv)
           %bind_Ok_inv Hin.
  pose proof (Hf _ _ _ _ E0) as ->.
  apply elem_of_cons in Hin as [->|Hin].
  - exists y0. split; [done|left].
  - destruct (IH _ E1 Hin) as (y & ? & ?). exists y. split; [done|by right].
Qed.

Module TopLevel.
Section TopLevel.
Variable Precedence_Primary : val.
Variable VisitorKeys : string -> option (list string).
Variable espree_parse : string -> M val.
Hypothesis annotations_are_no_children :
  forall t keys k, VisitorKeys t = Some keys -> k ∈ keys ->
    k ∉ ["parentNode"; "x-verbatim-property"; "metadata"].

Local Abbreviation children := (estraverse.children VisitorKeys).

(** The nodes of a sequence held under a child key are children. *)
Lemma sequence_children (h : heap) (r b n : loc) (t : string)
    (keys : list string) (key : string) (es cs : list val) :
  field h r "type" = VStr t ->
  VisitorKeys t = Some keys -> key ∈ keys ->
  field h r key = VRef b -> h !! b = Some (OArr es) ->
  VRef n ∈ es -> estraverse.isNode (VRef n) h = Ok true h ->
  children (VRef r) h = Ok cs h ->
  VRef n ∈ cs.
Proof.
  intros Ht Hkeys Hkey Hb Hes Hn Hnode.
  assert (is_obj h r) as Hr.
  { unfold field in Ht. destruct (h !! r) as [[ps| |]|] eqn:E; try done.
    by exists ps. }
  unfold estraverse.children. rewrite (bind_Ok _ _ _ _ _ (get_field _ _ _ Hr)).
  rewrite Ht, Hkeys.
  intros (css & h1 & Hcss & [= <- ->])%bind_Ok_inv.
  destruct (map_each_elem _ _ _ _ _ key
              (WalkProofs.reads_key_children (VRef r)) Hcss Hkey)
    as (y & Hy & Hin).
  apply elem_of_concat. exists y. split; [|done].
  revert Hy. unfold estraverse.key_children.
  rewrite (bind_Ok _ _ _ _ _ (get_field _ _ _ Hr)), Hb. cbn [truthy].
  unfold isArray at 1. rewrite bind_Ok with (a := true) (h' := h)
    by by rewrite Hes.
  unfold array_elems. rewrite bind_Ok with (a := es) (h' := h)
    by by rewrite Hes.
  intros (ns & h2 & Hns & [= <- ->])%bind_Ok_inv.
  destruct (map_each_elem _ _ _ _ _ (VRef n)
              WalkProofs.reads_node_or_nothing Hns Hn) as (c & Hc & Hcin).
  apply elem_of_concat. exists c. split; [|done].
  revert Hc. unfold estraverse.node_or_nothing. cbn [truthy].
  rewrite (bind_Ok _ _ _ _ _ Hnode). intros [= <-]. left.
Qed.

(** X14.  The conversion returns the [body] sequence of the parsed
    program as the parser made it; the program node itself is not in it,
    and every node of the sequence has the program node as its parent
    link.  (The child keys of a program include [body].) *)
Theorem statements_point_to_program (fuel : nat) (code : string)
    (h h1 : heap) (r b : loc) (es : list val) (keys : list string)
    (Hparse : espree_parse code h = Ok (VRef r) h1)
    (Htree : Tree.is_tree VisitorKeys fuel h1 r)
    (Htype : field h1 r "type" = VStr NodeType.Program)
    (Hkeys : VisitorKeys NodeType.Program = Some keys)
    (Hkey : "body" ∈ keys)
    (Hbody : field h1 r "body" = VRef b)
    (Hes : h1 !! b = Some (OArr es)) :
  exists h2,
    NodeUtils.convertCodeToStructure Precedence_Primary VisitorKeys
      espree_parse fuel code h = Ok (VRef b) h2
    /\ h2 !! b = Some (OArr es)
    /\ (VRef r ∉ es)
    /\ forall n, VRef n ∈ es ->
         estraverse.isNode (VRef n) h1 = Ok true h1 ->
         Tree.parent_of h2 n = VRef r.
Proof.
  destruct Htree as (ps & Hv & Hnd).
  destruct (Converter.annotated_all Precedence_Primary VisitorKeys
              annotations_are_no_children _ _ _ _ Hv Hnd)
    as (Hrun & Hsk & Hpost).
  set (h2 := run_visits (NodeUtils.annotate Precedence_Primary) h1 ps) in *.
  assert (is_obj h1 r) as Hr.
  { unfold field in Htype. destruct (h1 !! r) as [[qs| |]|] eqn:E; try done.
    by exists qs. }
  destruct fuel as [|fuel]; [done|].
  destruct (WalkProofs.visits_S _ _ _ _ _ _ Hv)
    as (l & cs & pss & [= <-] & Hcs & Hm & Hps).
  assert (forall n, VRef n ∈ es ->
            estraverse.isNode (VRef n) h1 = Ok true h1 ->
            (n, VRef r) ∈ ps) as Hin.
  { intros n Hn Hnode.
    assert (VRef n ∈ cs) as Hc by by eapply sequence_children.
    destruct (WalkProofs.visits_child _ _ _ _ _ _ _ _ Hv Hcs Hc)
      as (psc & Hpsc & Hsub).
    destruct (WalkProofs.visits_head _ _ _ _ _ _ Hpsc) as [psc' ->].
    apply Hsub. left. }
  exists h2. split.
  { unfold NodeUtils.convertCodeToStructure, estraverse.replace.
    rewrite (bind_Ok _ _ _ _ _ Hparse). norm.
    rewrite (bind_Ok _ _ _ _ _ Hrun).
    rewrite get_field by by eapply WalkProofs.skel_is_obj.
    rewrite (Converter.skel_field _ _ _ "body" Hsk);
      [by rewrite Hbody| |done].
    rewrite !not_elem_of_cons. repeat split; try done. apply not_elem_of_nil. }
  split.
  { by destruct (Hsk _ _ Hes) as (o' & -> & ->). }
  split.
  { intros Hself.
    assert (estraverse.isNode (VRef r) h1 = Ok true h1) as Hnode.
    { unfold estraverse.isNode.
      by rewrite (bind_Ok _ _ _ _ _ (get_field _ _ _ Hr)), Htype. }
    pose proof (Hin r Hself Hnode) as Hdup.
    rewrite Hps in Hnd, Hdup. cbn [fmap list_fmap] in Hnd.
    apply NoDup_cons in Hnd as [Hnot _].
    apply elem_of_cons in Hdup as [[=]|Hdup].
    apply Hnot. apply list_elem_of_fmap. by exists (r, VRef r). }
  intros n Hn Hnode.
  by destruct (Hpost n (VRef r) (Hin n Hn Hnode)) as (Hp & _).
Qed.
End TopLevel.
End TopLevel.

(** * The further properties at the sample program *)

Lemma unary_nest_unwrapped_sample :
  NodeGuards.isUnaryExpressionNode (VRef 0) sample_parsed
  = Ok false sample_parsed
  /\ exists u h',
      unary_nest ("-" :: ["+"]) (VRef 0) sample_parsed = Ok (VRef u) h'
      /\ sample_parsed `prefix_of` h'
      /\ sample_parsed !! u = None
      /\ NodeGuards.isUnaryExpressionNode (VRef u) h' = Ok true h'
      /\ forall fuel, length ["+"] < fuel ->
           NodeUtils.getUnaryExpressionArgumentNode fuel (VRef u) h'
           = Ok (VRef 0) h'.
Proof.
  assert (NodeGuards.isUnaryExpressionNode (VRef 0) sample_parsed
          = Ok false sample_parsed) as Hplain by reflexivity.
  split; [exact Hplain|].
  exact (UnaryChains.unary_nest_unwrapped "-" ["+"] (VRef 0) sample_parsed
           Hplain).
Defined.

Lemma structure_text_concatenated_sample :
  sample_sequences !! 15 = Some (OArr [VRef 2])
  /\ sample_sequences !! 16 = Some (OArr [VRef 1])
  /\ sample_sequences !! 17 = Some (OArr ([VRef 2] ++ [VRef 1]))
  /\ NodeUtils.convertStructureToCode sample_generate_plain (VRef 15)
       sample_sequences = Ok "Literal" sample_sequences
  /\ NodeUtils.convertStructureToCode sample_generate_plain (VRef 16)
       sample_sequences = Ok "UnaryExpression" sample_sequences
  /\ NodeUtils.convertStructureToCode sample_generate_plain (VRef 17)
       sample_sequences
     = Ok ("Literal" +:+ "UnaryExpression") sample_sequences
  /\ (forall a0 h0, h0 !! a0 = Some (OArr []) ->
        NodeUtils.convertStructureToCode sample_generate_plain (VRef a0) h0
        = Ok EmptyString h0).
Proof.
  assert (sample_sequences !! 15 = Some (OArr [VRef 2])) as Hxs
    by reflexivity.
  assert (sample_sequences !! 16 = Some (OArr [VRef 1])) as Hys
    by reflexivity.
  assert (sample_sequences !! 17 = Some (OArr ([VRef 2] ++ [VRef 1])))
    as Hall by reflexivity.
  assert (NodeUtils.convertStructureToCode sample_generate_plain (VRef 15)
            sample_sequences = Ok "Literal" sample_sequences) as Hfirst
    by (vm_compute; reflexivity).
  assert (NodeUtils.convertStructureToCode sample_generate_plain (VRef 16)
            sample_sequences = Ok "UnaryExpression" sample_sequences)
    as Hsecond by (vm_compute; reflexivity).
  split; [exact Hxs|]. split; [exact Hys|]. split; [exact Hall|].
  split; [exact Hfirst|]. split; [exact Hsecond|].
  exact (TextOfNodes.structure_text_concatenated sample_generate_plain
           sample_sequences sample_sequences sample_sequences 15 16 17
           [VRef 2] [VRef 1] "Literal" "UnaryExpression"
           Hxs Hys Hall Hfirst Hsecond).
Defined.

Lemma structure_text_failure_sample :
  sample_sequences !! 18 = Some (OArr ([VRef 2] ++ VRef 8 :: []))
  /\ NodeUtils.generate_all sample_generate_plain EmptyString [VRef 2]
       sample_sequences = Ok "Literal" sample_sequences
  /\ NodeUtils.escodegen_generate sample_generate_plain code_options
       (VRef 8) sample_sequences
     = Throw (EngineError "Unknown node type")
  /\ NodeUtils.convertStructureToCode sample_generate_plain (VRef 18)
       sample_sequences = Throw (EngineError "Unknown node type")
  /\ (forall v h0, isArray v h0 = Ok false h0 ->
        NodeUtils.convertStructureToCode sample_generate_plain v h0
        = Throw TypeError).
Proof.
  assert (sample_sequences !! 18 = Some (OArr ([VRef 2] ++ VRef 8 :: [])))
    as Hnodes by reflexivity.
  assert (NodeUtils.generate_all sample_generate_plain EmptyString [VRef 2]
            sample_sequences = Ok "Literal" sample_sequences) as Hbefore
    by (vm_compute; reflexivity).
  assert (NodeUtils.escodegen_generate sample_generate_plain code_options
            (VRef 8) sample_sequences
          = Throw (EngineError "Unknown node type"))
    as Hfails by (vm_compute; reflexivity).
  split; [exact Hnodes|]. split; [exact Hbefore|]. split; [exact Hfails|].
  exact (TextOfNodes.structure_text_failure sample_generate_plain
           sample_sequences sample_sequences 18 [VRef 2] [] (VRef 8)
           "Literal" (EngineError "Unknown node type")
           Hnodes Hbefore Hfails).
Defined.

Lemma sample_linked_run :
  run_visits NodeUtils.parentizeNode sample_parsed sample_visits
  = sample_linked.
Proof. vm_compute. reflexivity. Qed.

Lemma sample_parsed_visits :
  Tree.visits sample_keys 6 sample_parsed (VRef sample_root) VNull
  = Some sample_visits.
Proof. vm_compute. reflexivity. Qed.

Lemma sample_linked_links :
  Tree.parent_of sample_linked sample_root = VRef sample_root
  /\ forall p n, Tree.reach sample_keys sample_linked sample_root p ->
       Tree.child_of sample_keys sample_linked p n ->
       Tree.parent_of sample_linked n = VRef p.
Proof.
  assert (NoDup sample_visits.*1) as Hnd by by apply (bool_decide_unpack _).
  destruct (ParentLinker.linked sample_keys sample_keys_no_parent 6
              sample_parsed sample_root sample_visits
              sample_parsed_visits Hnd) as (_ & _ & Hroot & Hlinks).
  rewrite sample_linked_run in Hroot, Hlinks. by split.
Qed.

Lemma linked_tree_unchanged_sample :
  Tree.visits sample_keys 6 sample_linked (VRef sample_root) VNull
  = Some sample_visits
  /\ Tree.parent_of sample_linked sample_root = VRef sample_root
  /\ (forall p n, Tree.reach sample_keys sample_linked sample_root p ->
        Tree.child_of sample_keys sample_linked p n ->
        Tree.parent_of sample_linked n = VRef p)
  /\ NodeUtils.parentizeAst sample_keys 6 (VRef sample_root) sample_linked
     = Ok (VRef sample_root) sample_linked
  /\ forall c q, (c, q) ∈ sample_visits ->
       NodeUtils.parentizeNode (VRef c) q sample_linked
       = Ok (VRef c) sample_linked.
Proof.
  assert (Tree.visits sample_keys 6 sample_linked (VRef sample_root) VNull
          = Some sample_visits) as Hwalk by (vm_compute; reflexivity).
  split; [exact Hwalk|].
  split; [exact (proj1 sample_linked_links)|].
  split; [exact (proj2 sample_linked_links)|].
  exact (Relinking.linked_tree_unchanged sample_keys sample_keys_no_parent
           6 sample_linked sample_root sample_visits Hwalk
           (proj1 sample_linked_links) (proj2 sample_linked_links)).
Defined.

Lemma relinking_changes_nothing_sample :
  Tree.is_tree sample_keys 6 sample_parsed sample_root
  /\ exists h',
      NodeUtils.parentizeAst sample_keys 6 (VRef sample_root) sample_parsed
      = Ok (VRef sample_root) h'
      /\ NodeUtils.parentizeAst sample_keys 6 (VRef sample_root) h'
         = Ok (VRef sample_root) h'.
Proof.
  split; [exact sample_parsed_tree|].
  exact (Relinking.relinking_changes_nothing sample_keys
           sample_keys_no_parent 6 sample_parsed sample_root
           sample_parsed_tree).
Defined.

Lemma linking_in_place_sample :
  Tree.is_tree sample_keys 6 sample_parsed sample_root
  /\ exists h',
      NodeUtils.parentizeAst sample_keys 6 (VRef sample_root) sample_parsed
      = Ok (VRef sample_root) h'
      /\ length h' = length sample_parsed
      /\ (forall l, ~ Tree.reach sample_keys sample_parsed sample_root l ->
            h' !! l = sample_parsed !! l)
      /\ (forall l k, k <> "parentNode" ->
            field h' l k = field sample_parsed l k)
      /\ (forall l es, sample_parsed !! l = Some (OArr es)
                       <-> h' !! l = Some (OArr es)).
Proof.
  split; [exact sample_parsed_tree|].
  exact (Relinking.linking_in_place sample_keys sample_keys_no_parent 6
           sample_parsed sample_root sample_parsed_tree).
Defined.

Lemma converted_tree_is_linked_sample :
  sample_parse sample_code [] = Ok (VRef sample_root) sample_parsed
  /\ Tree.is_tree sample_keys 6 sample_parsed sample_root
  /\ exists body h2,
      NodeUtils.convertCodeToStructure sample_primary sample_keys
        sample_parse 6 sample_code [] = Ok body h2
      /\ NodeUtils.parentizeAst sample_keys 6 (VRef sample_root) h2
         = Ok (VRef sample_root) h2.
Proof.
  assert (sample_parse sample_code [] = Ok (VRef sample_root) sample_parsed)
    as Hparse by (vm_compute; reflexivity).
  split; [exact Hparse|]. split; [exact sample_parsed_tree|].
  exact (Compositions.converted_tree_is_linked sample_primary sample_keys
           sample_parse sample_keys_no_annotation 6 sample_code []
           sample_parsed sample_root Hparse sample_parsed_tree).
Defined.

Lemma cloneRecursive_keeps_store_sample :
  NodeUtils.cloneRecursive 3 (VRef 1) sample_ranged
  = Ok (VRef 2)
       (sample_ranged
        ++ [OObj [("type", VStr "Identifier"); ("name", VStr "x");
                  ("range", VRef 5)];
            OObj []; OObj []; OArr [VRef 3; VRef 4]])
  /\ sample_ranged
     `prefix_of`
       (sample_ranged
        ++ [OObj [("type", VStr "Identifier"); ("name", VStr "x");
                  ("range", VRef 5)];
            OObj []; OObj []; OArr [VRef 3; VRef 4]])
  /\ (VRef 1 = VNull ->
      VRef 2 = VNull
      /\ sample_ranged
         ++ [OObj [("type", VStr "Identifier"); ("name", VStr "x");
                   ("range", VRef 5)];
             OObj []; OObj []; OArr [VRef 3; VRef 4]]
         = sample_ranged)
  /\ (VRef 1 <> VNull ->
      VRef 2 = VRef (length sample_ranged)
      /\ exists ps,
           (sample_ranged
            ++ [OObj [("type", VStr "Identifier"); ("name", VStr "x");
                      ("range", VRef 5)];
                OObj []; OObj []; OArr [VRef 3; VRef 4]])
           !! length sample_ranged = Some (OObj ps)
           /\ assoc "parentNode" ps = None
           /\ forall qs k, own_props sample_ranged (VRef 1) = Some qs ->
                (k ∈ ps.*1 <-> k ∈ qs.*1 /\ k <> "parentNode")).
Proof.
  assert (NodeUtils.cloneRecursive 3 (VRef 1) sample_ranged
          = Ok (VRef 2)
               (sample_ranged
                ++ [OObj [("type", VStr "Identifier"); ("name", VStr "x");
                          ("range", VRef 5)];
                    OObj []; OObj []; OArr [VRef 3; VRef 4]])) as Hrun
    by reflexivity.
  split; [exact Hrun|].
  exact (CopySafety.cloneRecursive_keeps_store 3 (VRef 1) (VRef 2)
           sample_ranged _ Hrun).
Defined.

Lemma clone_of_clone_sample :
  unfold 8 sample_store (VRef sample_root) = Some (sample_shape, sample_cells)
  /\ Tree.syntax_tree sample_keys sample_shape = true
  /\ 8 <= 9
  /\ exists l1 h1 l2 h2 ls1 ls2,
      NodeUtils.clone sample_keys 9 (VRef sample_root) sample_store
      = Ok (VRef l1) h1
      /\ NodeUtils.clone sample_keys 9 (VRef l1) h1 = Ok (VRef l2) h2
      /\ unfold 8 h2 (VRef sample_root) = Some (sample_shape, sample_cells)
      /\ unfold 8 h2 (VRef l1) = Some (sample_shape, ls1)
      /\ unfold 8 h2 (VRef l2) = Some (sample_shape, ls2)
      /\ (forall x, x ∈ ls1 -> x ∉ sample_cells)
      /\ (forall x, x ∈ ls2 -> (x ∉ sample_cells) /\ (x ∉ ls1)).
Proof.
  assert (unfold 8 sample_store (VRef sample_root)
          = Some (sample_shape, sample_cells)) as Hnode
    by (vm_compute; reflexivity).
  assert (Tree.syntax_tree sample_keys sample_shape = true) as Htree
    by (vm_compute; reflexivity).
  assert (8 <= 9) as Hfuel by lia.
  split; [exact Hnode|]. split; [exact Htree|]. split; [exact Hfuel|].
  exact (Compositions.clone_of_clone sample_keys sample_keys_no_annotation
           sample_keys_distinct 9 8 sample_store sample_root sample_shape
           sample_cells Hnode Htree Hfuel).
Defined.

Lemma annotated_literal_as_factory_sample :
  is_obj sample_parsed 2
  /\ field sample_parsed 2 "type" = VStr NodeType.Literal
  /\ field sample_parsed 2 "value"
     = NodeFactory.literal_val (LNum 31%float)
  /\ field sample_parsed 2 "raw" = VStr "0x1F"
  /\ exists l' h1 h2 a1 a2 m1 m2,
      NodeFactory.literalNode sample_primary sample_number_text
        (LNum 31%float) (Some "0x1F") sample_parsed = Ok (VRef l') h1
      /\ NodeUtils.annotate sample_primary (VRef 2) (VRef 4) sample_parsed
         = Ok (VRef 2) h2
      /\ field h2 2 "type" = field h1 l' "type"
      /\ field h2 2 "value" = field h1 l' "value"
      /\ field h2 2 "raw" = field h1 l' "raw"
      /\ field h1 l' "x-verbatim-property" = VRef a1
      /\ field h2 2 "x-verbatim-property" = VRef a2
      /\ h2 !! a2 = h1 !! a1
      /\ h1 !! a1 = Some (OObj [("content", VStr "0x1F");
                                ("precedence", sample_primary)])
      /\ field h1 l' "metadata" = VRef m1
      /\ field h2 2 "metadata" = VRef m2
      /\ h2 !! m2 = h1 !! m1
      /\ h1 !! m1 = Some (OObj [("ignoredNode", VBool false)]).
Proof.
  assert (is_obj sample_parsed 2) as Hobj by (eexists; reflexivity).
  assert (field sample_parsed 2 "type" = VStr NodeType.Literal) as Htype
    by reflexivity.
  assert (field sample_parsed 2 "value"
          = NodeFactory.literal_val (LNum 31%float)) as Hvalue
    by reflexivity.
  assert (field sample_parsed 2 "raw" = VStr "0x1F") as Hraw by reflexivity.
  split; [exact Hobj|]. split; [exact Htype|]. split; [exact Hvalue|].
  split; [exact Hraw|].
  exact (LiteralNodes.annotated_literal_as_factory sample_primary
           sample_number_text (LNum 31%float) "0x1F" (VRef 4) sample_parsed 2
           Hobj Htype Hvalue Hraw).
Defined.

Lemma statements_point_to_program_sample :
  sample_parse sample_code [] = Ok (VRef sample_root) sample_parsed
  /\ Tree.is_tree sample_keys 6 sample_parsed sample_root
  /\ field sample_parsed sample_root "type" = VStr NodeType.Program
  /\ sample_keys NodeType.Program = Some ["body"]
  /\ "body" ∈ ["body"]
  /\ field sample_parsed sample_root "body" = VRef 6
  /\ sample_parsed !! 6 = Some (OArr [VRef 5])
  /\ exists h2,
      NodeUtils.convertCodeToStructure sample_primary sample_keys
        sample_parse 6 sample_code [] = Ok (VRef 6) h2
      /\ h2 !! 6 = Some (OArr [VRef 5])
      /\ (VRef sample_root ∉ [VRef 5])
      /\ forall n, VRef n ∈ [VRef 5] ->
           estraverse.isNode (VRef n) sample_parsed
           = Ok true sample_parsed ->
           Tree.parent_of h2 n = VRef sample_root.
Proof.
  assert (sample_parse sample_code [] = Ok (VRef sample_root) sample_parsed)
    as Hparse by (vm_compute; reflexivity).
  assert (field sample_parsed sample_root "type" = VStr NodeType.Program)
    as Htype by reflexivity.
  assert (sample_keys NodeType.Program = Some ["body"]) as Hkeys
    by reflexivity.
  assert ("body" ∈ ["body"]) as Hkey by left.
  assert (field sample_parsed sample_root "body" = VRef 6) as Hbody
    by reflexivity.
  assert (sample_parsed !! 6 = Some (OArr [VRef 5])) as Hes by reflexivity.
  split; [exact Hparse|]. split; [exact sample_parsed_tree|].
  split; [exact Htype|]. split; [exact Hkeys|]. split; [exact Hkey|].
  split; [exact Hbody|]. split; [exact Hes|].
  exact (TopLevel.statements_point_to_program sample_primary sample_keys
           sample_parse sample_keys_no_annotation 6 sample_code []
           sample_parsed sample_root 6 [VRef 5] ["body"]
           Hparse sample_parsed_tree Htype Hkeys Hkey Hbody Hes).
Defined.
